(** * setupRoot: the privileged set-up step of shifter

    A shallow embedding of [src/udiRoot/src/setupRoot.c], the properties
    its specification states about it, and further properties the code
    has.

    Conventions of the embedding.
    - A C string is the sequence of bytes before its terminating NUL; it is a
      [string], whose end plays the terminator.  A [char *] that may be NULL
      is an [option string].
    - [int], [size_t] and [uid_t] values are [Z]; where the C type wraps
      around, the wrap-around is written out.
    - The functions of the C library the program calls ([getopt], [strtok],
      [strtoul], [isalnum], [realloc], [clearenv], [setenv]) follow their
      manual pages, in the "C" locale.
    - The allocator grants every request: [malloc], [realloc] and [strdup]
      return a block.  The branches the code takes on a NULL block are kept
      in the definitions.
    - A store outside the block [realloc] returned has no defined behaviour;
      the parser then stops in the outcome [Undefined].
    - The functions [main] calls in the rest of the repository are the
      fields of a record [Collaborators]; every property of [main] is proved
      for all of them.
    - A stream is the list of the lines written to it, and the heap is
      seen through the list of what [free] has been called on.  A read
      behind the last cell of a block has no defined behaviour either. *)

From Stdlib Require Import ZArith List String Ascii Bool Lia.
From Stdlib Require Import DecimalString DecimalPos Sorted.
From Equations Require Import Equations.
Import ListNotations.
Local Open Scope string_scope.
Local Open Scope Z_scope.

(** ** Characters and strings of the C library *)

Module CString.

Definition code (c : ascii) : Z := Z.of_N (N_of_ascii c).

Definition between (lo hi : Z) (c : ascii) : bool :=
  (lo <=? code c) && (code c <=? hi).

(** [isdigit], [isalpha], [isalnum] and [isspace] in the "C" locale, which
    is the one in force: the program never calls [setlocale]. *)
Definition isdigit (c : ascii) : bool := between 48 57 c.
Definition isupper (c : ascii) : bool := between 65 90 c.
Definition islower (c : ascii) : bool := between 97 122 c.
Definition isalpha (c : ascii) : bool := isupper c || islower c.
Definition isalnum (c : ascii) : bool := isalpha c || isdigit c.
Definition isspace (c : ascii) : bool := between 9 13 c || (code c =? 32).

Definition strlen (s : string) : Z := Z.of_nat (String.length s).

(** [strdup] and [malloc] under the allocator that grants every request. *)
Definition strdup (s : string) : option string := Some s.
Definition malloc (size : Z) : option Z := Some size.

(** [strspn(s, ":")] then advance: the bytes of [s] after its leading
    delimiters. *)
Fixpoint skip_delims (delim : ascii) (s : string) : string :=
  match s with
  | String c s' => if Ascii.eqb c delim then skip_delims delim s' else s
  | EmptyString => EmptyString
  end.

(** [strcspn] then cut: the bytes up to the next delimiter, and what
    follows that delimiter ([None] when the token ends the string). *)
Fixpoint cut_token (delim : ascii) (s : string) : string * option string :=
  match s with
  | EmptyString => (EmptyString, None)
  | String c s' =>
      if Ascii.eqb c delim then (EmptyString, Some s')
      else let (tok, rest) := cut_token delim s' in (String c tok, rest)
  end.

(** One call of [strtok] on the saved position [saved] ([None] once the
    string is used up): the token, or NULL, and the new saved position. *)
Definition strtok (delim : ascii) (saved : option string)
  : option string * option string :=
  match saved with
  | None => (None, None)
  | Some s =>
      match skip_delims delim s with
      | EmptyString => (None, None)
      | s1 => let (tok, rest) := cut_token delim s1 in (Some tok, rest)
      end
  end.

End CString.

Import CString.

(** ** The sanitization filter, [_filterString] *)

(** The character test of line 323. *)
Definition permitted (c : ascii) : bool :=
  isalnum c || Ascii.eqb c "_" || Ascii.eqb c ":" || Ascii.eqb c "."
            || Ascii.eqb c "+" || Ascii.eqb c "-".

(** The copy loop of lines 322-327.  [rptr] is the unread input, [written]
    the bytes stored so far, so that [wptr - ret] is its length; the end of
    [rptr] is the test [*rptr != 0]. *)
Fixpoint filter_loop (len : Z) (rptr : string) (written : string) : string :=
  match rptr with
  | EmptyString => written
  | String c rptr' =>
      if strlen written <? len then
        if permitted c
        then filter_loop len rptr' (written ++ String c EmptyString)
        else filter_loop len rptr' written
      else written
  end.

Definition _filterString (input : option string) : option string :=
  match input with
  | None => None
  | Some input =>
      let len := strlen input + 1 in
      match malloc len with
      | None => None
      | Some _ => Some (filter_loop len input EmptyString)
      end
  end.

(** The filter as the specification words it: keep the characters of the
    permitted set, in their order, and drop the others. *)
Definition keep_permitted (s : string) : string :=
  string_of_list_ascii (filter permitted (list_ascii_of_string s)).

(** The set [A-Za-z0-9_:.+-], character by character. *)
Definition permitted_set : string :=
  "ABCDEFGHIJKLMNOPQRSTUVWXYZabcdefghijklmnopqrstuvwxyz0123456789_:.+-".

Definition all_permitted (s : string) : Prop :=
  Forall (fun c => permitted c = true) (list_ascii_of_string s).

(** The characters of a string that fail the test of line 323, in their
    order. *)
Definition dropped (s : string) : list ascii :=
  filter (fun c => negb (permitted c)) (list_ascii_of_string s).

(** ** Outcomes and the monad of the embedding *)

(** How a call ends: it returns a value, the process exits through
    [exit(status)], or a store left its block. *)
Inductive outcome (A : Type) : Type :=
| Returned (a : A)
| Exited (status : Z)
| Undefined.
Arguments Returned {A} a.
Arguments Exited {A} status.
Arguments Undefined {A}.

(** A computation over a state [St]; [Exited] and [Undefined] end it. *)
Definition M (St A : Type) : Type := St -> outcome A * St.

Definition ret {St A} (a : A) : M St A := fun st => (Returned a, st).

Definition bind {St A B} (m : M St A) (k : A -> M St B) : M St B :=
  fun st =>
    match m st with
    | (Returned a, st') => k a st'
    | (Exited n, st') => (Exited n, st')
    | (Undefined, st') => (Undefined, st')
    end.

Definition exit {St A} (status : Z) : M St A := fun st => (Exited status, st).
Definition undefined {St A} : M St A := fun st => (Undefined, st).
Definition modify {St} (f : St -> St) : M St unit := fun st => (Returned tt, f st).
Definition when {St} (b : bool) (m : M St unit) : M St unit :=
  if b then m else ret tt.

Notation "x <- m ;; k" := (bind m (fun x => k))
  (at level 61, m at next level, right associativity).
Notation "m ;;; k" := (bind m (fun _ => k))
  (at level 61, right associativity).

(** ** The platform: sizes the C code depends on *)

Record ABI : Type := {
  sizeof_ptr : Z;   (* sizeof(char * ) *)
  ULONG_MAX : Z     (* largest unsigned long *)
}.

Definition LP64 : ABI := {| sizeof_ptr := 8; ULONG_MAX := 2 ^ 64 - 1 |}.
Definition ILP32 : ABI := {| sizeof_ptr := 4; ULONG_MAX := 2 ^ 32 - 1 |}.

(** [uid_t] is an unsigned 32-bit integer on Linux. *)
Definition UID_MODULUS : Z := 2 ^ 32.

(** ** [strtoul(nptr, NULL, 10)] *)

Module Strtoul.

Fixpoint skip_space (s : string) : string :=
  match s with
  | String c s' => if isspace c then skip_space s' else s
  | EmptyString => EmptyString
  end.

(** The sign, if one is written, and what follows it. *)
Definition sign (s : string) : bool * string :=
  match s with
  | String "-" s' => (true, s')
  | String "+" s' => (false, s')
  | _ => (false, s)
  end.

(** The value of the longest run of decimal digits at the head of [s],
    added to [acc] shifted; 0 digits leave [acc]. *)
Fixpoint digits (s : string) (acc : Z) : Z :=
  match s with
  | String c s' => if isdigit c then digits s' (acc * 10 + (code c - 48)) else acc
  | EmptyString => acc
  end.

(** White space, an optional sign, digits.  A value above [ULONG_MAX]
    is reported as [ULONG_MAX]; a minus sign negates in unsigned
    arithmetic; no digit at all gives 0. *)
Definition strtoul (abi : ABI) (nptr : string) : Z :=
  let (negative, body) := sign (skip_space nptr) in
  let v := digits body 0 in
  if ULONG_MAX abi <? v then ULONG_MAX abi
  else if negative then (- v) mod (ULONG_MAX abi + 1)
  else v.

End Strtoul.

(** An argument that carries no number: once leading white space and an
    optional sign are passed, its first character is not a decimal digit. *)
Definition number_free (u : string) : Prop :=
  match snd (Strtoul.sign (Strtoul.skip_space u)) with
  | String c _ => isdigit c = false
  | EmptyString => True
  end.

(** The assignment [config->uid = strtoul(optarg, NULL, 10)] converts the
    unsigned long to [uid_t]. *)
Definition to_uid_t (v : Z) : Z := v mod UID_MODULUS.

(** ** [getopt(argc, argv, "v:s:u:U:N:V")] *)

Module Getopt.

Definition optstring : string := "v:s:u:U:N:V".

(** Where the scan stands: [nextchar] is the unread part of the option
    cluster being read, [rest] the elements of [argv] from [optind] on,
    [nonopts] the operands passed over so far.  The C library permutes
    [argv] so that the operands passed over come last, in their order:
    when the scan ends, [argv + optind] is [nonopts]. *)
Record state : Type := {
  nextchar : string;
  rest : list string;
  nonopts : list string
}.

(** What one call returns: the option character ([None] for -1),
    [optarg], what the library wrote to stderr, and the new state. *)
Record answer : Type := {
  opt : option ascii;
  optarg : option string;
  diag : list string;
  next : state
}.

(** An element is an operand unless it starts with '-' and has a second
    character. *)
Definition is_operand (a : string) : bool :=
  match a with
  | String "-" (String _ _) => false
  | _ => true
  end.

Fixpoint skip_operands (rest nonopts : list string)
  : list string * list string :=
  match rest with
  | a :: rest' =>
      if is_operand a then skip_operands rest' (nonopts ++ [a])
      else (rest, nonopts)
  | [] => ([], nonopts)
  end.

(** [strchr(optstring, c)] and the colon that may follow: [Some true]
    for an option with an argument, [Some false] for a plain one. *)
Fixpoint lookup (c : ascii) (os : string) : option bool :=
  match os with
  | EmptyString => None
  | String d os' =>
      if Ascii.eqb c d
      then Some match os' with String ":" _ => true | _ => false end
      else lookup c os'
  end.

Definition invalid_option (prog : string) (c : ascii) : string :=
  prog ++ ": invalid option -- '" ++ String c "'" ++ String "010" "".

Definition requires_argument (prog : string) (c : ascii) : string :=
  prog ++ ": option requires an argument -- '" ++ String c "'"
       ++ String "010" "".

(** The option character [c] has been read; [nc] is what is left of its
    cluster. *)
Definition short_option (prog : string) (c : ascii) (nc : string)
    (rest nonopts : list string) : answer :=
  let here := {| nextchar := nc; rest := rest; nonopts := nonopts |} in
  match (if Ascii.eqb c ":" then None else lookup c optstring) with
  | None =>
      {| opt := Some "?"%char; optarg := None;
         diag := [invalid_option prog c]; next := here |}
  | Some false =>
      {| opt := Some c; optarg := None; diag := []; next := here |}
  | Some true =>
      match nc with
      | String _ _ =>
          {| opt := Some c; optarg := Some nc; diag := [];
             next := {| nextchar := ""; rest := rest; nonopts := nonopts |} |}
      | EmptyString =>
          match rest with
          | a :: rest' =>
              {| opt := Some c; optarg := Some a; diag := [];
                 next := {| nextchar := ""; rest := rest';
                            nonopts := nonopts |} |}
          | [] =>
              {| opt := Some "?"%char; optarg := None;
                 diag := [requires_argument prog c]; next := here |}
          end
      end
  end.

Definition finished (operands : list string) : answer :=
  {| opt := None; optarg := None; diag := [];
     next := {| nextchar := ""; rest := []; nonopts := operands |} |}.

(** One call of [getopt] of the GNU C library, for an option string that
    starts with none of '+', '-' and ':'.  [posixly_correct] tells whether
    the environment defines [POSIXLY_CORRECT]: the library then stops at
    the first operand, and otherwise passes over operands to find the
    options behind them. *)
Definition getopt (posixly_correct : bool) (prog : string) (g : state)
  : answer :=
  match nextchar g with
  | String c nc => short_option prog c nc (rest g) (nonopts g)
  | EmptyString =>
      let (rest1, nonopts1) :=
        if posixly_correct then (rest g, nonopts g)
        else skip_operands (rest g) (nonopts g) in
      match rest1 with
      | [] => finished nonopts1
      | a :: rest2 =>
          if String.eqb a "--" then finished (nonopts1 ++ rest2)
          else if is_operand a then finished (nonopts1 ++ rest1)
          else
            match a with
            | String _ (String c nc) => short_option prog c nc rest2 nonopts1
            | _ => finished (nonopts1 ++ rest1)
            end
      end
  end.

(** What is left to scan: it gets shorter with every option returned. *)
Fixpoint cost (rest : list string) : nat :=
  match rest with
  | [] => O
  | a :: rest' => (S (String.length a) + cost rest')%nat
  end.

Definition weight (g : state) : nat :=
  (String.length (nextchar g) + cost (rest g))%nat.

(** [optind = 1]: the scan starts after the program name. *)
Definition start (argv : list string) : state :=
  {| nextchar := ""; rest := tl argv; nonopts := [] |}.

End Getopt.

(** ** The configuration, [SetupRootConfig] *)

(** A block of [char *] cells as [realloc] returns it: [size] bytes, which
    hold [size / sizeof(char * )] whole cells.  A cell that was never
    stored to reads as NULL here; the code never reads such a cell. *)
Record block : Type := {
  size : Z;
  cells : list (option string)
}.

Definition cell_count (abi : ABI) (bytes : Z) : nat :=
  Z.to_nat (bytes / sizeof_ptr abi).

(** [realloc(old, bytes)]: a block of [bytes] bytes that starts with the
    cells of [old] that fit. *)
Definition realloc (abi : ABI) (old : option block) (bytes : Z) : option block :=
  let n := cell_count abi bytes in
  let kept := match old with
              | Some b => firstn n (cells b)
              | None => []
              end in
  Some {| size := bytes; cells := (kept ++ repeat None (n - List.length kept))%list |}.

Fixpoint update {A} (i : nat) (v : A) (l : list A) {struct l} : list A :=
  match l, i with
  | [], _ => []
  | _ :: l', O => v :: l'
  | x :: l', S i' => x :: update i' v l'
  end.

(** The store [base[i] = v].  [None]: the cell lies outside the block, or
    there is no block. *)
Definition store (base : option block) (i : Z) (v : option string)
  : option block :=
  match base with
  | Some b =>
      if (0 <=? i) && (i <? Z.of_nat (List.length (cells b)))
      then Some {| size := size b; cells := update (Z.to_nat i) v (cells b) |}
      else None
  | None => None
  end.

Definition VOLUME_ALLOC_BLOCK : Z := 10.

(** The struct of lines 74-90.  The three [_ptr] fields point into the
    three arrays; each is kept as its distance, in cells, from the start of
    its array, which is what [volumeMapFrom_ptr - volumeMapFrom] reads. *)
Record SetupRootConfig : Type := {
  sshPubKey : option string;
  user : option string;
  imageType : option string;
  imageIdentifier : option string;
  uid : Z;
  minNodeSpec : option string;
  volumeMapFrom : option block;
  volumeMapTo : option block;
  volumeMapFlags : option block;
  volumeMap_capacity : Z;
  volumeMapFrom_ptr : Z;
  volumeMapTo_ptr : Z;
  volumeMapFlags_ptr : Z;
  verbose : Z
}.

(** [memset(&config, 0, sizeof(SetupRootConfig))]. *)
Definition zeroed : SetupRootConfig :=
  {| sshPubKey := None; user := None; imageType := None;
     imageIdentifier := None; uid := 0; minNodeSpec := None;
     volumeMapFrom := None; volumeMapTo := None; volumeMapFlags := None;
     volumeMap_capacity := 0; volumeMapFrom_ptr := 0; volumeMapTo_ptr := 0;
     volumeMapFlags_ptr := 0; verbose := 0 |}.

Definition set_sshPubKey (v : option string) (c : SetupRootConfig) :=
  {| sshPubKey := v; user := user c; imageType := imageType c;
     imageIdentifier := imageIdentifier c; uid := uid c;
     minNodeSpec := minNodeSpec c; volumeMapFrom := volumeMapFrom c;
     volumeMapTo := volumeMapTo c; volumeMapFlags := volumeMapFlags c;
     volumeMap_capacity := volumeMap_capacity c;
     volumeMapFrom_ptr := volumeMapFrom_ptr c;
     volumeMapTo_ptr := volumeMapTo_ptr c;
     volumeMapFlags_ptr := volumeMapFlags_ptr c; verbose := verbose c |}.

Definition set_user (v : option string) (c : SetupRootConfig) :=
  {| sshPubKey := sshPubKey c; user := v; imageType := imageType c;
     imageIdentifier := imageIdentifier c; uid := uid c;
     minNodeSpec := minNodeSpec c; volumeMapFrom := volumeMapFrom c;
     volumeMapTo := volumeMapTo c; volumeMapFlags := volumeMapFlags c;
     volumeMap_capacity := volumeMap_capacity c;
     volumeMapFrom_ptr := volumeMapFrom_ptr c;
     volumeMapTo_ptr := volumeMapTo_ptr c;
     volumeMapFlags_ptr := volumeMapFlags_ptr c; verbose := verbose c |}.

Definition set_image (type identifier : option string) (c : SetupRootConfig) :=
  {| sshPubKey := sshPubKey c; user := user c; imageType := type;
     imageIdentifier := identifier; uid := uid c;
     minNodeSpec := minNodeSpec c; volumeMapFrom := volumeMapFrom c;
     volumeMapTo := volumeMapTo c; volumeMapFlags := volumeMapFlags c;
     volumeMap_capacity := volumeMap_capacity c;
     volumeMapFrom_ptr := volumeMapFrom_ptr c;
     volumeMapTo_ptr := volumeMapTo_ptr c;
     volumeMapFlags_ptr := volumeMapFlags_ptr c; verbose := verbose c |}.

Definition set_uid (v : Z) (c : SetupRootConfig) :=
  {| sshPubKey := sshPubKey c; user := user c; imageType := imageType c;
     imageIdentifier := imageIdentifier c; uid := v;
     minNodeSpec := minNodeSpec c; volumeMapFrom := volumeMapFrom c;
     volumeMapTo := volumeMapTo c; volumeMapFlags := volumeMapFlags c;
     volumeMap_capacity := volumeMap_capacity c;
     volumeMapFrom_ptr := volumeMapFrom_ptr c;
     volumeMapTo_ptr := volumeMapTo_ptr c;
     volumeMapFlags_ptr := volumeMapFlags_ptr c; verbose := verbose c |}.

Definition set_minNodeSpec (v : option string) (c : SetupRootConfig) :=
  {| sshPubKey := sshPubKey c; user := user c; imageType := imageType c;
     imageIdentifier := imageIdentifier c; uid := uid c;
     minNodeSpec := v; volumeMapFrom := volumeMapFrom c;
     volumeMapTo := volumeMapTo c; volumeMapFlags := volumeMapFlags c;
     volumeMap_capacity := volumeMap_capacity c;
     volumeMapFrom_ptr := volumeMapFrom_ptr c;
     volumeMapTo_ptr := volumeMapTo_ptr c;
     volumeMapFlags_ptr := volumeMapFlags_ptr c; verbose := verbose c |}.

Definition set_verbose (v : Z) (c : SetupRootConfig) :=
  {| sshPubKey := sshPubKey c; user := user c; imageType := imageType c;
     imageIdentifier := imageIdentifier c; uid := uid c;
     minNodeSpec := minNodeSpec c; volumeMapFrom := volumeMapFrom c;
     volumeMapTo := volumeMapTo c; volumeMapFlags := volumeMapFlags c;
     volumeMap_capacity := volumeMap_capacity c;
     volumeMapFrom_ptr := volumeMapFrom_ptr c;
     volumeMapTo_ptr := volumeMapTo_ptr c;
     volumeMapFlags_ptr := volumeMapFlags_ptr c; verbose := v |}.

(** The three arrays and the three pointers into them. *)
Definition set_arrays (from to flags : option block) (c : SetupRootConfig) :=
  {| sshPubKey := sshPubKey c; user := user c; imageType := imageType c;
     imageIdentifier := imageIdentifier c; uid := uid c;
     minNodeSpec := minNodeSpec c; volumeMapFrom := from;
     volumeMapTo := to; volumeMapFlags := flags;
     volumeMap_capacity := volumeMap_capacity c;
     volumeMapFrom_ptr := volumeMapFrom_ptr c;
     volumeMapTo_ptr := volumeMapTo_ptr c;
     volumeMapFlags_ptr := volumeMapFlags_ptr c; verbose := verbose c |}.

Definition set_ptrs (from to flags : Z) (c : SetupRootConfig) :=
  {| sshPubKey := sshPubKey c; user := user c; imageType := imageType c;
     imageIdentifier := imageIdentifier c; uid := uid c;
     minNodeSpec := minNodeSpec c; volumeMapFrom := volumeMapFrom c;
     volumeMapTo := volumeMapTo c; volumeMapFlags := volumeMapFlags c;
     volumeMap_capacity := volumeMap_capacity c;
     volumeMapFrom_ptr := from;
     volumeMapTo_ptr := to;
     volumeMapFlags_ptr := flags; verbose := verbose c |}.

(** What a reader of the three arrays finds: it walks them together and
    stops at the first NULL in [volumeMapFrom] or [volumeMapTo], as the
    loop of line 297 does. *)
Fixpoint walk (from to flags : list (option string))
  : list (string * string * option string) :=
  match from, to, flags with
  | Some f :: from', Some t :: to', fl :: flags' =>
      (f, t, fl) :: walk from' to' flags'
  | _, _, _ => []
  end.

Definition cells_of (base : option block) : list (option string) :=
  match base with
  | Some b => cells b
  | None => []
  end.

Definition volumeMap (c : SetupRootConfig)
  : list (string * string * option string) :=
  walk (cells_of (volumeMapFrom c)) (cells_of (volumeMapTo c))
       (cells_of (volumeMapFlags c)).

(** ** The environment *)

Definition environ : Type := list (string * string).

Definition clearenv (env : environ) : environ := [].

Fixpoint defines (name : string) (env : environ) : bool :=
  match env with
  | [] => false
  | (n, _) :: env' => String.eqb n name || defines name env'
  end.

Fixpoint replace (name value : string) (env : environ) : environ :=
  match env with
  | [] => []
  | (n, v) :: env' =>
      if String.eqb n name then (n, value) :: env'
      else (n, v) :: replace name value env'
  end.

Definition setenv (name value : string) (overwrite : Z) (env : environ)
  : environ :=
  if defines name env
  then if overwrite =? 0 then env else replace name value env
  else (env ++ [(name, value)])%list.

Definition TRUSTED_PATH : string := "/usr/bin:/usr/sbin:/bin:/sbin".

(** ** The parser, [parse_SetupRootConfig] *)

(** The parser runs over what has been written to stderr. *)
Definition E (A : Type) : Type := M (list string) A.

Definition fprintf_stderr (msg : string) : E unit :=
  modify (fun written => (written ++ [msg])%list).

(** Lines 164-166: [_usage] prints nothing and ends the process. *)
Definition _usage {St A} (exitStatus : Z) : M St A := exit exitStatus.

Definition newline : string := String "010" "".

Definition msg_volume_format : string :=
  "ERROR: invalid format for volume map!".
Definition msg_volume_memory : string :=
  "ERROR: unable to allocate memory for volume map!" ++ newline.
Definition msg_missing_argument : string :=
  "Missing an argument!" ++ newline.
Definition msg_positional : string :=
  "Must specify image type and image identifier" ++ newline.

Definition is_null {A} (p : option A) : bool :=
  match p with
  | None => true
  | Some _ => false
  end.

(** A store through one of the three pointers. *)
Definition store_cell (base : option block) (i : Z) (v : option string)
  : E (option block) :=
  match store base i v with
  | Some b => ret (Some b)
  | None => undefined
  end.

(** Lines 187-201: the arrays are given new blocks when there is none yet
    or when [cnt + 2] reaches [volumeMap_capacity]. *)
Definition grow (abi : ABI) (cnt : Z) (config : SetupRootConfig)
  : E SetupRootConfig :=
  if is_null (volumeMapFrom config) || (volumeMap_capacity config <=? cnt + 2)
  then
    let bytes := volumeMap_capacity config + VOLUME_ALLOC_BLOCK in
    match realloc abi (volumeMapFrom config) bytes,
          realloc abi (volumeMapTo config) bytes,
          realloc abi (volumeMapFlags config) bytes with
    | Some fromPtr, Some toPtr, Some flagsPtr =>
        ret (set_ptrs cnt cnt cnt
               (set_arrays (Some fromPtr) (Some toPtr) (Some flagsPtr) config))
    | _, _, _ => fprintf_stderr msg_volume_memory ;;; _usage 1
    end
  else ret config.

(** Lines 175-211, the case 'v'. *)
Definition case_v (abi : ABI) (optarg : option string)
    (config : SetupRootConfig) : E SetupRootConfig :=
  let (from, saved1) := strtok ":" optarg in
  let (to, saved2) := strtok ":" saved1 in
  let (flags, _) := strtok ":" saved2 in
  let cnt := volumeMapFrom_ptr config in
  match from, to with
  | Some from, Some to =>
      config <- grow abi cnt config ;;
      f <- store_cell (volumeMapFrom config) (volumeMapFrom_ptr config)
             (strdup from) ;;
      t <- store_cell (volumeMapTo config) (volumeMapTo_ptr config)
             (strdup to) ;;
      fl <- store_cell (volumeMapFlags config) (volumeMapFlags_ptr config)
              match flags with
              | Some flags => strdup flags
              | None => None
              end ;;
      let from_ptr := volumeMapFrom_ptr config + 1 in
      let to_ptr := volumeMapTo_ptr config + 1 in
      let flags_ptr := volumeMapFlags_ptr config + 1 in
      f <- store_cell f from_ptr None ;;
      t <- store_cell t to_ptr None ;;
      fl <- store_cell fl flags_ptr None ;;
      ret (set_ptrs from_ptr to_ptr flags_ptr (set_arrays f t fl config))
  | _, _ => fprintf_stderr msg_volume_format ;;; _usage 1
  end.

(** An option that carries its argument: [getopt] always hands one over;
    a NULL [optarg] would be read through. *)
Definition with_optarg {A} (optarg : option string) (k : string -> E A) : E A :=
  match optarg with
  | Some a => k a
  | None => undefined
  end.

(** Lines 173-232, the [switch] on what [getopt] returned. *)
Definition switch (abi : ABI) (opt : ascii) (optarg : option string)
    (config : SetupRootConfig) : E SetupRootConfig :=
  match opt with
  | "V"%char => ret (set_verbose 1 config)
  | "v"%char => case_v abi optarg config
  | "s"%char => with_optarg optarg (fun a => ret (set_sshPubKey (strdup a) config))
  | "u"%char => with_optarg optarg (fun a => ret (set_user (strdup a) config))
  | "U"%char =>
      with_optarg optarg
        (fun a => ret (set_uid (to_uid_t (Strtoul.strtoul abi a)) config))
  | "N"%char => with_optarg optarg (fun a => ret (set_minNodeSpec (strdup a) config))
  | "?"%char => fprintf_stderr msg_missing_argument ;;; _usage 1
  | _ => ret config
  end.

Definition inspect {A} (a : A) : {b : A | a = b} := exist _ a eq_refl.

(** Lines 172-233, the [while] loop: [getopt] is called until it returns
    -1; the loop hands over the configuration and where the scan ended. *)
Equations? scan (abi : ABI) (posix : bool) (prog : string) (g : Getopt.state)
    (config : SetupRootConfig) (written : list string)
  : outcome (SetupRootConfig * Getopt.state) * list string
  by wf (Getopt.weight g) lt :=
  scan abi posix prog g config written
    with inspect (Getopt.opt (Getopt.getopt posix prog g)) := {
    | exist _ None _ =>
        (Returned (config, Getopt.next (Getopt.getopt posix prog g)),
         (written ++ Getopt.diag (Getopt.getopt posix prog g))%list)
    | exist _ (Some c) Hc
        with switch abi c (Getopt.optarg (Getopt.getopt posix prog g)) config
               (written ++ Getopt.diag (Getopt.getopt posix prog g))%list := {
        | (Returned config', written') =>
            scan abi posix prog (Getopt.next (Getopt.getopt posix prog g))
                 config' written'
        | (Exited n, written') => (Exited n, written')
        | (Undefined, written') => (Undefined, written') } }.
Proof.
  assert (Hskip : forall rest nonopts,
             (Getopt.cost (fst (Getopt.skip_operands rest nonopts))
              <= Getopt.cost rest)%nat).
  { induction rest as [|a rest IH]; intros nonopts; [simpl; lia|].
    cbn [Getopt.skip_operands].
    destruct (Getopt.is_operand a).
    - specialize (IH (nonopts ++ [a])%list). cbn [Getopt.cost]. lia.
    - cbn [fst]. lia. }
  assert (Hshort : forall c nc rest nonopts,
             (Getopt.weight
                (Getopt.next (Getopt.short_option prog c nc rest nonopts))
              <= String.length nc + Getopt.cost rest)%nat).
  { intros c0 nc rest nonopts. unfold Getopt.short_option.
    destruct (if Ascii.eqb c0 ":" then None
              else Getopt.lookup c0 Getopt.optstring) as [[|]|];
      [destruct nc; [destruct rest|]|..];
      unfold Getopt.weight; simpl; lia. }
  revert Hc. unfold Getopt.getopt.
  destruct g as [nc rest nonopts]; simpl.
  destruct nc as [|c0 nc].
  - assert (Hs : (Getopt.cost
                    (fst (if posix then (rest, nonopts)
                          else Getopt.skip_operands rest nonopts))
                  <= Getopt.cost rest)%nat)
      by (destruct posix; [simpl; lia|apply Hskip]).
    destruct (if posix then (rest, nonopts)
              else Getopt.skip_operands rest nonopts) as [rest1 nonopts1].
    simpl in Hs.
    destruct rest1 as [|a rest2]; [discriminate|].
    destruct (String.eqb a "--"); [discriminate|].
    destruct (Getopt.is_operand a); [discriminate|].
    destruct a as [|c1 [|c2 a]]; try discriminate.
    intros _. pose proof (Hshort c2 a rest2 nonopts1).
    unfold Getopt.weight at 2; simpl in *. lia.
  - intros _. pose proof (Hshort c0 nc rest nonopts).
    unfold Getopt.weight at 2; simpl. lia.
Qed.

(** Lines 168-243.  [argv[0]] is the program name; when the loop ends,
    [argc - optind] operands are left, [argv[optind]] the first of them.
    [env] is the environment of the process, which [getopt] looks into. *)
Definition parse_SetupRootConfig (abi : ABI) (env : environ)
    (argv : list string) (config : SetupRootConfig)
  : E (Z * SetupRootConfig) :=
  r <- scan abi (defines "POSIXLY_CORRECT" env) (hd "" argv)
         (Getopt.start argv) config ;;
  let (config, g) := r in
  let operands := Getopt.nonopts g in
  let remaining := Z.of_nat (List.length operands) in
  when (negb (remaining =? 2))
       (fprintf_stderr msg_positional ;;; _usage 1) ;;;
  ret (0, set_image (_filterString (nth_error operands 0))
                    (_filterString (nth_error operands 1)) config).

(** ** The pipeline, [main] *)

(** The calls [main] makes into the rest of the repository. *)
Inductive Stage : Type :=
| LoadSiteConfig     (* parse_UdiRootConfig *)
| ResolveImage       (* getImage, that is parse_ImageData *)
| LoopAttach         (* mountImageLoop *)
| MountVFS           (* mountImageVFS *)
| SshSetup           (* setupImageSsh *)
| SshdStart          (* startSshd *)
| ApplyUserMounts.   (* setupUserMounts *)

Definition Stage_eqb (a b : Stage) : bool :=
  match a, b with
  | LoadSiteConfig, LoadSiteConfig | ResolveImage, ResolveImage
  | LoopAttach, LoopAttach | MountVFS, MountVFS | SshSetup, SshSetup
  | SshdStart, SshdStart | ApplyUserMounts, ApplyUserMounts => true
  | _, _ => false
  end.

Section Pipeline.

(** [Sys] is all the state [main] does not look into: the site
    configuration [udiConfig], the image description [image] and the
    machine the collaborators act on.  Their declarations are in headers
    outside this file. *)
Variable Sys : Type.

(** The functions of [ImageData.h], [UdiRootConfig.h], [shifter_core.h]
    and [config.h] that [main] uses, each with the arguments [main]
    passes besides [&image] and [&udiConfig], which are part of [Sys].
    A collaborator reads the environment of the process and returns its
    [int]. *)
Record Collaborators : Type := {
  UDIROOT_CONFIG_FILE : string;
  useLoopMount : Sys -> Z;     (* reads image.useLoopMount *)
  parse_UdiRootConfig : environ -> string -> Z -> Sys -> Z * Sys;
  parse_ImageData : environ -> option string -> Sys -> Z * Sys;
  mountImageLoop : environ -> Sys -> Z * Sys;
  mountImageVFS : environ -> option string -> option string -> Sys -> Z * Sys;
  setupImageSsh :
    environ -> option string -> option string -> Z -> Sys -> Z * Sys;
  startSshd : environ -> Sys -> Z * Sys;
  setupUserMounts :
    environ -> option block -> option block -> option block -> Sys -> Z * Sys
}.

Variable P : Collaborators.

(** One call into a collaborator, as the log keeps it: which one, the
    [int] it returned, the environment it ran in and the state it left. *)
Record call : Type := {
  stage : Stage;
  status : Z;
  env_at : environ;
  after : Sys
}.

(** What the verbose path prints; the text is not rendered. *)
Inductive dump : Type :=
| Printed_SetupRootConfig (config : SetupRootConfig)
| Printed_UdiRootConfig (s : Sys)
| Printed_ImageData (s : Sys).

(** The process. *)
Record Proc : Type := {
  environment : environ;
  stderr : list string;
  stdout : list dump;
  trace : list call;
  sys : Sys
}.

Definition Main (A : Type) : Type := M Proc A.

Definition change_env (f : environ -> environ) : Main unit :=
  modify (fun p => {| environment := f (environment p); stderr := stderr p;
                      stdout := stdout p; trace := trace p; sys := sys p |}).

Definition eprint (msg : string) : Main unit :=
  modify (fun p => {| environment := environment p;
                      stderr := (stderr p ++ [msg])%list;
                      stdout := stdout p; trace := trace p; sys := sys p |}).

Definition print (d : Sys -> dump) : Main unit :=
  modify (fun p => {| environment := environment p; stderr := stderr p;
                      stdout := (stdout p ++ [d (sys p)])%list;
                      trace := trace p; sys := sys p |}).

(** A computation of the parser, run on the stderr of the process. *)
Definition on_stderr {A} (m : E A) : Main A :=
  fun p =>
    let (o, written) := m (stderr p) in
    (o, {| environment := environment p; stderr := written;
           stdout := stdout p; trace := trace p; sys := sys p |}).

(** A call into a collaborator; the log grows by one entry. *)
Definition invoke (s : Stage) (f : environ -> Sys -> Z * Sys) : Main Z :=
  fun p =>
    let (r, sys') := f (environment p) (sys p) in
    (Returned r,
     {| environment := environment p; stderr := stderr p;
        stdout := stdout p;
        trace := (trace p ++ [{| stage := s; status := r;
                                 env_at := environment p;
                                 after := sys' |}])%list;
        sys := sys' |}).

(** The environment of the process, as the C library finds it. *)
Definition getenv : Main environ :=
  fun p => (Returned (environment p), p).

Definition read {A} (f : Sys -> A) : Main A :=
  fun p => (Returned (f (sys p)), p).

(** Lines 304-307. *)
Definition getImage (config : SetupRootConfig) : Main Z :=
  invoke ResolveImage
    (fun env => parse_ImageData P env (imageIdentifier config)).

(** [%s] of a pointer that may be NULL. *)
Definition shown (p : option string) : string :=
  match p with
  | Some s => s
  | None => "(null)"
  end.

Definition msg_parse : string :=
  "FAILED to parse command line arguments. Exiting." ++ newline.
Definition msg_site_config : string :=
  "FAILED to parse udiRoot configuration. Exiting." ++ newline.
Definition msg_image (config : SetupRootConfig) : string :=
  "FAILED to get image " ++ shown (imageIdentifier config) ++ " of type "
    ++ shown (imageType config) ++ newline.
Definition msg_loop : string :=
  "FAILED to mount image on loop device." ++ newline.
Definition msg_vfs : string := "FAILED to mount image into UDI" ++ newline.
Definition msg_ssh : string := "FAILED to setup ssh configuration" ++ newline.
Definition msg_sshd : string := "FAILED to start sshd" ++ newline.
Definition msg_user_mounts : string :=
  "FAILED to setup user-requested mounts." ++ newline.

Definition nonzero (v : Z) : bool := negb (v =? 0).

Definition present (p : option string) : bool :=
  match p with
  | Some s => 0 <? strlen s
  | None => false
  end.

(** The test of lines 143-145. *)
Definition ssh_requested (config : SetupRootConfig) : bool :=
  present (sshPubKey config) && present (user config)
  && nonzero (uid config).

(** Lines 99-162. *)
Definition main (abi : ABI) (argv : list string) : Main Z :=
  change_env clearenv ;;;
  change_env (setenv "PATH" TRUSTED_PATH 1) ;;;
  env <- getenv ;;
  r <- on_stderr (parse_SetupRootConfig abi env argv zeroed) ;;
  let (rc, config) := r in
  when (nonzero rc) (eprint msg_parse ;;; _usage 1) ;;;
  rc <- invoke LoadSiteConfig
          (fun env => parse_UdiRootConfig P env (UDIROOT_CONFIG_FILE P) 0) ;;
  when (nonzero rc) (eprint msg_site_config ;;; exit 1) ;;;
  when (nonzero (verbose config))
       (print (fun _ => Printed_SetupRootConfig config) ;;;
        print Printed_UdiRootConfig) ;;;
  rc <- getImage config ;;
  when (nonzero rc) (eprint (msg_image config) ;;; exit 1) ;;;
  when (nonzero (verbose config)) (print Printed_ImageData) ;;;
  loop <- read (useLoopMount P) ;;
  when (nonzero loop)
       (rc <- invoke LoopAttach (mountImageLoop P) ;;
        when (nonzero rc) (eprint msg_loop ;;; exit 1)) ;;;
  rc <- invoke MountVFS
          (fun env => mountImageVFS P env (user config) (minNodeSpec config)) ;;
  when (nonzero rc) (eprint msg_vfs ;;; exit 1) ;;;
  when (ssh_requested config)
       (rc <- invoke SshSetup
                (fun env => setupImageSsh P env (sshPubKey config)
                              (user config) (uid config)) ;;
        when (nonzero rc) (eprint msg_ssh ;;; exit 1) ;;;
        rc <- invoke SshdStart (startSshd P) ;;
        when (nonzero rc) (eprint msg_sshd ;;; exit 1)) ;;;
  rc <- invoke ApplyUserMounts
          (fun env => setupUserMounts P env (volumeMapFrom config)
                        (volumeMapTo config) (volumeMapFlags config)) ;;
  when (nonzero rc) (eprint msg_user_mounts ;;; exit 1) ;;;
  ret 0.

(** The process as it starts: nothing written, no call made. *)
Definition boot (env : environ) (s : Sys) : Proc :=
  {| environment := env; stderr := []; stdout := []; trace := []; sys := s |}.

(** A run of the program: how it ended and the process it left. *)
Definition run (abi : ABI) (argv : list string) (env : environ) (s : Sys)
  : outcome Z * Proc :=
  main abi argv (boot env s).

(** The exit status of the process: the argument of [exit], or what
    [main] returned. *)
Definition exit_status (o : outcome Z) : option Z :=
  match o with
  | Returned n => Some n
  | Exited n => Some n
  | Undefined => None
  end.

Definition invoked (s : Stage) (t : list call) : Prop :=
  exists c, In c t /\ stage c = s.

Definition completed (s : Stage) (t : list call) : Prop :=
  exists c, In c t /\ stage c = s /\ status c = 0.

End Pipeline.

(** The environment [main] installs. *)
Definition trusted_env : environ := [("PATH", TRUSTED_PATH)].

(** The line [main] writes when a collaborator returns non-zero. *)
Definition diagnostic_of (s : Stage) (config : SetupRootConfig) : string :=
  match s with
  | LoadSiteConfig => msg_site_config
  | ResolveImage => msg_image config
  | LoopAttach => msg_loop
  | MountVFS => msg_vfs
  | SshSetup => msg_ssh
  | SshdStart => msg_sshd
  | ApplyUserMounts => msg_user_mounts
  end.

(** The lines the parser writes before it ends the process. *)
Definition parse_diagnostics : list string :=
  [msg_volume_format; msg_missing_argument; msg_positional].

(** The condition on SSH as the specification words it: key and user
    present and not empty, uid not zero. *)
Definition ssh_wanted (config : SetupRootConfig) : Prop :=
  (exists key, sshPubKey config = Some key /\ key <> "")
  /\ (exists name, user config = Some name /\ name <> "")
  /\ uid config <> 0.

(** ** A scripted machine

    For running the program on concrete inputs: the collaborators answer
    what a script tells them, and the machine keeps the list of what was
    done to it. *)

Record Machine : Type := {
  image_useLoopMount : Z;
  done : list Stage
}.

Definition pristine : Machine := {| image_useLoopMount := 0; done := [] |}.

Definition act (s : Stage) (answer : Z) (m : Machine) : Z * Machine :=
  (answer, {| image_useLoopMount := image_useLoopMount m;
              done := (done m ++ [s])%list |}).

Definition scripted (answers : Stage -> Z) (loop : Z) : Collaborators Machine :=
  {| UDIROOT_CONFIG_FILE := "/etc/shifter/udiRoot.conf";
     useLoopMount := image_useLoopMount;
     parse_UdiRootConfig := fun _ _ _ => act LoadSiteConfig (answers LoadSiteConfig);
     parse_ImageData := fun _ _ m =>
       (answers ResolveImage,
        {| image_useLoopMount := loop;
           done := (done m ++ [ResolveImage])%list |});
     mountImageLoop := fun _ => act LoopAttach (answers LoopAttach);
     mountImageVFS := fun _ _ _ => act MountVFS (answers MountVFS);
     setupImageSsh := fun _ _ _ _ => act SshSetup (answers SshSetup);
     startSshd := fun _ => act SshdStart (answers SshdStart);
     setupUserMounts := fun _ _ _ _ => act ApplyUserMounts (answers ApplyUserMounts) |}.

(** Every collaborator succeeds. *)
Definition all_fine : Stage -> Z := fun _ => 0.

(** Every collaborator succeeds but [s], which returns [code]. *)
Definition failing (s : Stage) (code : Z) : Stage -> Z :=
  fun s' => if Stage_eqb s s' then code else 0.

(** A command line that asks for SSH, and what the parser makes of it. *)
Definition ssh_argv : list string :=
  ["setupRoot"; "-s"; "ssh-rsa AAAA"; "-u"; "alice"; "-U"; "1000";
   "docker"; "busybox:latest"].

Definition ssh_config : SetupRootConfig :=
  set_image (Some "docker") (Some "busybox:latest")
    (set_uid 1000 (set_user (Some "alice")
                     (set_sshPubKey (Some "ssh-rsa AAAA") zeroed))).

(** ** Volume maps, as the specification words them *)

(** The fields of a string between delimiters, empty ones included. *)
Fixpoint fields (delim : ascii) (s : string) : list string :=
  match s with
  | EmptyString => [EmptyString]
  | String c s' =>
      if Ascii.eqb c delim then EmptyString :: fields delim s'
      else match fields delim s' with
           | f :: fs => String c f :: fs
           | [] => [String c EmptyString]
           end
  end.

(** [strtok] never hands over an empty token. *)
Definition nonempty (s : string) : bool :=
  match s with
  | EmptyString => false
  | String _ _ => true
  end.

(** The non-empty fields: what successive calls of [strtok] return. *)
Definition tokens (delim : ascii) (s : string) : list string :=
  filter nonempty (fields delim s).

(** The components of the argument of [-v]. *)
Definition components (s : string) : list string := tokens ":" s.

(** An entry of the volume map: from, to, flags. *)
Abbreviation entry := (string * string * option string)%type.

Definition colon_free (s : string) : Prop :=
  ~ In ":"%char (list_ascii_of_string s).

(** A component: not empty, without a colon. *)
Definition word (s : string) : Prop := s <> "" /\ colon_free s.

Definition well_formed (e : entry) : Prop :=
  let '(from, to, flags) := e in
  word from /\ word to
  /\ match flags with
     | Some fl => word fl
     | None => True
     end.

(** The argument [from:to[:flags]] of an entry. *)
Definition render (e : entry) : string :=
  let '(from, to, flags) := e in
  from ++ ":" ++ to ++ match flags with
                       | Some fl => ":" ++ fl
                       | None => ""
                       end.

(** One [-v] option per entry. *)
Definition volume_args (entries : list entry) : list string :=
  flat_map (fun e => ["-v"; render e]) entries.

(** The command line with one [-v] per entry. *)
Definition volume_argv (prog : string) (entries : list entry)
    (type identifier : string) : list string :=
  prog :: (volume_args entries ++ [type; identifier])%list.

(** What a saved position of [strtok] still holds. *)
Definition text (saved : option string) : string :=
  match saved with
  | Some s => s
  | None => ""
  end.

(** ** The arrays as the option loop keeps them *)

(** The number of cells in the block each [realloc] of line 188 returns. *)
Definition cap (abi : ABI) : nat := cell_count abi VOLUME_ALLOC_BLOCK.

(** An array that holds [vals], a terminating NULL and what is left of the
    block. *)
Definition filled (abi : ABI) (vals : list (option string))
    (base : option block) : Prop :=
  exists pad,
    base = Some {| size := VOLUME_ALLOC_BLOCK;
                   cells := (vals ++ None :: pad)%list |}
    /\ List.length (vals ++ None :: pad)%list = cap abi.

(** The configuration after the entries [entries] have been stored. *)
Definition holds (abi : ABI) (entries : list entry)
    (config : SetupRootConfig) : Prop :=
  volumeMap_capacity config = 0
  /\ volumeMapFrom_ptr config = Z.of_nat (List.length entries)
  /\ volumeMapTo_ptr config = Z.of_nat (List.length entries)
  /\ volumeMapFlags_ptr config = Z.of_nat (List.length entries)
  /\ (entries = [] ->
      volumeMapFrom config = None /\ volumeMapTo config = None
      /\ volumeMapFlags config = None)
  /\ (entries <> [] ->
      filled abi (map (fun e => Some (fst (fst e))) entries)
        (volumeMapFrom config)
      /\ filled abi (map (fun e => Some (snd (fst e))) entries)
           (volumeMapTo config)
      /\ filled abi (map snd entries) (volumeMapFlags config)).

(** A cell never holds an empty string: it is NULL or a token. *)
Definition no_empty_string (cell : option string) : Prop := cell <> Some "".

(** The invariant of the option loop on the arrays [volumeMapFrom] and
    [volumeMapTo]. *)
Definition sound (config : SetupRootConfig) : Prop :=
  Forall no_empty_string (cells_of (volumeMapFrom config))
  /\ Forall no_empty_string (cells_of (volumeMapTo config)).

(** The invariant of the option loop on the three arrays and the three
    pointers: they hold some list of well-formed entries. *)
Definition kept (abi : ABI) (config : SetupRootConfig) : Prop :=
  exists entries, holds abi entries config /\ Forall well_formed entries.

(** The invariant of the option loop on the two numbers of the struct. *)
Definition in_range (config : SetupRootConfig) : Prop :=
  0 <= uid config < UID_MODULUS /\ (verbose config = 0 \/ verbose config = 1).

(** ** The dump, [fprint_SetupRootConfig] *)

(** A stream, as the lines written to it. *)
Definition Out (A : Type) : Type := M (list string) A.

Definition fprintf (line : string) : Out unit :=
  modify (fun written => (written ++ [line])%list).

(** [FILE *]: the streams of the process. *)
Inductive FILE : Type :=
| STDOUT
| STDERR.

(** A number as [%d] and [%lu] write it. *)
Definition decimal (v : Z) : string := NilZero.string_of_int (Z.to_int v).

(** [%d] reads the 32 bits of a [uid_t] as an [int]; [%lu] reads a
    difference of pointers as an unsigned long. *)
Definition as_int (v : Z) : Z := if v <? 2 ^ 31 then v else v - 2 ^ 32.
Definition as_unsigned_long (abi : ABI) (v : Z) : Z := v mod (ULONG_MAX abi + 1).

(** [(p ? p : "")]. *)
Definition or_empty (p : option string) : string :=
  match p with
  | Some s => s
  | None => ""
  end.

(** The line of line 298. *)
Definition map_line (from to : string) (flags : option string) : string :=
  "    FROM: " ++ from ++ ", TO: " ++ to ++ ", FLAGS: "
    ++ match flags with
       | Some fl => fl
       | None => "NONE"
       end ++ newline.

(** The loop of lines 297-299 on what is left of the three arrays.  A
    read behind the last cell of a block, or through a NULL array, has no
    defined behaviour. *)
Fixpoint print_maps (from to flags : list (option string)) : Out unit :=
  match from with
  | [] => undefined
  | None :: _ => ret tt
  | Some f :: from' =>
      match to with
      | [] => undefined
      | None :: _ => ret tt
      | Some t :: to' =>
          match flags with
          | [] => undefined
          | fl :: flags' =>
              fprintf (map_line f t fl) ;;; print_maps from' to' flags'
          end
      end
  end.

(** Lines 283-302; the state is what [fp] has received. *)
Definition fprint_SetupRootConfig (abi : ABI) (fp : option FILE)
    (config : option SetupRootConfig) : Out unit :=
  match config, fp with
  | Some config, Some _ =>
      fprintf ("***** SetupRootConfig *****" ++ newline) ;;;
      fprintf ("imageType: " ++ or_empty (imageType config) ++ newline) ;;;
      fprintf ("imageIdentifier: " ++ or_empty (imageIdentifier config)
                 ++ newline) ;;;
      fprintf ("sshPubKey: " ++ or_empty (sshPubKey config) ++ newline) ;;;
      fprintf ("user: " ++ or_empty (user config) ++ newline) ;;;
      fprintf ("uid: " ++ decimal (as_int (uid config)) ++ newline) ;;;
      fprintf ("minNodeSpec: " ++ or_empty (minNodeSpec config) ++ newline) ;;;
      fprintf ("volumeMap: "
                 ++ decimal (as_unsigned_long abi (volumeMapFrom_ptr config))
                 ++ " maps" ++ newline) ;;;
      when (negb (is_null (volumeMapFrom config)))
           (print_maps (cells_of (volumeMapFrom config))
              (cells_of (volumeMapTo config))
              (cells_of (volumeMapFlags config))) ;;;
      fprintf ("***** END SetupRootConfig *****" ++ newline)
  | _, _ => ret tt
  end.

(** The lines of the dump before and after the volume map. *)
Definition dump_head (config : SetupRootConfig) : list string :=
  ["***** SetupRootConfig *****" ++ newline;
   "imageType: " ++ or_empty (imageType config) ++ newline;
   "imageIdentifier: " ++ or_empty (imageIdentifier config) ++ newline;
   "sshPubKey: " ++ or_empty (sshPubKey config) ++ newline;
   "user: " ++ or_empty (user config) ++ newline;
   "uid: " ++ decimal (as_int (uid config)) ++ newline;
   "minNodeSpec: " ++ or_empty (minNodeSpec config) ++ newline].

Definition dump_foot : string := "***** END SetupRootConfig *****" ++ newline.

(** The line of an entry of the volume map. *)
Definition entry_line (e : entry) : string :=
  map_line (fst (fst e)) (snd (fst e)) (snd e).

(** ** The release, [free_SetupRootConfig] *)

(** What [free] is called on: a string, one of the three arrays, the
    struct itself. *)
Inductive freed : Type :=
| Freed_string (s : string)
| Freed_array (b : block)
| Freed_config.

(** The calls of [free], in their order. *)
Definition Heap (A : Type) : Type := M (list freed) A.

Definition free (x : freed) : Heap unit :=
  modify (fun released => (released ++ [x])%list).

(** [if (p != NULL) free(p)]. *)
Definition free_string (p : option string) : Heap unit :=
  match p with
  | Some s => free (Freed_string s)
  | None => ret tt
  end.

(** The loops of lines 262-270 on what is left of an array: they stop at
    the first NULL cell; a read behind the last cell of the block has no
    defined behaviour. *)
Fixpoint free_cells (cells : list (option string)) : Heap unit :=
  match cells with
  | [] => undefined
  | None :: _ => ret tt
  | Some s :: cells' => free (Freed_string s) ;;; free_cells cells'
  end.

(** [for (volPtr = base; volPtr && *volPtr; volPtr++)]. *)
Definition free_elements (base : option block) : Heap unit :=
  match base with
  | Some b => free_cells (cells b)
  | None => ret tt
  end.

Definition free_array (base : option block) : Heap unit :=
  match base with
  | Some b => free (Freed_array b)
  | None => ret tt
  end.

(** Lines 245-281. *)
Definition free_SetupRootConfig (config : SetupRootConfig) : Heap unit :=
  free_string (sshPubKey config) ;;;
  free_string (user config) ;;;
  free_string (imageType config) ;;;
  free_string (imageIdentifier config) ;;;
  free_string (minNodeSpec config) ;;;
  free_elements (volumeMapFrom config) ;;;
  free_elements (volumeMapTo config) ;;;
  free_elements (volumeMapFlags config) ;;;
  free_array (volumeMapFrom config) ;;;
  free_array (volumeMapTo config) ;;;
  free_array (volumeMapFlags config) ;;;
  free Freed_config.

Definition strings_of (p : option string) : list string :=
  match p with
  | Some s => [s]
  | None => []
  end.

(** The strings among the five plain fields, in the order of lines
    247-261. *)
Definition field_strings (config : SetupRootConfig) : list string :=
  flat_map strings_of
    [sshPubKey config; user config; imageType config; imageIdentifier config;
     minNodeSpec config].

(** The flags of the entries before the first one that has none. *)
Fixpoint leading_flags (entries : list entry) : list string :=
  match entries with
  | (_, _, Some fl) :: entries' => fl :: leading_flags entries'
  | _ => []
  end.

(** The flags of all the entries that have some. *)
Definition all_flags (entries : list entry) : list string :=
  flat_map (fun e : entry => match snd e with
                             | Some fl => [fl]
                             | None => []
                             end) entries.

Definition arrays_of (config : SetupRootConfig) : list block :=
  flat_map (fun b : option block => match b with
                                    | Some b => [b]
                                    | None => []
                                    end)
    [volumeMapFrom config; volumeMapTo config; volumeMapFlags config].

(** An array that holds [vals] and then a NULL, in a block of any size. *)
Definition terminated (vals : list (option string)) (base : option block)
  : Prop :=
  exists bytes pad,
    base = Some {| size := bytes; cells := (vals ++ None :: pad)%list |}.

(** A configuration whose three arrays list the entries [entries], each
    array ending with a NULL; without an entry the arrays may be NULL
    themselves.  These are the configurations [free_SetupRootConfig] is
    written for, on any platform. *)
Definition lists (entries : list entry) (config : SetupRootConfig) : Prop :=
  (entries = [] /\ volumeMapFrom config = None
   /\ volumeMapTo config = None /\ volumeMapFlags config = None)
  \/ (terminated (map (fun e : entry => Some (fst (fst e))) entries)
        (volumeMapFrom config)
      /\ terminated (map (fun e : entry => Some (snd (fst e))) entries)
           (volumeMapTo config)
      /\ terminated (map snd entries) (volumeMapFlags config)).

(** ** What [getopt] hands over with an option character

    '?' comes with a line on stderr, 'V' with nothing, and each of the
    five options declared with a colon with its argument. *)
Definition well_served (a : Getopt.answer) : Prop :=
  match Getopt.opt a with
  | None => Getopt.diag a = []
  | Some c =>
      (c = "?"%char /\ exists line, Getopt.diag a = [line])
      \/ (c = "V"%char /\ Getopt.diag a = [])
      \/ (In c (list_ascii_of_string "vsuUN") /\ Getopt.diag a = []
          /\ exists arg, Getopt.optarg a = Some arg)
  end.

(** ** The calls of [main], for stating what it does with them *)

(** The place of a call in the text of [main]: lines 116, 125, 133, 138,
    146, 150 and 156. *)
Definition rank (s : Stage) : nat :=
  match s with
  | LoadSiteConfig => 0
  | ResolveImage => 1
  | LoopAttach => 2
  | MountVFS => 3
  | SshSetup => 4
  | SshdStart => 5
  | ApplyUserMounts => 6
  end.

(** What the verbose path prints along a log of calls: the two
    configurations once the site configuration is loaded, the image once
    it is resolved. *)
Definition dumps_after {Sys : Type} (config : SetupRootConfig)
    (t : list (call Sys)) : list (dump Sys) :=
  if nonzero (verbose config)
  then flat_map
         (fun c =>
            if status Sys c =? 0
            then match stage Sys c with
                 | LoadSiteConfig =>
                     [Printed_SetupRootConfig Sys config;
                      Printed_UdiRootConfig Sys (after Sys c)]
                 | ResolveImage => [Printed_ImageData Sys (after Sys c)]
                 | _ => []
                 end
            else []) t
  else [].

(** The collaborators [P] with another [parse_ImageData], and with
    another [setupImageSsh]. *)
Definition with_parse_ImageData {Sys : Type} (P : Collaborators Sys)
    (f : environ -> option string -> Sys -> Z * Sys) : Collaborators Sys :=
  {| UDIROOT_CONFIG_FILE := UDIROOT_CONFIG_FILE Sys P;
     useLoopMount := useLoopMount Sys P;
     parse_UdiRootConfig := parse_UdiRootConfig Sys P;
     parse_ImageData := f;
     mountImageLoop := mountImageLoop Sys P;
     mountImageVFS := mountImageVFS Sys P;
     setupImageSsh := setupImageSsh Sys P;
     startSshd := startSshd Sys P;
     setupUserMounts := setupUserMounts Sys P |}.

Definition with_setupImageSsh {Sys : Type} (P : Collaborators Sys)
    (f : environ -> option string -> option string -> Z -> Sys -> Z * Sys)
  : Collaborators Sys :=
  {| UDIROOT_CONFIG_FILE := UDIROOT_CONFIG_FILE Sys P;
     useLoopMount := useLoopMount Sys P;
     parse_UdiRootConfig := parse_UdiRootConfig Sys P;
     parse_ImageData := parse_ImageData Sys P;
     mountImageLoop := mountImageLoop Sys P;
     mountImageVFS := mountImageVFS Sys P;
     setupImageSsh := f;
     startSshd := startSshd Sys P;
     setupUserMounts := setupUserMounts Sys P |}.

(** [main] as it is without lines 112-115: what the parser returns is
    not tested. *)
Definition main_without_parse_test {Sys : Type} (P : Collaborators Sys)
    (abi : ABI) (argv : list string) : Main Sys Z :=
  change_env Sys clearenv ;;;
  change_env Sys (setenv "PATH" TRUSTED_PATH 1) ;;;
  env <- getenv Sys ;;
  r <- on_stderr Sys (parse_SetupRootConfig abi env argv zeroed) ;;
  let (_, config) := r in
  rc <- invoke Sys LoadSiteConfig
          (fun env => parse_UdiRootConfig Sys P env
                        (UDIROOT_CONFIG_FILE Sys P) 0) ;;
  when (nonzero rc) (eprint Sys msg_site_config ;;; exit 1) ;;;
  when (nonzero (verbose config))
       (print Sys (fun _ => Printed_SetupRootConfig Sys config) ;;;
        print Sys (Printed_UdiRootConfig Sys)) ;;;
  rc <- getImage Sys P config ;;
  when (nonzero rc) (eprint Sys (msg_image config) ;;; exit 1) ;;;
  when (nonzero (verbose config)) (print Sys (Printed_ImageData Sys)) ;;;
  loop <- read Sys (useLoopMount Sys P) ;;
  when (nonzero loop)
       (rc <- invoke Sys LoopAttach (mountImageLoop Sys P) ;;
        when (nonzero rc) (eprint Sys msg_loop ;;; exit 1)) ;;;
  rc <- invoke Sys MountVFS
          (fun env => mountImageVFS Sys P env (user config)
                        (minNodeSpec config)) ;;
  when (nonzero rc) (eprint Sys msg_vfs ;;; exit 1) ;;;
  when (ssh_requested config)
       (rc <- invoke Sys SshSetup
                (fun env => setupImageSsh Sys P env (sshPubKey config)
                              (user config) (uid config)) ;;
        when (nonzero rc) (eprint Sys msg_ssh ;;; exit 1) ;;;
        rc <- invoke Sys SshdStart (startSshd Sys P) ;;
        when (nonzero rc) (eprint Sys msg_sshd ;;; exit 1)) ;;;
  rc <- invoke Sys ApplyUserMounts
          (fun env => setupUserMounts Sys P env (volumeMapFrom config)
                        (volumeMapTo config) (volumeMapFlags config)) ;;
  when (nonzero rc) (eprint Sys msg_user_mounts ;;; exit 1) ;;;
  ret 0.

(** The test of line 323 on every character of a string. *)
Definition clean (s : string) : bool :=
  forallb permitted (list_ascii_of_string s).

(** * Properties *)

(** ** Strings *)

Lemma append_snoc (w : string) (c : ascii) (s : string) :
  (w ++ String c "") ++ s = w ++ String c s.
Proof.
  induction w as [|a w IH]; simpl; [reflexivity|]. now rewrite IH.
Qed.

Lemma append_empty (w : string) : w ++ "" = w.
Proof.
  induction w as [|a w IH]; simpl; [reflexivity|]. now rewrite IH.
Qed.

Lemma strlen_snoc (w : string) (c : ascii) :
  strlen (w ++ String c "") = strlen w + 1.
Proof.
  unfold strlen. induction w as [|a w IH]; simpl String.length; lia.
Qed.

Lemma strlen_nonneg (s : string) : 0 <= strlen s.
Proof. unfold strlen. lia. Qed.

Lemma strlen_String (c : ascii) (s : string) :
  strlen (String c s) = strlen s + 1.
Proof. unfold strlen. simpl String.length. lia. Qed.

Lemma keep_permitted_String (c : ascii) (s : string) :
  keep_permitted (String c s) =
  if permitted c then String c (keep_permitted s) else keep_permitted s.
Proof.
  unfold keep_permitted. simpl. now destruct (permitted c).
Qed.

Lemma keep_permitted_list (s : string) :
  list_ascii_of_string (keep_permitted s)
  = filter permitted (list_ascii_of_string s).
Proof.
  unfold keep_permitted. apply list_ascii_of_string_of_list_ascii.
Qed.

(** ** The sanitization filter *)

(** The guard [wptr - ret < len] never stops the loop: as long as what is
    written and what is unread fit in [len - 1] bytes, the loop copies the
    permitted bytes of the input behind what is written. *)
Lemma filter_loop_keeps (len : Z) (rptr : string) :
  forall written,
    strlen written + strlen rptr < len ->
    filter_loop len rptr written = written ++ keep_permitted rptr.
Proof.
  induction rptr as [|c rptr IH]; intros written Hlen.
  - simpl. now rewrite append_empty.
  - rewrite strlen_String in Hlen. pose proof (strlen_nonneg rptr).
    cbn [filter_loop]. rewrite keep_permitted_String.
    destruct (Z.ltb_spec (strlen written) len) as [_|Hge]; [|lia].
    destruct (permitted c).
    + rewrite IH by (rewrite strlen_snoc; lia). apply append_snoc.
    + apply IH. lia.
Qed.

Lemma filterString_keeps (input : string) :
  _filterString (Some input) = Some (keep_permitted input).
Proof.
  unfold _filterString, malloc.
  rewrite filter_loop_keeps by (change (strlen "") with 0; lia).
  reflexivity.
Qed.

(** The terminator of line 328 is stored inside the [len] bytes that
    were asked for. *)
Lemma filterString_fits (input : string) :
  strlen (keep_permitted input) < strlen input + 1.
Proof.
  induction input as [|c input IH].
  - reflexivity.
  - rewrite keep_permitted_String, strlen_String.
    destruct (permitted c); [rewrite strlen_String|]; lia.
Qed.

(** The test of line 323 accepts the characters of [A-Za-z0-9_:.+-] and
    no other byte. *)
Lemma permitted_member (c : ascii) :
  permitted c = existsb (Ascii.eqb c) (list_ascii_of_string permitted_set).
Proof.
  destruct c as [[] [] [] [] [] [] [] []]; vm_compute; reflexivity.
Qed.

Lemma permitted_iff (c : ascii) :
  permitted c = true <-> In c (list_ascii_of_string permitted_set).
Proof.
  rewrite permitted_member, existsb_exists. split.
  - intros (x & Hin & Heq). apply Ascii.eqb_eq in Heq. now subst x.
  - intros Hin. exists c. split; [exact Hin|]. apply Ascii.eqb_refl.
Qed.

Lemma all_permitted_keep (s : string) : all_permitted (keep_permitted s).
Proof.
  unfold all_permitted. rewrite keep_permitted_list.
  apply Forall_forall. intros c Hc. now apply filter_In in Hc.
Qed.

Lemma keep_permitted_clean (s : string) :
  all_permitted s -> keep_permitted s = s.
Proof.
  unfold all_permitted. induction s as [|c s IH]; intros H.
  - reflexivity.
  - simpl in H. inversion H as [|? ? Hc Hs]; subst.
    rewrite keep_permitted_String, Hc. now rewrite IH.
Qed.

Lemma keep_permitted_rejected (s : string) :
  Forall (fun c => permitted c = false) (list_ascii_of_string s) ->
  keep_permitted s = "".
Proof.
  induction s as [|c s IH]; intros H.
  - reflexivity.
  - simpl in H. inversion H as [|? ? Hc Hs]; subst.
    rewrite keep_permitted_String, Hc. now apply IH.
Qed.

(** C4.  [_filterString] returns NULL for NULL; for a string it returns
    the string made of the input's characters that are in
    [A-Za-z0-9_:.+-], in the order they have in the input, so that every
    character of the result is in that set; when the input has no such
    character the result is the empty string. *)
Theorem C4_filterString_keeps_permitted_in_order :
  _filterString None = None
  /\ forall input : string,
       exists out : string,
         _filterString (Some input) = Some out
         /\ list_ascii_of_string out
            = filter (fun c => if in_dec ascii_dec c
                                      (list_ascii_of_string permitted_set)
                               then true else false)
                     (list_ascii_of_string input)
         /\ Forall (fun c => In c (list_ascii_of_string permitted_set))
                   (list_ascii_of_string out)
         /\ (Forall (fun c => ~ In c (list_ascii_of_string permitted_set))
                    (list_ascii_of_string input) -> out = "").
Proof.
  split; [reflexivity|]. intros input. exists (keep_permitted input).
  split; [apply filterString_keeps|]. split; [|split].
  - rewrite keep_permitted_list. apply filter_ext. intros c.
    destruct (in_dec ascii_dec c (list_ascii_of_string permitted_set)) as [Hin|Hout].
    + now apply permitted_iff.
    + destruct (permitted c) eqn:Hc; [|reflexivity].
      exfalso. now apply Hout, permitted_iff.
  - pose proof (all_permitted_keep input) as H. unfold all_permitted in H.
    eapply Forall_impl; [|exact H]. intros c Hc. now apply permitted_iff.
  - intros H. apply keep_permitted_rejected.
    eapply Forall_impl; [|exact H]. intros c Hc. simpl in Hc.
    destruct (permitted c) eqn:E; [|reflexivity].
    exfalso. now apply Hc, permitted_iff.
Qed.

Lemma C4_witness :
  exists out : string, _filterString (Some "$( ;)") = Some out /\ out = "".
Proof.
  destruct (proj2 C4_filterString_keeps_permitted_in_order "$( ;)")
    as (out & Hout & _ & _ & Hempty).
  exists out. split; [exact Hout|]. apply Hempty.
  apply Forall_forall. intros c Hc Hin. apply permitted_iff in Hin.
  assert (H : forallb (fun c => negb (permitted c))
                      (list_ascii_of_string "$( ;)") = true) by reflexivity.
  rewrite forallb_forall in H. specialize (H c Hc).
  rewrite Hin in H. discriminate H.
Defined.

(** C9.  On a string whose characters are all in [A-Za-z0-9_:.+-] the
    filter returns the string itself; filtering its own result changes
    nothing. *)
Theorem C9_filterString_identity_on_clean :
  (forall input : string,
      Forall (fun c => In c (list_ascii_of_string permitted_set))
             (list_ascii_of_string input) ->
      _filterString (Some input) = Some input)
  /\ (forall input : option string,
         _filterString (_filterString input) = _filterString input).
Proof.
  split.
  - intros input H. rewrite filterString_keeps. f_equal.
    apply keep_permitted_clean. unfold all_permitted.
    eapply Forall_impl; [|exact H]. intros c Hc. now apply permitted_iff.
  - intros [input|]; [|reflexivity].
    rewrite !filterString_keeps. f_equal.
    apply keep_permitted_clean, all_permitted_keep.
Qed.

Lemma C9_witness :
  _filterString (Some "docker:busybox-1.0+x_y") = Some "docker:busybox-1.0+x_y".
Proof.
  apply (proj1 C9_filterString_identity_on_clean).
  apply Forall_forall. intros c Hc. apply permitted_iff.
  revert c Hc. apply forallb_forall. reflexivity.
Defined.

(** ** The option loop *)

Lemma scan_step abi posix prog g config written :
  scan abi posix prog g config written =
  match Getopt.opt (Getopt.getopt posix prog g) with
  | None => (Returned (config, Getopt.next (Getopt.getopt posix prog g)),
             (written ++ Getopt.diag (Getopt.getopt posix prog g))%list)
  | Some c =>
      match switch abi c (Getopt.optarg (Getopt.getopt posix prog g)) config
              (written ++ Getopt.diag (Getopt.getopt posix prog g))%list with
      | (Returned config', written') =>
          scan abi posix prog (Getopt.next (Getopt.getopt posix prog g))
               config' written'
      | (Exited n, written') => (Exited n, written')
      | (Undefined, written') => (Undefined, written')
      end
  end.
Proof.
  funelim (scan abi posix prog g config written).
  - rewrite e. reflexivity.
  - rewrite Hc, Heq. reflexivity.
  - rewrite Hc, Heq. reflexivity.
  - rewrite Hc, Heq. reflexivity.
Qed.

Lemma getopt_diag_form posix prog g :
  let libc := Getopt.diag (Getopt.getopt posix prog g) in
  libc = [] \/ exists c, libc = [Getopt.invalid_option prog c]
                         \/ libc = [Getopt.requires_argument prog c].
Proof.
  assert (Hshort : forall c nc rest nonopts,
             let libc := Getopt.diag (Getopt.short_option prog c nc rest nonopts) in
             libc = [] \/ exists c, libc = [Getopt.invalid_option prog c]
                                    \/ libc = [Getopt.requires_argument prog c]).
  { intros c nc rest nonopts. unfold Getopt.short_option.
    destruct (if Ascii.eqb c ":" then None else _) as [[|]|];
      [destruct nc; [destruct rest|]|..]; simpl; eauto. }
  unfold Getopt.getopt. destruct (Getopt.nextchar g) as [|c nc].
  - destruct (if posix then _ else _) as [rest1 nonopts1].
    destruct rest1 as [|a rest2]; [left; reflexivity|].
    destruct (String.eqb a "--"); [left; reflexivity|].
    destruct (Getopt.is_operand a); [left; reflexivity|].
    destruct a as [|c1 [|c2 a]]; try (left; reflexivity). apply Hshort.
  - apply Hshort.
Qed.

(** What [getopt] can return: -1, '?' with a line on stderr, or one of
    the six option characters. *)
Lemma short_option_cases prog c nc rest nonopts :
  let a := Getopt.short_option prog c nc rest nonopts in
  (Getopt.opt a = Some "?"%char /\ exists line, Getopt.diag a = [line])
  \/ (exists x, Getopt.opt a = Some x /\ Getopt.diag a = []
        /\ In x (list_ascii_of_string "vsuUNV")).
Proof.
  unfold Getopt.short_option.
  destruct (Ascii.eqb c ":") eqn:Hcolon.
  - left. simpl. eauto.
  - destruct (Getopt.lookup c Getopt.optstring) as [[|]|] eqn:Hl.
    + assert (Hin : In c (list_ascii_of_string "vsuUNV")).
      { revert Hl Hcolon. unfold Getopt.optstring. simpl.
        repeat match goal with
               | |- context [Ascii.eqb c ?x] =>
                   destruct (Ascii.eqb_spec c x); [subst c|]
               end; try discriminate; simpl; tauto. }
      destruct nc; [destruct rest|]; simpl; eauto 7.
    + right. exists c. simpl. split; [reflexivity|]. split; [reflexivity|].
      revert Hl Hcolon. unfold Getopt.optstring. simpl.
      repeat match goal with
             | |- context [Ascii.eqb c ?x] =>
                 destruct (Ascii.eqb_spec c x); [subst c|]
             end; try discriminate; simpl; tauto.
    + left. simpl. eauto.
Qed.

Lemma getopt_cases posix prog g :
  let a := Getopt.getopt posix prog g in
  (Getopt.opt a = None /\ Getopt.diag a = [])
  \/ (Getopt.opt a = Some "?"%char /\ exists line, Getopt.diag a = [line])
  \/ (exists x, Getopt.opt a = Some x /\ Getopt.diag a = []
        /\ In x (list_ascii_of_string "vsuUNV")).
Proof.
  unfold Getopt.getopt. destruct (Getopt.nextchar g) as [|c nc].
  - destruct (if posix then _ else _) as [rest1 nonopts1].
    destruct rest1 as [|a rest2]; [left; simpl; auto|].
    destruct (String.eqb a "--"); [left; simpl; auto|].
    destruct (Getopt.is_operand a); [left; simpl; auto|].
    destruct a as [|c1 [|c2 a]]; try (left; simpl; auto; fail).
    right. apply short_option_cases.
  - right. apply short_option_cases.
Qed.

(** The monad at work. *)
Ltac run_monad :=
  unfold with_optarg, store_cell, when, _usage, fprintf_stderr in *;
  unfold bind, ret, exit, undefined, modify in *; cbn beta iota in *.

Lemma grow_returns abi cnt config w :
  exists config', grow abi cnt config w = (Returned config', w).
Proof.
  unfold grow, realloc.
  destruct (is_null (volumeMapFrom config) || _); run_monad; eauto.
Qed.

Lemma case_v_cases abi optarg config w :
  case_v abi optarg config w = (Exited 1, (w ++ [msg_volume_format])%list)
  \/ case_v abi optarg config w = (Undefined, w)
  \/ exists config', case_v abi optarg config w = (Returned config', w).
Proof.
  remember (case_v abi optarg config w) as r eqn:Hr.
  unfold case_v in Hr.
  destruct (strtok ":" optarg) as [from saved1].
  destruct (strtok ":" saved1) as [to saved2].
  destruct (strtok ":" saved2) as [flags saved3].
  destruct from as [from|]; [destruct to as [to|]|]; try (left; exact Hr).
  right.
  destruct (grow_returns abi (volumeMapFrom_ptr config) config w) as [c1 Hg].
  unfold bind at 1 in Hr. rewrite Hg in Hr. run_monad.
  repeat (match type of Hr with
          | context [store ?b ?i ?v] => destruct (store b i v)
          end; cbn beta iota in Hr); eauto.
Qed.

Lemma switch_cases abi c optarg config w :
  (exists d, switch abi c optarg config w = (Exited 1, (w ++ [d])%list)
             /\ In d [msg_volume_format; msg_missing_argument])
  \/ switch abi c optarg config w = (Undefined, w)
  \/ exists config', switch abi c optarg config w = (Returned config', w).
Proof.
  assert (Hv := case_v_cases abi optarg config w).
  destruct c as [[] [] [] [] [] [] [] []];
    cbn [switch]; run_monad;
    try (right; right; eexists; reflexivity);
    try (destruct optarg; [right; right; eexists; reflexivity
                          | right; left; reflexivity]).
  - left. exists msg_missing_argument. simpl. auto.
  - destruct Hv as [Hv|[Hv|Hv]]; [left|right; left|right; right]; eauto.
    exists msg_volume_format. simpl. auto.
Qed.

Lemma switch_question abi optarg config w :
  switch abi "?" optarg config w = (Exited 1, (w ++ [msg_missing_argument])%list).
Proof. reflexivity. Qed.

(** A run of the loop that ends the process has written one diagnostic,
    after what the C library may have written about the same option. *)
Lemma scan_exited abi posix prog g config written :
  forall n w,
    scan abi posix prog g config written = (Exited n, w) ->
    n = 1 /\ exists libc d,
      w = (written ++ libc ++ [d])%list
      /\ In d [msg_volume_format; msg_missing_argument]
      /\ (libc = [] \/ exists c, libc = [Getopt.invalid_option prog c]
                                 \/ libc = [Getopt.requires_argument prog c]).
Proof.
  funelim (scan abi posix prog g config written); intros n0 w0 Hres.
  - discriminate Hres.
  - (* the option was handled: the loop goes on *)
    destruct (getopt_cases posix prog g) as [[Hn _]|[[Hq _]|(x & Hx & Hd & _)]].
    + congruence.
    + rewrite Hc in Hq. injection Hq as ->.
      rewrite switch_question in Heq. discriminate Heq.
    + rewrite Hd, app_nil_r in Heq.
      destruct (switch_cases abi c (Getopt.optarg (Getopt.getopt posix prog g))
                  config written) as [(d & Hs & _)|[Hs|(c' & Hs)]];
        rewrite Hs in Heq; try discriminate Heq.
      injection Heq as <- <-. now apply H.
  - (* the option ended the process *)
    injection Hres as <- <-.
    destruct (switch_cases abi c (Getopt.optarg (Getopt.getopt posix prog g))
                config (written ++ Getopt.diag (Getopt.getopt posix prog g)))
      as [(d & Hs & Hin)|[Hs|(c' & Hs)]];
      rewrite Hs in Heq; try discriminate Heq.
    injection Heq as <- <-. split; [reflexivity|].
    exists (Getopt.diag (Getopt.getopt posix prog g)), d.
    split; [now rewrite app_assoc|]. split; [exact Hin|].
    apply getopt_diag_form.
  - discriminate Hres.
Qed.

Lemma scan_returned_written abi posix prog g config written :
  forall config' g' w,
    scan abi posix prog g config written = (Returned (config', g'), w) ->
    w = written.
Proof.
  funelim (scan abi posix prog g config written); intros c0 g0 w0 Hres.
  - injection Hres as <- <- <-.
    destruct (getopt_cases posix prog g) as [[_ Hd]|[[Hq _]|(x & Hx & _)]];
      [now rewrite Hd, app_nil_r|congruence..].
  - destruct (getopt_cases posix prog g) as [[Hn _]|[[Hq _]|(x & Hx & Hd & _)]].
    + congruence.
    + rewrite Hc in Hq. injection Hq as ->.
      rewrite switch_question in Heq. discriminate Heq.
    + rewrite Hd, app_nil_r in Heq.
      destruct (switch_cases abi c (Getopt.optarg (Getopt.getopt posix prog g))
                  config written) as [(d & Hs & _)|[Hs|(c' & Hs)]];
        rewrite Hs in Heq; try discriminate Heq.
      injection Heq as <- <-. eapply H. exact Hres.
  - discriminate Hres.
  - discriminate Hres.
Qed.

Lemma parse_unfold abi env argv config written :
  parse_SetupRootConfig abi env argv config written =
  match scan abi (defines "POSIXLY_CORRECT" env) (hd "" argv)
          (Getopt.start argv) config written with
  | (Returned (config', g), w) =>
      if Z.of_nat (List.length (Getopt.nonopts g)) =? 2
      then (Returned (0, set_image
                           (_filterString (nth_error (Getopt.nonopts g) 0))
                           (_filterString (nth_error (Getopt.nonopts g) 1))
                           config'), w)
      else (Exited 1, (w ++ [msg_positional])%list)
  | (Exited n, w) => (Exited n, w)
  | (Undefined, w) => (Undefined, w)
  end.
Proof.
  unfold parse_SetupRootConfig. unfold bind at 1.
  destruct (scan _ _ _ _ _ _) as [[[config' g]|n|] w]; try reflexivity.
  destruct (Z.of_nat _ =? 2); reflexivity.
Qed.

(** ** The parser *)

Lemma parse_returns_zero abi env argv config written rc config' w :
  parse_SetupRootConfig abi env argv config written = (Returned (rc, config'), w) ->
  rc = 0.
Proof.
  rewrite parse_unfold.
  destruct (scan _ _ _ _ _ _) as [[[c g]|n|] w0]; try discriminate.
  destruct (Z.of_nat _ =? 2); [|discriminate].
  now intros [= <- _ _].
Qed.

Lemma parse_returned_written abi env argv config written rc config' w :
  parse_SetupRootConfig abi env argv config written = (Returned (rc, config'), w) ->
  w = written.
Proof.
  rewrite parse_unfold.
  destruct (scan _ _ _ _ _ _) as [[[c g]|n|] w0] eqn:Hs; try discriminate.
  destruct (Z.of_nat _ =? 2); [|discriminate].
  intros [= _ _ <-]. eapply scan_returned_written. exact Hs.
Qed.

Lemma parse_exited abi env argv config written n w :
  parse_SetupRootConfig abi env argv config written = (Exited n, w) ->
  n = 1 /\ exists libc d,
    w = (written ++ libc ++ [d])%list
    /\ In d [msg_volume_format; msg_missing_argument; msg_positional]
    /\ (libc = [] \/ exists c, libc = [Getopt.invalid_option (hd "" argv) c]
                   \/ libc = [Getopt.requires_argument (hd "" argv) c]).
Proof.
  rewrite parse_unfold.
  destruct (scan _ _ _ _ _ _) as [[[c g]|n0|] w0] eqn:Hs; try discriminate.
  - destruct (Z.of_nat _ =? 2); [discriminate|].
    intros [= <- <-]. split; [reflexivity|].
    apply scan_returned_written in Hs. subst w0.
    exists [], msg_positional. simpl. auto 6.
  - intros [= <- <-]. apply scan_exited in Hs.
    destruct Hs as (-> & libc & d & -> & Hd & Hl). split; [reflexivity|].
    exists libc, d. split; [reflexivity|]. split; [|exact Hl].
    simpl in *. tauto.
Qed.

Lemma operand_not_dashes (a : string) :
  Getopt.is_operand a = true -> String.eqb a "--" = false.
Proof.
  intros H. destruct (String.eqb_spec a "--") as [->|]; [discriminate H|reflexivity].
Qed.

Lemma skip_operands_all (operands : list string) :
  Forall (fun a => Getopt.is_operand a = true) operands ->
  forall nonopts,
    Getopt.skip_operands operands nonopts = ([], (nonopts ++ operands)%list).
Proof.
  induction 1 as [|a operands Ha _ IH]; intros nonopts; simpl.
  - now rewrite app_nil_r.
  - rewrite Ha, IH, <- app_assoc. reflexivity.
Qed.

(** With nothing but operands left, [getopt] returns -1 at once and
    leaves them all. *)
Lemma getopt_operands posix prog (operands nonopts : list string) :
  Forall (fun a => Getopt.is_operand a = true) operands ->
  Getopt.getopt posix prog
    {| Getopt.nextchar := ""; Getopt.rest := operands;
       Getopt.nonopts := nonopts |}
  = Getopt.finished (nonopts ++ operands).
Proof.
  intros H. unfold Getopt.getopt. cbn [Getopt.nextchar Getopt.rest Getopt.nonopts].
  destruct posix.
  - destruct H as [|a operands Ha H]; [now rewrite app_nil_r|].
    now rewrite (operand_not_dashes a Ha), Ha.
  - now rewrite skip_operands_all.
Qed.

Lemma scan_operands abi posix prog (operands nonopts : list string) config written :
  Forall (fun a => Getopt.is_operand a = true) operands ->
  scan abi posix prog
    {| Getopt.nextchar := ""; Getopt.rest := operands;
       Getopt.nonopts := nonopts |} config written
  = (Returned (config, {| Getopt.nextchar := ""; Getopt.rest := [];
                          Getopt.nonopts := (nonopts ++ operands)%list |}),
     written).
Proof.
  intros H. rewrite scan_step, getopt_operands by exact H.
  simpl. now rewrite app_nil_r.
Qed.



(** ** Runs of the program *)

(** The lines [main] writes tell the collaborators apart. *)
Lemma diagnostic_of_injective (s1 s2 : Stage) (c1 c2 : SetupRootConfig) :
  diagnostic_of s1 c1 = diagnostic_of s2 c2 -> s1 = s2.
Proof.
  destruct s1, s2; intros H; try reflexivity; discriminate H.
Qed.

Lemma diagnostic_of_not_parse (s : Stage) (c : SetupRootConfig) :
  ~ In (diagnostic_of s c) parse_diagnostics.
Proof.
  destruct s; intros [H|[H|[H|[]]]]; discriminate H.
Qed.

Lemma present_iff (p : option string) :
  present p = true <-> exists s, p = Some s /\ s <> "".
Proof.
  destruct p as [[|c s]|]; simpl; split; try discriminate.
  - intros (s & [= <-] & H). now elim H.
  - intros _. eexists. split; [reflexivity|discriminate].
  - intros _. unfold strlen. simpl String.length. apply Z.ltb_lt. lia.
  - intros (s & [=] & _).
Qed.

Lemma ssh_requested_iff (config : SetupRootConfig) :
  ssh_requested config = true <-> ssh_wanted config.
Proof.
  unfold ssh_requested, ssh_wanted, nonzero.
  rewrite !andb_true_iff, !present_iff, negb_true_iff, Z.eqb_neq. tauto.
Qed.

(** Unfolds the monad of [main] in goal and hypotheses. *)
Ltac crack :=
  repeat (unfold getImage, invoke, change_env, eprint, print, on_stderr,
            getenv, read, when, _usage in *;
          unfold bind, ret, exit, undefined, modify in *;
          cbn beta iota delta [environment stderr stdout trace sys fst snd] in *).

(** One branch of [main] in [Hr]: a call into a collaborator, a test of
    an [int] against 0, or the test on SSH. *)
Ltac branch Hr :=
  match type of Hr with
  | context [let (_, _) := ?f ?env ?s in _] =>
      let r := fresh "r" in let s' := fresh "s" in let H := fresh "Hcall" in
      destruct (f env s) as [r s'] eqn:H
  | context [nonzero ?r] =>
      let H := fresh "Hz" in
      destruct (Z.eqb_spec r 0) as [H|H];
      [ replace (nonzero r) with false in Hr by (rewrite H; reflexivity)
      | replace (nonzero r) with true in Hr
          by (symmetry; apply negb_true_iff, Z.eqb_neq; exact H) ]
  | context [ssh_requested ?c] =>
      let H := fresh "Hssh" in destruct (ssh_requested c) eqn:H
  end.

(** Every way a run can go: [Hr] ends up as the outcome and the process
    of one path through [main]. *)
Ltac paths Hr :=
  unfold run, main, boot in Hr; crack;
  change (setenv "PATH" TRUSTED_PATH 1 (clearenv _)) with trusted_env in Hr;
  let Hp := fresh "Hp" in
  destruct (parse_SetupRootConfig _ trusted_env _ zeroed [])
    as [[[?rc ?config]|?n|] ?w] eqn:Hp; crack;
  [ pose proof (parse_returns_zero _ _ _ _ _ _ _ _ Hp);
    pose proof (parse_returned_written _ _ _ _ _ _ _ _ Hp);
    subst; change (nonzero 0) with false in Hr; crack;
    repeat (branch Hr; crack); simpl in Hr
  | .. ].

(** Every position of a call in a log that is written out. *)
Ltac split_trace H pre :=
  destruct pre as [|? pre]; simpl in H;
  [ try discriminate H; injection H as ? ?; subst
  | try discriminate H; injection H as ? H; subst; split_trace H pre ].

(** A stage that does not occur in a log that is written out. *)
Ltac no_such_call :=
  let c := fresh "c" in let Hin := fresh "Hin" in let Hs := fresh "Hs" in
  intros (c & Hin & Hs); simpl in Hin;
  repeat (destruct Hin as [<-|Hin]; [discriminate Hs|]); exact Hin.

(** Every member of a log that is written out. *)
Ltac cases_in Hin :=
  simpl in Hin; repeat (destruct Hin as [<-|Hin]); try (exfalso; exact Hin).

(** The call of a stage in a log that is written out. *)
Ltac find_call :=
  match goal with
  | |- completed _ ?st ?l =>
      match l with
      | context [{| stage := st; status := ?r; env_at := ?e; after := ?a |}] =>
          exists {| stage := st; status := r; env_at := e; after := a |};
          split; [simpl; tauto|split; [reflexivity|simpl; first [reflexivity|assumption]]]
      end
  | |- invoked _ ?st ?l =>
      match l with
      | context [{| stage := st; status := ?r; env_at := ?e; after := ?a |}] =>
          exists {| stage := st; status := r; env_at := e; after := a |};
          split; [simpl; tauto|reflexivity]
      end
  end.

Ltac not_completed H :=
  let c := fresh "c" in let Hin := fresh "Hin" in
  let Hs := fresh "Hs" in let Hst := fresh "Hst" in
  destruct H as (c & Hin & Hs & Hst); simpl in Hin;
  repeat (destruct Hin as [<-|Hin];
          [first [discriminate Hs | simpl in Hst; contradiction]|]);
  exfalso; exact Hin.

Ltac not_invoked H :=
  let c := fresh "c" in let Hin := fresh "Hin" in let Hs := fresh "Hs" in
  destruct H as (c & Hin & Hs); simpl in Hin;
  repeat (destruct Hin as [<-|Hin]; [discriminate Hs|]);
  exfalso; exact Hin.

(** The call of [getImage] in a log that is written out, with what is
    known of it. *)
Ltac find_image :=
  match goal with
  | |- context [{| stage := ResolveImage; status := ?r; env_at := ?e;
                   after := ?a |}] =>
      exists {| stage := ResolveImage; status := r; env_at := e; after := a |};
      split; [simpl; tauto|];
      repeat split; simpl;
      first [reflexivity|assumption|left; assumption|right; find_call]
  end.

Section Runs.

Variable Sys : Type.
Variable P : Collaborators Sys.

(** C3.  Whatever environment the process inherits, the two calls that
    open [main] leave the single variable [PATH] with its fixed value;
    the parser and every collaborator run in that environment, the
    process ends in it, and nothing the program does depends on what was
    inherited. *)
Theorem C3_environment_reset (abi : ABI) (argv : list string)
    (env : environ) (s : Sys) :
  setenv "PATH" TRUSTED_PATH 1 (clearenv env)
  = [("PATH", "/usr/bin:/usr/sbin:/bin:/sbin")]
  /\ environment Sys (snd (run Sys P abi argv env s))
     = [("PATH", "/usr/bin:/usr/sbin:/bin:/sbin")]
  /\ (forall c, In c (trace Sys (snd (run Sys P abi argv env s))) ->
        env_at Sys c = [("PATH", "/usr/bin:/usr/sbin:/bin:/sbin")])
  /\ match parse_SetupRootConfig abi
             [("PATH", "/usr/bin:/usr/sbin:/bin:/sbin")] argv zeroed [] with
     | (Returned _, _) => trace Sys (snd (run Sys P abi argv env s)) <> []
     | (Exited _, w) =>
         fst (run Sys P abi argv env s) = Exited 1
         /\ stderr Sys (snd (run Sys P abi argv env s)) = w
     | (Undefined, _) => fst (run Sys P abi argv env s) = Undefined
     end
  /\ run Sys P abi argv env s = run Sys P abi argv [] s.
Proof.
  change [("PATH", "/usr/bin:/usr/sbin:/bin:/sbin")] with trusted_env.
  split; [reflexivity|]. split; [|split; [|split; [|reflexivity]]].
  - destruct (run Sys P abi argv env s) as [o p] eqn:Hr.
    paths Hr; injection Hr as <- <-; reflexivity.
  - destruct (run Sys P abi argv env s) as [o p] eqn:Hr.
    paths Hr; injection Hr as <- <-; simpl; intros c Hin;
      cases_in Hin; reflexivity.
  - destruct (run Sys P abi argv env s) as [o p] eqn:Hr.
    paths Hr; injection Hr as <- <-; simpl; try discriminate.
    + apply parse_exited in Hp. destruct Hp as [-> _]. split; reflexivity.
    + reflexivity.
Qed.

(** [mountImageLoop] is called only behind a [getImage] that returned 0
    and left an image with [useLoopMount] set. *)
Lemma loop_after_image abi argv env s :
  let t := trace Sys (snd (run Sys P abi argv env s)) in
  forall pre c post,
    t = (pre ++ c :: post)%list -> stage Sys c = LoopAttach ->
    exists c', In c' pre /\ stage Sys c' = ResolveImage
               /\ status Sys c' = 0 /\ useLoopMount Sys P (after Sys c') <> 0.
Proof.
  cbv zeta. destruct (run Sys P abi argv env s) as [o p] eqn:Hr.
  paths Hr; injection Hr as <- <-; simpl.
  all: intros pre c post Ht Hs; split_trace Ht pre; simpl in Hs;
    try discriminate Hs; find_image.
Qed.

(** [mountImageVFS] waits for [mountImageLoop] when the image asks for a
    loop device. *)
Lemma vfs_after_loop abi argv env s :
  let t := trace Sys (snd (run Sys P abi argv env s)) in
  forall pre c post,
    t = (pre ++ c :: post)%list -> stage Sys c = MountVFS ->
    forall c', In c' pre -> stage Sys c' = ResolveImage ->
      useLoopMount Sys P (after Sys c') <> 0 ->
      completed Sys LoopAttach pre.
Proof.
  cbv zeta. destruct (run Sys P abi argv env s) as [o p] eqn:Hr.
  paths Hr; injection Hr as <- <-; simpl.
  all: intros pre c post Ht Hs; split_trace Ht pre; simpl in Hs;
    try discriminate Hs;
    intros c' Hin Hs' Hl; cases_in Hin; simpl in Hs', Hl;
    try discriminate Hs'; first [contradiction|find_call].
Qed.

Lemma vfs_gate abi argv env s :
  let t := trace Sys (snd (run Sys P abi argv env s)) in
  invoked Sys MountVFS t
  <-> exists c, In c t /\ stage Sys c = ResolveImage /\ status Sys c = 0
                /\ (useLoopMount Sys P (after Sys c) = 0
                    \/ completed Sys LoopAttach t).
Proof.
  cbv zeta. destruct (run Sys P abi argv env s) as [o p] eqn:Hr.
  paths Hr; injection Hr as <- <-; simpl.
  all: split;
    [ intros H; first [not_invoked H | find_image]
    | intros (c & Hin & Hs & Hst & Hor); cases_in Hin; simpl in Hs, Hst, Hor;
      try discriminate Hs; try contradiction;
      first [ find_call
            | destruct Hor as [Hor|Hor];
              [contradiction|not_completed Hor] ] ].
Qed.

(** The two SSH steps: [setupImageSsh] behind a [mountImageVFS] that
    returned 0, [startSshd] exactly behind a [setupImageSsh] that returned
    0, and [setupUserMounts] behind both when they are taken. *)
Lemma ssh_steps abi argv env s :
  let t := trace Sys (snd (run Sys P abi argv env s)) in
  (forall pre c post,
      t = (pre ++ c :: post)%list -> stage Sys c = SshSetup ->
      completed Sys MountVFS pre)
  /\ (forall pre c post,
         t = (pre ++ c :: post)%list -> stage Sys c = SshdStart ->
         completed Sys SshSetup pre)
  /\ (invoked Sys SshdStart t <-> completed Sys SshSetup t)
  /\ (forall pre c post,
         t = (pre ++ c :: post)%list -> stage Sys c = ApplyUserMounts ->
         invoked Sys SshSetup t -> completed Sys SshdStart pre).
Proof.
  cbv zeta. destruct (run Sys P abi argv env s) as [o p] eqn:Hr.
  paths Hr; injection Hr as <- <-; simpl.
  all: split; [|split; [|split]].
  all: try (intros pre c post Ht Hs; split_trace Ht pre; simpl in Hs;
            try discriminate Hs; find_call).
  all: try (split; intros H;
            [ first [not_invoked H | find_call]
            | first [not_completed H | find_call] ]).
  all: intros pre c post Ht Hs; split_trace Ht pre; simpl in Hs;
    try discriminate Hs; intros H; first [not_invoked H | find_call].
Qed.

Lemma user_mounts_gate abi argv env s :
  let t := trace Sys (snd (run Sys P abi argv env s)) in
  forall rc config w,
    parse_SetupRootConfig abi trusted_env argv zeroed []
    = (Returned (rc, config), w) ->
    (invoked Sys ApplyUserMounts t
     <-> completed Sys MountVFS t
         /\ (ssh_wanted config -> completed Sys SshdStart t)).
Proof.
  cbv zeta. destruct (run Sys P abi argv env s) as [o p] eqn:Hr.
  paths Hr; injection Hr as <- <-; simpl.
  all: try (intros ? ? ? [=]; fail).
  all: intros rc' config' w' [= <- <- <-]; rewrite <- ssh_requested_iff.
  all: split;
    [ intros H; first [not_invoked H | split; [find_call|]]
    | intros [Hv Hs]; first [ find_call | not_completed Hv | idtac ] ].
  all: try (intros _; find_call).
  all: try (intros Hw; congruence).
  all: try (specialize (Hs Hssh); not_completed Hs).
Qed.

(** C1.  In every run: a call of [mountImageVFS] comes after a call of
    [getImage] that returned 0, and a call of [setupUserMounts] after a
    call of [mountImageVFS] that returned 0; once [getImage] has returned
    0, [mountImageLoop] is called exactly when the image it left has
    [useLoopMount] set; once [mountImageVFS] has returned 0,
    [setupImageSsh] is called exactly when key and user are present and
    not empty and the uid is not zero, and it is called in no other run.
    [mountImageLoop] is called only after a [getImage] that returned 0 and
    left [useLoopMount] set, and [mountImageVFS] then waits for it to
    return 0: [mountImageVFS] is called exactly when [getImage] has
    returned 0 and the image needs no loop device or [mountImageLoop] has
    returned 0.  The second step of the SSH provision, [startSshd], is
    called exactly when [setupImageSsh] has returned 0, and after it;
    [setupUserMounts] is called exactly when [mountImageVFS] has returned
    0 and, if SSH is asked for, [startSshd] has returned 0, and after
    them. *)
Theorem C1_pipeline_order_and_gates (abi : ABI) (argv : list string)
    (env : environ) (s : Sys) :
  let parsed := parse_SetupRootConfig abi trusted_env argv zeroed [] in
  let t := trace Sys (snd (run Sys P abi argv env s)) in
  (forall pre c post,
      t = (pre ++ c :: post)%list -> stage Sys c = MountVFS ->
      completed Sys ResolveImage pre)
  /\ (forall pre c post,
         t = (pre ++ c :: post)%list -> stage Sys c = ApplyUserMounts ->
         completed Sys MountVFS pre)
  /\ (forall c,
         In c t -> stage Sys c = ResolveImage -> status Sys c = 0 ->
         (invoked Sys LoopAttach t <-> useLoopMount Sys P (after Sys c) <> 0))
  /\ (forall rc config w,
         parsed = (Returned (rc, config), w) ->
         completed Sys MountVFS t ->
         (invoked Sys SshSetup t <-> ssh_wanted config))
  /\ (invoked Sys SshSetup t ->
      completed Sys MountVFS t
      /\ exists config,
          parsed = (Returned (0, config), []) /\ ssh_wanted config)
  /\ (forall pre c post,
         t = (pre ++ c :: post)%list -> stage Sys c = LoopAttach ->
         exists c', In c' pre /\ stage Sys c' = ResolveImage
                    /\ status Sys c' = 0
                    /\ useLoopMount Sys P (after Sys c') <> 0)
  /\ (forall pre c post,
         t = (pre ++ c :: post)%list -> stage Sys c = MountVFS ->
         forall c', In c' pre -> stage Sys c' = ResolveImage ->
           useLoopMount Sys P (after Sys c') <> 0 ->
           completed Sys LoopAttach pre)
  /\ (invoked Sys MountVFS t
      <-> exists c, In c t /\ stage Sys c = ResolveImage /\ status Sys c = 0
                    /\ (useLoopMount Sys P (after Sys c) = 0
                        \/ completed Sys LoopAttach t))
  /\ (forall pre c post,
         t = (pre ++ c :: post)%list -> stage Sys c = SshSetup ->
         completed Sys MountVFS pre)
  /\ (forall pre c post,
         t = (pre ++ c :: post)%list -> stage Sys c = SshdStart ->
         completed Sys SshSetup pre)
  /\ (invoked Sys SshdStart t <-> completed Sys SshSetup t)
  /\ (forall pre c post,
         t = (pre ++ c :: post)%list -> stage Sys c = ApplyUserMounts ->
         invoked Sys SshSetup t -> completed Sys SshdStart pre)
  /\ (forall rc config w,
         parsed = (Returned (rc, config), w) ->
         (invoked Sys ApplyUserMounts t
          <-> completed Sys MountVFS t
              /\ (ssh_wanted config -> completed Sys SshdStart t))).
Proof.
  cbv zeta.
  match goal with
  | |- ?A /\ ?B /\ ?C /\ ?D /\ ?E /\ _ =>
      assert (Hgates : A /\ B /\ C /\ D /\ E);
      [|destruct Hgates as (? & ? & ? & ? & ?);
        repeat (split; [assumption|]);
        split; [exact (loop_after_image abi argv env s)|];
        split; [exact (vfs_after_loop abi argv env s)|];
        split; [exact (vfs_gate abi argv env s)|];
        destruct (ssh_steps abi argv env s) as (? & ? & ? & ?);
        repeat (split; [assumption|]);
        exact (user_mounts_gate abi argv env s)]
  end.
  destruct (run Sys P abi argv env s) as [o p] eqn:Hr.
  paths Hr.
  all: injection Hr as <- <-; simpl.
  all: split; [|split; [|split; [|split]]].
  (* before MountVFS, before ApplyUserMounts *)
  all: try (intros pre c post Ht Hs; split_trace Ht pre; simpl in Hs;
            try discriminate Hs; find_call).
  (* the test before LoopAttach *)
  all: try (intros c Hin Hs Hst; cases_in Hin; simpl in Hs, Hst |- *;
            try discriminate Hs; try contradiction;
            (split; intros H;
             [ first [assumption | not_invoked H]
             | first [find_call | contradiction] ])).
  (* the test before SshSetup *)
  all: try (intros rc' config' w' [=]; fail).
  all: try (intros rc' config' w' [= <- <- <-] Hvfs;
            first [ not_completed Hvfs
                  | rewrite <- ssh_requested_iff; split; intros H;
                    [ first [assumption | not_invoked H]
                    | first [find_call | congruence] ] ]).
  all: try (intros H; not_invoked H).
  all: intros _; split; [find_call|].
  all: eexists; split; [reflexivity|]; now apply ssh_requested_iff.
Qed.

(** C2.  In every run: when the parser ends the process, the status is 1,
    the last line on stderr is one of the parser's diagnostics and no
    collaborator is called; when a collaborator returns non-zero, the
    status is 1, that call is the last one and stderr holds the line of
    that collaborator, a line no other stage writes; when every
    collaborator returns 0 the status is 0.  After a failed
    [mountImageVFS] there is no call of [setupImageSsh], [startSshd] or
    [setupUserMounts]. *)
Theorem C2_first_failure_ends_the_run (abi : ABI) (argv : list string)
    (env : environ) (s : Sys) :
  let parsed := parse_SetupRootConfig abi trusted_env argv zeroed [] in
  let o := fst (run Sys P abi argv env s) in
  let p := snd (run Sys P abi argv env s) in
  (forall n w, parsed = (Exited n, w) ->
     exit_status o = Some 1 /\ trace Sys p = [] /\ stderr Sys p = w
     /\ exists lines d, w = (lines ++ [d])%list /\ In d parse_diagnostics)
  /\ (forall rc config w, parsed = (Returned (rc, config), w) ->
        (forall pre c post,
            trace Sys p = (pre ++ c :: post)%list -> status Sys c <> 0 ->
            exit_status o = Some 1 /\ post = []
            /\ stderr Sys p = [diagnostic_of (stage Sys c) config])
        /\ ((forall c, In c (trace Sys p) -> status Sys c = 0) ->
            exit_status o = Some 0 /\ stderr Sys p = []))
  /\ (forall c, In c (trace Sys p) -> stage Sys c = MountVFS ->
        status Sys c <> 0 ->
        ~ invoked Sys SshSetup (trace Sys p)
        /\ ~ invoked Sys SshdStart (trace Sys p)
        /\ ~ invoked Sys ApplyUserMounts (trace Sys p))
  /\ (forall s1 s2 c1 c2,
         diagnostic_of s1 c1 = diagnostic_of s2 c2 -> s1 = s2)
  /\ (forall s1 c1, ~ In (diagnostic_of s1 c1) parse_diagnostics).
Proof.
  cbv zeta.
  split; [|split; [|split; [|split;
    [exact diagnostic_of_injective|exact diagnostic_of_not_parse]]]];
    destruct (run Sys P abi argv env s) as [o p] eqn:Hr;
    paths Hr; injection Hr as <- <-; simpl.
  all: try (intros ? ? [=]; fail).
  all: try (intros ? ? ? [=]; fail).
  all: try (intros c Hin Hst Hne; cases_in Hin; simpl in *;
            try discriminate; try contradiction;
            repeat split; no_such_call).
  all: try (intros n0 w0 [= <- <-]; apply parse_exited in Hp;
            destruct Hp as (-> & libc & d & -> & Hd & _);
            repeat split; exists libc, d; split; [reflexivity|exact Hd]).
  all: intros rc' config' w' [= <- <- <-]; split.
  all: try (intros pre c post Ht Hst; split_trace Ht pre; simpl in *;
            try contradiction; auto; fail).
  all: intros Hall; try (split; reflexivity).
  all: exfalso;
    match goal with
    | Hz : ?r <> 0 |- _ =>
        apply Hz;
        match type of Hall with
        | context [{| stage := ?st; status := r; env_at := ?e; after := ?a |}] =>
            apply (Hall {| stage := st; status := r; env_at := e; after := a |})
        end
    end; simpl; tauto.
Qed.

(** C8, as the code has it.  Every parse failure ends the process with
    status 1 after one of the parser's diagnostics, which may follow a
    line of [getopt] about the same option; no collaborator is then
    called and the machine is left as it was.  Whenever a collaborator is
    called, the parser has returned a configuration with both image
    fields set. *)
Theorem C8_parse_failure_exits_with_diagnostic (abi : ABI)
    (argv : list string) (env : environ) (s : Sys) :
  let parsed := parse_SetupRootConfig abi trusted_env argv zeroed [] in
  (forall n w, parsed = (Exited n, w) ->
     n = 1
     /\ (exists libc d,
            w = (libc ++ [d])%list /\ In d parse_diagnostics
            /\ (libc = []
                \/ exists c, libc = [Getopt.invalid_option (hd "" argv) c]
                             \/ libc = [Getopt.requires_argument (hd "" argv) c]))
     /\ run Sys P abi argv env s
        = (Exited 1, {| environment := trusted_env; stderr := w;
                        stdout := []; trace := []; sys := s |}))
  /\ (trace Sys (snd (run Sys P abi argv env s)) <> [] ->
      exists config type identifier,
        parsed = (Returned (0, config), [])
        /\ imageType config = Some type
        /\ imageIdentifier config = Some identifier).
Proof.
  cbv zeta. split.
  - intros n w Hp. pose proof Hp as Hp'. apply parse_exited in Hp'.
    destruct Hp' as (-> & libc & d & -> & Hd & Hl).
    split; [reflexivity|]. split; [exists libc, d; auto|].
    unfold run, main, boot. crack.
    change (setenv "PATH" TRUSTED_PATH 1 (clearenv env)) with trusted_env.
    now rewrite Hp.
  - destruct (run Sys P abi argv env s) as [o p] eqn:Hr.
    paths Hr; injection Hr as <- <-; simpl; intros Ht;
      try (now elim Ht).
    all: rewrite parse_unfold in Hp;
      destruct (scan _ _ _ _ _ _) as [[[c g]|n0|] w0]; try discriminate Hp;
      destruct (Z.eqb_spec (Z.of_nat (List.length (Getopt.nonopts g))) 2)
        as [Hlen|]; [|discriminate Hp];
      destruct (Getopt.nonopts g) as [|a [|b [|? ?]]]; try discriminate Hlen;
      cbn [nth_error] in Hp; rewrite !filterString_keeps in Hp;
      injection Hp as <- <-;
      exists (set_image (Some (keep_permitted a)) (Some (keep_permitted b)) c);
      do 2 eexists; repeat split; reflexivity.
Qed.

End Runs.

(** ** The theorems at work on the scripted machine *)

Lemma ssh_argv_parsed :
  parse_SetupRootConfig LP64 trusted_env ssh_argv zeroed []
  = (Returned (0, ssh_config), []).
Proof. vm_compute. reflexivity. Qed.

Lemma C1_witness :
  let t := trace Machine
             (snd (run Machine (scripted all_fine 1) LP64 ssh_argv
                     [("HOME", "/root")] pristine)) in
  invoked Machine LoopAttach t /\ invoked Machine SshSetup t
  /\ invoked Machine SshdStart t.
Proof.
  destruct (C1_pipeline_order_and_gates Machine (scripted all_fine 1) LP64
              ssh_argv [("HOME", "/root")] pristine)
    as (_ & _ & Hloop & Hssh & _ & _ & _ & _ & _ & _ & Hsshd & _).
  split; [|split].
  - apply (Hloop {| stage := ResolveImage; status := 0;
                    env_at := trusted_env;
                    after := {| image_useLoopMount := 1;
                                done := [LoadSiteConfig; ResolveImage] |} |}).
    + vm_compute. tauto.
    + reflexivity.
    + reflexivity.
    + discriminate.
  - apply (Hssh 0 ssh_config [] ssh_argv_parsed).
    + exists {| stage := MountVFS; status := 0; env_at := trusted_env;
                after := {| image_useLoopMount := 1;
                            done := [LoadSiteConfig; ResolveImage;
                                     LoopAttach; MountVFS] |} |}.
      split; [vm_compute; tauto|split; reflexivity].
    + repeat split; try discriminate; eexists; (split; [reflexivity|discriminate]).
  - apply Hsshd.
    exists {| stage := SshSetup; status := 0; env_at := trusted_env;
              after := {| image_useLoopMount := 1;
                          done := [LoadSiteConfig; ResolveImage;
                                   LoopAttach; MountVFS; SshSetup] |} |}.
    split; [vm_compute; tauto|split; reflexivity].
Defined.

Lemma C2_witness :
  let r := run Machine (scripted (failing SshdStart 3) 0) LP64 ssh_argv
             [] pristine in
  exit_status (fst r) = Some 1 /\ stderr Machine (snd r) = [msg_sshd].
Proof.
  destruct (C2_first_failure_ends_the_run Machine
              (scripted (failing SshdStart 3) 0) LP64 ssh_argv [] pristine)
    as (_ & Hfail & _).
  destruct (Hfail 0 ssh_config [] ssh_argv_parsed) as [Hstage _].
  destruct (Hstage
              (firstn 4 (trace Machine
                 (snd (run Machine (scripted (failing SshdStart 3) 0) LP64
                         ssh_argv [] pristine))))
              {| stage := SshdStart; status := 3; env_at := trusted_env;
                 after := {| image_useLoopMount := 0;
                             done := [LoadSiteConfig; ResolveImage; MountVFS;
                                      SshSetup; SshdStart] |} |}
              [])
    as (Hexit & _ & Herr).
  - vm_compute. reflexivity.
  - discriminate.
  - split; [exact Hexit|exact Herr].
Defined.

Lemma C3_witness :
  env_at Machine
    {| stage := LoadSiteConfig; status := 0; env_at := trusted_env;
       after := {| image_useLoopMount := 0; done := [LoadSiteConfig] |} |}
  = [("PATH", "/usr/bin:/usr/sbin:/bin:/sbin")].
Proof.
  destruct (C3_environment_reset Machine (scripted all_fine 0) LP64
              ["setupRoot"; "docker"; "busybox:latest"]
              [("POSIXLY_CORRECT", "1"); ("LD_PRELOAD", "/tmp/x.so")]
              pristine) as (_ & _ & Hcalls & _).
  apply Hcalls. vm_compute. tauto.
Defined.

(** The two scenarios the specification ends on.  Without SSH options and
    with an image that needs no loop device: site configuration, image,
    view, user mounts, and status 0.  With SSH options and a [startSshd]
    that fails: status 1, and [setupUserMounts] is not called. *)
Example scenario_plain :
  let r := run Machine (scripted all_fine 0) LP64
             ["setupRoot"; "docker"; "busybox:latest"] [] pristine in
  fst r = Returned 0
  /\ done (sys Machine (snd r))
     = [LoadSiteConfig; ResolveImage; MountVFS; ApplyUserMounts].
Proof. vm_compute. split; reflexivity. Qed.

Example scenario_sshd_fails :
  let r := run Machine (scripted (failing SshdStart 1) 1) LP64 ssh_argv []
             pristine in
  fst r = Exited 1
  /\ done (sys Machine (snd r))
     = [LoadSiteConfig; ResolveImage; LoopAttach; MountVFS; SshSetup;
        SshdStart]
  /\ stderr Machine (snd r) = [msg_sshd].
Proof. vm_compute. repeat split. Qed.

(** The inherited environment may set [POSIXLY_CORRECT]: the options
    behind the first operand are read all the same. *)
Example reset_before_parsing :
  fst (run Machine (scripted all_fine 0) LP64
         ["setupRoot"; "docker"; "-V"; "busybox:latest"]
         [("POSIXLY_CORRECT", "1")] pristine) = Returned 0
  /\ fst (parse_SetupRootConfig LP64 [("POSIXLY_CORRECT", "1")]
            ["setupRoot"; "docker"; "-V"; "busybox:latest"] zeroed [])
     = Exited 1.
Proof. split; vm_compute; reflexivity. Qed.

(** C8 as stated fails: a malformed volume map ends the process with
    status 1, and all the process has written is the one line that names
    the error; no other line, and so no usage message, is written, for
    [_usage] leaves the streams as they are. *)
Lemma C8_counterexample :
  let r := run Machine (scripted all_fine 0) LP64
             ["setupRoot"; "-v"; "a"; "docker"; "busybox:latest"] []
             pristine in
  fst r = Exited 1
  /\ stderr Machine (snd r) = ["ERROR: invalid format for volume map!"]
  /\ stdout Machine (snd r) = []
  /\ ~ (exists usage,
           In usage (stderr Machine (snd r))
           /\ usage <> "ERROR: invalid format for volume map!")
  /\ _usage 1 (snd r) = (@Exited unit 1, snd r).
Proof.
  vm_compute. repeat split. intros (usage & [<-|[]] & H). now elim H.
Qed.

Lemma C8_witness :
  run Machine (scripted all_fine 0) LP64 ["setupRoot"; "-s"] [] pristine
  = (Exited 1,
     {| environment := trusted_env;
        stderr := [Getopt.requires_argument "setupRoot" "s";
                   msg_missing_argument];
        stdout := []; trace := []; sys := pristine |}).
Proof.
  destruct (C8_parse_failure_exits_with_diagnostic Machine
              (scripted all_fine 0) LP64 ["setupRoot"; "-s"] [] pristine)
    as [Hfail _].
  apply (Hfail 1 [Getopt.requires_argument "setupRoot" "s";
                  msg_missing_argument]).
  vm_compute. reflexivity.
Defined.

(** ** The uid option *)

Lemma strtoul_number_free abi u :
  0 <= ULONG_MAX abi -> number_free u -> Strtoul.strtoul abi u = 0.
Proof.
  intros Habi Hu. unfold Strtoul.strtoul, number_free in *.
  destruct (Strtoul.sign (Strtoul.skip_space u)) as [negative body].
  simpl in Hu.
  assert (Hd : Strtoul.digits body 0 = 0).
  { destruct body as [|c body]; [reflexivity|]. simpl. now rewrite Hu. }
  rewrite Hd. destruct (Z.ltb_spec (ULONG_MAX abi) 0); [lia|].
  destruct negative; reflexivity.
Qed.

(** An option whose argument is the next element of [argv]. *)
Lemma getopt_separate posix prog c (a : string) rest nonopts :
  Getopt.lookup c Getopt.optstring = Some true -> Ascii.eqb c ":" = false ->
  Getopt.getopt posix prog
    {| Getopt.nextchar := ""; Getopt.rest := String "-" (String c "") :: a :: rest;
       Getopt.nonopts := nonopts |}
  = {| Getopt.opt := Some c; Getopt.optarg := Some a; Getopt.diag := [];
       Getopt.next := {| Getopt.nextchar := ""; Getopt.rest := rest;
                         Getopt.nonopts := nonopts |} |}.
Proof.
  intros Hl Hc. unfold Getopt.getopt.
  cbn [Getopt.nextchar Getopt.rest Getopt.nonopts Getopt.skip_operands
       Getopt.is_operand].
  replace (if posix then _ else _)
    with (String "-" (String c "") :: a :: rest, nonopts)
    by (now destruct posix).
  assert (Hd : String.eqb (String "-" (String c "")) "--" = false).
  { apply String.eqb_neq. intros [= ->]. discriminate Hl. }
  rewrite Hd. unfold Getopt.short_option. now rewrite Hc, Hl.
Qed.

Lemma parse_ssh_options abi env prog key name u type identifier :
  Getopt.is_operand type = true -> Getopt.is_operand identifier = true ->
  parse_SetupRootConfig abi env
    [prog; "-s"; key; "-u"; name; "-U"; u; type; identifier] zeroed []
  = (Returned (0, set_image (_filterString (Some type))
                    (_filterString (Some identifier))
                    (set_uid (to_uid_t (Strtoul.strtoul abi u))
                       (set_user (Some name)
                          (set_sshPubKey (Some key) zeroed)))), []).
Proof.
  intros. rewrite parse_unfold. unfold Getopt.start. cbn [tl hd].
  do 3 (rewrite scan_step, getopt_separate by reflexivity;
        cbn [Getopt.opt Getopt.optarg Getopt.diag Getopt.next app switch];
        unfold with_optarg, ret, strdup).
  rewrite scan_operands by (repeat constructor; assumption).
  reflexivity.
Qed.

Lemma parse_uid_option abi env prog u type identifier :
  Getopt.is_operand type = true -> Getopt.is_operand identifier = true ->
  parse_SetupRootConfig abi env [prog; "-U"; u; type; identifier] zeroed []
  = (Returned (0, set_image (_filterString (Some type))
                    (_filterString (Some identifier))
                    (set_uid (to_uid_t (Strtoul.strtoul abi u)) zeroed)), []).
Proof.
  intros. rewrite parse_unfold. unfold Getopt.start. cbn [tl hd].
  rewrite scan_step, getopt_separate by reflexivity.
  cbn [Getopt.opt Getopt.optarg Getopt.diag Getopt.next app switch].
  unfold with_optarg, ret, strdup.
  rewrite scan_operands by (repeat constructor; assumption).
  reflexivity.
Qed.

Section Uid.

Variable Sys : Type.
Variable P : Collaborators Sys.

(** The SSH steps are taken only in runs whose configuration passes the
    test of lines 143-145. *)
Lemma ssh_only_on_request abi argv env s :
  let p := snd (run Sys P abi argv env s) in
  invoked Sys SshSetup (trace Sys p) \/ invoked Sys SshdStart (trace Sys p) ->
  exists config,
    parse_SetupRootConfig abi trusted_env argv zeroed []
    = (Returned (0, config), [])
    /\ ssh_requested config = true.
Proof.
  cbv zeta. destruct (run Sys P abi argv env s) as [o p] eqn:Hr.
  paths Hr; injection Hr as <- <-; simpl.
  all: try (eexists; split; [reflexivity|assumption]).
  all: intros [H|H]; not_invoked H.
Qed.

(** A run in which every call made returns 0 ends with status 0 and has
    written nothing to stderr. *)
Lemma quiet_success abi argv env s config :
  let r := run Sys P abi argv env s in
  parse_SetupRootConfig abi trusted_env argv zeroed []
  = (Returned (0, config), []) ->
  (forall c, In c (trace Sys (snd r)) -> status Sys c = 0) ->
  fst r = Returned 0 /\ stderr Sys (snd r) = [].
Proof.
  cbv zeta. destruct (run Sys P abi argv env s) as [o p] eqn:Hr.
  paths Hr; injection Hr as <- <-; simpl; try discriminate.
  all: intros _ Hall; try (split; reflexivity).
  all: exfalso;
    match goal with
    | Hz : ?r <> 0 |- _ =>
        apply Hz;
        match type of Hall with
        | context [{| stage := ?st; status := r; env_at := ?e; after := ?a |}] =>
            apply (Hall {| stage := st; status := r; env_at := e; after := a |})
        end
    end; simpl; tauto.
Qed.

(** C10, as the code has it.  When the argument of [-U], once leading
    white space and an optional sign are passed, does not start with a
    decimal digit, or when it is "0", the parser returns with uid 0 and
    writes nothing; [setupImageSsh] and [startSshd] are then not called
    although [-s] and [-u] are given, and a run whose calls all return 0
    ends with status 0 and an empty stderr.  Whatever the argument of
    [-U] is, the parser returns. *)
Theorem C10_uid_without_number_is_zero (abi : ABI) (env : environ) (s : Sys)
    (prog key name u type identifier : string) :
  0 <= ULONG_MAX abi ->
  Getopt.is_operand type = true -> Getopt.is_operand identifier = true ->
  number_free u \/ u = "0" ->
  let argv := [prog; "-s"; key; "-u"; name; "-U"; u; type; identifier] in
  let r := run Sys P abi argv env s in
  (exists config,
      parse_SetupRootConfig abi trusted_env argv zeroed []
      = (Returned (0, config), [])
      /\ uid config = 0
      /\ sshPubKey config = Some key /\ user config = Some name)
  /\ ~ invoked Sys SshSetup (trace Sys (snd r))
  /\ ~ invoked Sys SshdStart (trace Sys (snd r))
  /\ ((forall c, In c (trace Sys (snd r)) -> status Sys c = 0) ->
      fst r = Returned 0 /\ stderr Sys (snd r) = [])
  /\ (forall env' u',
         exists config,
           parse_SetupRootConfig abi env' [prog; "-U"; u'; type; identifier]
             zeroed []
           = (Returned (0, config), [])
           /\ uid config = to_uid_t (Strtoul.strtoul abi u')).
Proof.
  intros Habi Htype Hid Hu. cbv zeta.
  assert (Hzero : to_uid_t (Strtoul.strtoul abi u) = 0).
  { destruct Hu as [Hu| ->].
    - now rewrite strtoul_number_free.
    - unfold Strtoul.strtoul. simpl.
      destruct (Z.ltb_spec (ULONG_MAX abi) 0); [lia|reflexivity]. }
  pose proof (parse_ssh_options abi trusted_env prog key name u type identifier
                Htype Hid) as Hp.
  rewrite Hzero in Hp.
  assert (Hno : forall config,
             parse_SetupRootConfig abi trusted_env
               [prog; "-s"; key; "-u"; name; "-U"; u; type; identifier]
               zeroed [] = (Returned (0, config), []) ->
             ssh_requested config = true -> False).
  { intros config Hc. rewrite Hp in Hc. injection Hc as <-.
    unfold ssh_requested. cbn [uid set_image set_uid].
    rewrite andb_false_r. discriminate. }
  split; [|split; [|split; [|split]]].
  - eexists. split; [exact Hp|]. repeat split.
  - intros H.
    destruct (ssh_only_on_request abi _ env s (or_introl H)) as (c & Hc & Hr).
    exact (Hno c Hc Hr).
  - intros H.
    destruct (ssh_only_on_request abi _ env s (or_intror H)) as (c & Hc & Hr).
    exact (Hno c Hc Hr).
  - apply quiet_success with (1 := Hp).
  - intros env' u'. eexists. split; [now apply parse_uid_option|reflexivity].
Qed.

End Uid.

(** C10 as stated fails: "+1000" does not begin with a decimal digit, yet
    the parser records uid 1000 and [setupImageSsh] is called. *)
Lemma C10_counterexample :
  let argv := ["setupRoot"; "-s"; "ssh-rsa AAAA"; "-u"; "alice";
               "-U"; "+1000"; "docker"; "busybox:latest"] in
  let r := run Machine (scripted all_fine 0) LP64 argv [] pristine in
  isdigit "+" = false
  /\ (exists config,
         parse_SetupRootConfig LP64 trusted_env argv zeroed []
         = (Returned (0, config), [])
         /\ uid config = 1000)
  /\ map (stage Machine) (trace Machine (snd r))
     = [LoadSiteConfig; ResolveImage; MountVFS; SshSetup; SshdStart;
        ApplyUserMounts].
Proof.
  cbv zeta. split; [reflexivity|]. split; [|vm_compute; reflexivity].
  eexists. split; [vm_compute; reflexivity|reflexivity].
Qed.

Lemma C10_witness :
  let argv := ["setupRoot"; "-s"; "ssh-rsa AAAA"; "-u"; "alice";
               "-U"; "alice"; "docker"; "busybox:latest"] in
  ~ invoked Machine SshSetup
      (trace Machine
         (snd (run Machine (scripted all_fine 0) LP64 argv [] pristine))).
Proof.
  cbv zeta.
  apply (C10_uid_without_number_is_zero Machine (scripted all_fine 0) LP64
           [] pristine "setupRoot" "ssh-rsa AAAA" "alice" "alice" "docker"
           "busybox:latest").
  - vm_compute. discriminate.
  - reflexivity.
  - reflexivity.
  - left. reflexivity.
Defined.

(** ** The volume map *)

Lemma tokens_skip_delims d s : tokens d (skip_delims d s) = tokens d s.
Proof.
  induction s as [|c s IH]; [reflexivity|]. simpl skip_delims.
  destruct (Ascii.eqb c d) eqn:E; [|reflexivity].
  rewrite IH. unfold tokens. simpl. now rewrite E.
Qed.

Lemma fields_cut_token d s :
  fields d s = fst (cut_token d s)
               :: match snd (cut_token d s) with
                  | Some r => fields d r
                  | None => []
                  end.
Proof.
  induction s as [|c s IH]; [reflexivity|]. simpl.
  destruct (Ascii.eqb c d); [reflexivity|].
  rewrite IH. destruct (cut_token d s) as [tok r]. reflexivity.
Qed.

Lemma tokens_cut_token d c s :
  Ascii.eqb c d = false ->
  tokens d (String c s)
  = fst (cut_token d (String c s))
    :: tokens d (text (snd (cut_token d (String c s)))).
Proof.
  intros E. unfold tokens at 1. rewrite fields_cut_token.
  simpl. rewrite E. destruct (cut_token d s) as [tok r]. simpl.
  destruct r as [r|]; reflexivity.
Qed.

Lemma strtok_some d s c s1 :
  skip_delims d s = String c s1 ->
  strtok d (Some s)
  = (Some (fst (cut_token d (String c s1))), snd (cut_token d (String c s1))).
Proof.
  intros H. unfold strtok. rewrite H.
  now destruct (cut_token d (String c s1)).
Qed.

Lemma strtok_none d s :
  skip_delims d s = "" -> strtok d (Some s) = (None, None).
Proof. intros H. unfold strtok. now rewrite H. Qed.

Lemma skip_delims_head d s :
  match skip_delims d s with
  | String c _ => Ascii.eqb c d = false
  | EmptyString => True
  end.
Proof.
  induction s as [|c s IH]; [exact I|]. simpl.
  destruct (Ascii.eqb c d) eqn:E; [exact IH|exact E].
Qed.

(** One call of [strtok] hands over the first non-empty field of what is
    left, and leaves the fields after it. *)
Lemma strtok_tokens d saved :
  fst (strtok d saved) = hd_error (tokens d (text saved))
  /\ tokens d (text (snd (strtok d saved))) = tl (tokens d (text saved)).
Proof.
  destruct saved as [s|]; [|split; reflexivity].
  change (text (Some s)) with s.
  rewrite <- (tokens_skip_delims d s).
  pose proof (skip_delims_head d s) as Hhead.
  destruct (skip_delims d s) as [|c s1] eqn:Hskip.
  - rewrite (strtok_none d s Hskip). split; reflexivity.
  - rewrite (strtok_some d s c s1 Hskip), (tokens_cut_token d c s1 Hhead).
    split; reflexivity.
Qed.

(** The three calls of lines 177-179. *)
Lemma strtok_thrice (optarg : string) :
  let (from, saved1) := strtok ":" (Some optarg) in
  let (to, saved2) := strtok ":" saved1 in
  let (flags, _) := strtok ":" saved2 in
  from = nth_error (components optarg) 0
  /\ to = nth_error (components optarg) 1
  /\ flags = nth_error (components optarg) 2.
Proof.
  unfold components.
  destruct (strtok_tokens ":" (Some optarg)) as [H1 H1'].
  destruct (strtok ":" (Some optarg)) as [from saved1]. simpl in H1, H1'.
  destruct (strtok_tokens ":" saved1) as [H2 H2'].
  destruct (strtok ":" saved1) as [to saved2]. simpl in H2, H2'.
  destruct (strtok_tokens ":" saved2) as [H3 _].
  destruct (strtok ":" saved2) as [flags saved3]. simpl in H3.
  rewrite H2' in H3. rewrite H1' in H2, H3. subst.
  destruct (tokens ":" optarg) as [|a [|b [|c l]]]; repeat split.
Qed.

Lemma case_v_malformed abi optarg config w :
  (List.length (components optarg) < 2)%nat ->
  case_v abi (Some optarg) config w
  = (Exited 1, (w ++ [msg_volume_format])%list).
Proof.
  intros Hlen. unfold case_v. pose proof (strtok_thrice optarg) as H.
  destruct (strtok ":" (Some optarg)) as [from saved1].
  destruct (strtok ":" saved1) as [to saved2].
  destruct (strtok ":" saved2) as [flags saved3].
  destruct H as (-> & -> & _).
  destruct (components optarg) as [|a [|b l]]; simpl in *; try reflexivity.
  lia.
Qed.

(** *** Well-formed entries *)

Lemma fields_word d (f rest : string) :
  ~ In d (list_ascii_of_string f) ->
  fields d (f ++ String d rest) = f :: fields d rest.
Proof.
  induction f as [|c f IH]; intros Hf; simpl.
  - now rewrite Ascii.eqb_refl.
  - simpl in Hf. destruct (Ascii.eqb_spec c d) as [->|_]; [tauto|].
    rewrite IH by tauto. reflexivity.
Qed.

Lemma fields_last d (f : string) :
  ~ In d (list_ascii_of_string f) -> fields d f = [f].
Proof.
  induction f as [|c f IH]; intros Hf; simpl; [reflexivity|].
  simpl in Hf. destruct (Ascii.eqb_spec c d) as [->|_]; [tauto|].
  rewrite IH by tauto. reflexivity.
Qed.

Lemma nonempty_word (s : string) : word s -> nonempty s = true.
Proof. intros [H _]. destruct s; [now elim H|reflexivity]. Qed.

Lemma components_render (e : entry) :
  well_formed e ->
  components (render e)
  = fst (fst e) :: snd (fst e)
    :: match snd e with
       | Some fl => [fl]
       | None => []
       end.
Proof.
  destruct e as [[from to] [fl|]]; simpl; intros (Hf & Ht & Hfl);
    unfold components, tokens.
  - rewrite (fields_word ":" from) by apply Hf.
    rewrite (fields_word ":" to) by apply Ht.
    rewrite (fields_last ":" fl) by apply Hfl.
    simpl. now rewrite !nonempty_word.
  - rewrite (fields_word ":" from) by apply Hf.
    rewrite append_empty, (fields_last ":" to) by apply Ht.
    simpl. now rewrite !nonempty_word.
Qed.

(** *** The three arrays *)

Lemma update_middle {A} (vals : list A) (x v : A) (pad : list A) :
  update (List.length vals) v (vals ++ x :: pad) = (vals ++ v :: pad)%list.
Proof.
  induction vals as [|a vals IH]; simpl; [reflexivity|]. now rewrite IH.
Qed.

Lemma store_inside (bytes : Z) (vals : list (option string))
    (x v : option string) (pad : list (option string)) (i : Z) :
  i = Z.of_nat (List.length vals) ->
  store (Some {| size := bytes; cells := (vals ++ x :: pad)%list |}) i v
  = Some {| size := bytes; cells := (vals ++ v :: pad)%list |}.
Proof.
  intros ->. unfold store. cbn [cells size].
  rewrite length_app. cbn [List.length].
  destruct (Z.leb_spec 0 (Z.of_nat (List.length vals))); [|lia].
  destruct (Z.ltb_spec (Z.of_nat (List.length vals))
              (Z.of_nat (List.length vals + S (List.length pad)))); [|lia].
  cbn [andb]. now rewrite Nat2Z.id, update_middle.
Qed.

Lemma store_next (bytes : Z) (vals : list (option string))
    (x y v : option string) (pad : list (option string)) (i : Z) :
  i = Z.of_nat (List.length vals) + 1 ->
  store (Some {| size := bytes; cells := (vals ++ x :: y :: pad)%list |}) i v
  = Some {| size := bytes; cells := ((vals ++ [x]) ++ v :: pad)%list |}.
Proof.
  intros Hi.
  replace (vals ++ x :: y :: pad)%list with ((vals ++ [x]) ++ y :: pad)%list
    by (now rewrite <- app_assoc).
  apply store_inside. rewrite length_app. simpl. lia.
Qed.

Lemma store_outside (bytes : Z) (l : list (option string)) (i : Z)
    (v : option string) :
  Z.of_nat (List.length l) <= i ->
  store (Some {| size := bytes; cells := l |}) i v = None.
Proof.
  intros H. unfold store. cbn [cells].
  destruct (Z.ltb_spec i (Z.of_nat (List.length l))); [lia|].
  now rewrite andb_false_r.
Qed.

Lemma realloc_fresh (abi : ABI) :
  realloc abi None VOLUME_ALLOC_BLOCK
  = Some {| size := VOLUME_ALLOC_BLOCK; cells := repeat None (cap abi) |}.
Proof.
  unfold realloc, cap. simpl. now rewrite Nat.sub_0_r.
Qed.

Lemma realloc_same (abi : ABI) (l : list (option string)) :
  List.length l = cap abi ->
  realloc abi (Some {| size := VOLUME_ALLOC_BLOCK; cells := l |})
    VOLUME_ALLOC_BLOCK
  = Some {| size := VOLUME_ALLOC_BLOCK; cells := l |}.
Proof.
  intros H. unfold realloc. fold (cap abi). cbn [cells].
  rewrite <- H, firstn_all, Nat.sub_diag. simpl. now rewrite app_nil_r.
Qed.

(** Lines 187-201 on the arrays as the loop keeps them: [realloc] is
    called each time, with 10 bytes each time, for [volumeMap_capacity]
    stays 0. *)
Lemma grow_holds abi entries config w :
  holds abi entries config ->
  exists rF rT rFl,
    grow abi (Z.of_nat (List.length entries)) config w
    = (Returned
         (set_ptrs (Z.of_nat (List.length entries))
            (Z.of_nat (List.length entries)) (Z.of_nat (List.length entries))
            (set_arrays
               (Some {| size := VOLUME_ALLOC_BLOCK;
                        cells := (map (fun e => Some (fst (fst e))) entries
                                  ++ rF)%list |})
               (Some {| size := VOLUME_ALLOC_BLOCK;
                        cells := (map (fun e => Some (snd (fst e))) entries
                                  ++ rT)%list |})
               (Some {| size := VOLUME_ALLOC_BLOCK;
                        cells := (map snd entries ++ rFl)%list |})
               config)), w)
    /\ (List.length entries + List.length rF = cap abi)%nat
    /\ (List.length entries + List.length rT = cap abi)%nat
    /\ (List.length entries + List.length rFl = cap abi)%nat.
Proof.
  intros (Hcap & _ & _ & _ & Hnone & Hsome). unfold grow. rewrite Hcap.
  replace (is_null (volumeMapFrom config)
           || (0 <=? Z.of_nat (List.length entries) + 2)) with true
    by (symmetry; apply orb_true_iff; right; apply Z.leb_le; lia).
  change (0 + VOLUME_ALLOC_BLOCK) with VOLUME_ALLOC_BLOCK.
  destruct entries as [|e entries].
  - destruct (Hnone eq_refl) as (-> & -> & ->). rewrite realloc_fresh.
    exists (repeat None (cap abi)), (repeat None (cap abi)),
      (repeat None (cap abi)).
    rewrite repeat_length. simpl. auto.
  - destruct Hsome as ((pF & -> & HF) & (pT & -> & HT) & (pFl & -> & HFl));
      [discriminate|].
    rewrite !realloc_same by assumption.
    exists (None :: pF), (None :: pT), (None :: pFl).
    rewrite length_app, length_map in HF, HT, HFl. auto.
Qed.

Ltac case_v_start abi e config w Hwf Hholds :=
  unfold case_v; pose proof (strtok_thrice (render e)) as Htok;
  rewrite (components_render e Hwf) in Htok;
  destruct (strtok ":" (Some (render e))) as [from saved1];
  destruct (strtok ":" saved1) as [to saved2];
  destruct (strtok ":" saved2) as [flags saved3];
  destruct Htok as (-> & -> & ->); cbn [nth_error fst snd];
  destruct (Hholds) as (_ & HpF & _);
  rewrite HpF; unfold bind at 1;
  destruct (grow_holds abi _ config w Hholds)
    as (rF & rT & rFl & -> & HlF & HlT & HlFl);
  cbn [volumeMapFrom volumeMapTo volumeMapFlags volumeMapFrom_ptr
       volumeMapTo_ptr volumeMapFlags_ptr set_ptrs set_arrays].

(** One more entry when two cells are free: the entry and the new
    terminator are stored. *)
Lemma case_v_stores abi entries e config w :
  holds abi entries config -> well_formed e ->
  (List.length entries + 2 <= cap abi)%nat ->
  exists config',
    case_v abi (Some (render e)) config w = (Returned config', w)
    /\ holds abi (entries ++ [e]) config'.
Proof.
  intros Hholds Hwf Hroom. destruct e as [[f t] [fl|]].
  all: case_v_start abi (f, t, @None string) config w Hwf Hholds
       || case_v_start abi (f, t, Some fl) config w Hwf Hholds.
  all: destruct rF as [|xF [|yF rF]]; simpl in HlF; try lia.
  all: destruct rT as [|xT [|yT rT]]; simpl in HlT; try lia.
  all: destruct rFl as [|xFl [|yFl rFl]]; simpl in HlFl; try lia.
  all: unfold bind, store_cell, strdup;
    rewrite !store_inside by (now rewrite length_map);
    unfold ret; cbn beta iota;
    rewrite !store_next by (now rewrite length_map);
    (eexists; split; [reflexivity|]);
    unfold holds;
    cbn [volumeMap_capacity volumeMapFrom volumeMapTo volumeMapFlags
         volumeMapFrom_ptr volumeMapTo_ptr volumeMapFlags_ptr set_ptrs
         set_arrays];
    destruct Hholds as (Hcap & _); rewrite !length_app; cbn [List.length];
    (split; [exact Hcap|]); do 3 (split; [lia|]).
  all: (split; [intros Hnil; now destruct entries|]); intros _;
    rewrite !map_app; cbn [map fst snd].
  all: repeat split; eexists; (split; [reflexivity|]);
    rewrite !length_app, length_map; simpl; lia.
Qed.

(** One more entry when fewer than two cells are free: a store leaves
    the block. *)
Lemma case_v_overflows abi entries e config w :
  holds abi entries config -> well_formed e ->
  (cap abi < List.length entries + 2)%nat ->
  case_v abi (Some (render e)) config w = (Undefined, w).
Proof.
  intros Hholds Hwf Hroom. destruct e as [[f t] [fl|]].
  all: case_v_start abi (f, t, @None string) config w Hwf Hholds
       || case_v_start abi (f, t, Some fl) config w Hwf Hholds.
  all: destruct rF as [|xF [|yF rF]]; simpl in HlF; try lia;
    destruct rT as [|xT [|yT rT]]; simpl in HlT; try lia;
    destruct rFl as [|xFl [|yFl rFl]]; simpl in HlFl; try lia;
    unfold bind, store_cell, strdup.
  all: try (rewrite store_outside
              by (rewrite app_nil_r, length_map; lia); reflexivity).
  all: rewrite !store_inside by (now rewrite length_map);
    unfold ret; cbn beta iota;
    rewrite store_outside
      by (rewrite length_app, length_map; cbn [List.length]; lia);
    reflexivity.
Qed.

(** *** The loop over [-v] options *)

Lemma scan_v abi posix prog optarg rest nonopts config w :
  scan abi posix prog
    {| Getopt.nextchar := ""; Getopt.rest := "-v" :: optarg :: rest;
       Getopt.nonopts := nonopts |} config w
  = match case_v abi (Some optarg) config w with
    | (Returned config', w') =>
        scan abi posix prog
          {| Getopt.nextchar := ""; Getopt.rest := rest;
             Getopt.nonopts := nonopts |} config' w'
    | (Exited n, w') => (Exited n, w')
    | (Undefined, w') => (Undefined, w')
    end.
Proof.
  rewrite scan_step, getopt_separate by reflexivity.
  cbn [Getopt.opt Getopt.optarg Getopt.diag Getopt.next switch].
  now rewrite app_nil_r.
Qed.

Lemma scan_volumes abi posix prog tail nonopts w entries :
  forall stored config,
    holds abi stored config ->
    Forall well_formed entries ->
    (entries <> [] ->
     List.length stored + List.length entries < cap abi)%nat ->
    exists config',
      holds abi (stored ++ entries) config'
      /\ scan abi posix prog
           {| Getopt.nextchar := "";
              Getopt.rest := (volume_args entries ++ tail)%list;
              Getopt.nonopts := nonopts |} config w
         = scan abi posix prog
             {| Getopt.nextchar := ""; Getopt.rest := tail;
                Getopt.nonopts := nonopts |} config' w.
Proof.
  induction entries as [|e entries IH]; intros stored config Hholds Hwf Hroom.
  - exists config. rewrite app_nil_r. split; [exact Hholds|reflexivity].
  - inversion Hwf as [|? ? He Hes]; subst.
    specialize (Hroom ltac:(discriminate)). cbn [List.length] in Hroom.
    destruct (case_v_stores abi stored e config w Hholds He ltac:(lia))
      as (config1 & Hv & Hholds1).
    destruct (IH (stored ++ [e])%list config1 Hholds1 Hes) as (config' & Hh & Hs).
    { intros _. rewrite length_app. simpl. lia. }
    exists config'. rewrite <- app_assoc in Hh. split; [exact Hh|].
    cbn [volume_args flat_map app]. rewrite scan_v, Hv. exact Hs.
Qed.

Lemma scan_volumes_overflow abi posix prog tail nonopts w entries :
  forall stored config,
    holds abi stored config ->
    Forall well_formed entries ->
    entries <> [] ->
    (cap abi <= List.length stored + List.length entries)%nat ->
    scan abi posix prog
      {| Getopt.nextchar := "";
         Getopt.rest := (volume_args entries ++ tail)%list;
         Getopt.nonopts := nonopts |} config w
    = (Undefined, w).
Proof.
  induction entries as [|e entries IH];
    intros stored config Hholds Hwf Hne Hfull; [now elim Hne|].
  inversion Hwf as [|? ? He Hes]; subst. cbn [List.length] in Hfull.
  cbn [volume_args flat_map app]. rewrite scan_v.
  destruct (Nat.le_gt_cases (List.length stored + 2) (cap abi)) as [Hroom|Hroom].
  - destruct (case_v_stores abi stored e config w Hholds He Hroom)
      as (config1 & -> & Hholds1).
    apply (IH (stored ++ [e])%list config1 Hholds1 Hes).
    + destruct entries; [simpl in Hfull; lia|discriminate].
    + rewrite length_app. simpl. lia.
  - now rewrite (case_v_overflows abi stored e config w Hholds He) by lia.
Qed.

(** What a reader finds in arrays the loop has filled. *)
Lemma walk_filled (entries : list entry) (pF pT pFl : list (option string)) :
  walk (map (fun e => Some (fst (fst e))) entries ++ None :: pF)
       (map (fun e => Some (snd (fst e))) entries ++ None :: pT)
       (map snd entries ++ None :: pFl)
  = entries.
Proof.
  induction entries as [|[[f t] fl] entries IH]; simpl; [reflexivity|].
  now rewrite IH.
Qed.

Lemma holds_volumeMap abi entries config :
  holds abi entries config -> volumeMap config = entries.
Proof.
  intros (_ & _ & _ & _ & Hnone & Hsome). unfold volumeMap.
  destruct entries as [|e entries].
  - destruct (Hnone eq_refl) as (-> & -> & ->). reflexivity.
  - destruct Hsome as ((pF & -> & _) & (pT & -> & _) & (pFl & -> & _));
      [discriminate|].
    cbn [cells_of cells]. apply walk_filled.
Qed.

Lemma holds_zeroed abi : holds abi [] zeroed.
Proof.
  unfold holds. simpl. do 4 (split; [reflexivity|]).
  split; [intros _; repeat split|intros Hne; now elim Hne].
Qed.

Lemma parse_volumes abi env prog entries type identifier :
  Forall well_formed entries ->
  Getopt.is_operand type = true -> Getopt.is_operand identifier = true ->
  (List.length entries < cap abi)%nat ->
  exists config,
    parse_SetupRootConfig abi env (volume_argv prog entries type identifier)
      zeroed [] = (Returned (0, config), [])
    /\ volumeMap config = entries.
Proof.
  intros Hwf Htype Hid Hroom. rewrite parse_unfold.
  unfold volume_argv, Getopt.start. cbn [hd tl].
  destruct (scan_volumes abi (defines "POSIXLY_CORRECT" env) prog
              [type; identifier] [] [] entries [] zeroed (holds_zeroed abi) Hwf)
    as (config & Hholds & ->); [simpl; lia|].
  rewrite scan_operands by (repeat constructor; assumption).
  cbn [Getopt.nonopts app List.length nth_error]. simpl Z.eqb. cbv iota.
  eexists. split; [reflexivity|].
  simpl in Hholds. apply holds_volumeMap in Hholds. exact Hholds.
Qed.

Lemma parse_volumes_overflow abi env prog entries type identifier :
  Forall well_formed entries ->
  entries <> [] ->
  (cap abi <= List.length entries)%nat ->
  parse_SetupRootConfig abi env (volume_argv prog entries type identifier)
    zeroed [] = (Undefined, []).
Proof.
  intros Hwf Hne Hfull. rewrite parse_unfold.
  unfold volume_argv, Getopt.start. cbn [hd tl].
  now rewrite (scan_volumes_overflow abi _ prog [type; identifier] [] []
                 entries [] zeroed (holds_zeroed abi) Hwf Hne)
    by (simpl; lia).
Qed.

Lemma cap_bound abi : 0 < sizeof_ptr abi -> (cap abi <= 10)%nat.
Proof.
  intros H. unfold cap, cell_count, VOLUME_ALLOC_BLOCK.
  assert (10 / sizeof_ptr abi <= 10).
  { apply Z.div_le_upper_bound; [exact H|]. nia. }
  lia.
Qed.

(** C5, measured on the code.  [realloc] is asked for 10 bytes at every
    [-v], so each array has [10 / sizeof(char * )] cells whatever the number
    of options.  N well-formed [-v] options give the N entries in their
    order as long as N is below that number of cells; from that number
    on, the store of an entry or of the terminating NULL leaves the
    block.  With cells of one byte or more, ten options are always too
    many. *)
Theorem C5_volume_map_capacity (abi : ABI) (env : environ) (prog : string)
    (entries : list entry) (type identifier : string) :
  Forall well_formed entries ->
  Getopt.is_operand type = true -> Getopt.is_operand identifier = true ->
  ((List.length entries < cap abi)%nat ->
   exists config,
     parse_SetupRootConfig abi env
       (volume_argv prog entries type identifier) zeroed []
     = (Returned (0, config), [])
     /\ volumeMap config = entries)
  /\ (entries <> [] -> (cap abi <= List.length entries)%nat ->
      parse_SetupRootConfig abi env
        (volume_argv prog entries type identifier) zeroed []
      = (Undefined, []))
  /\ (0 < sizeof_ptr abi -> (10 <= List.length entries)%nat ->
      parse_SetupRootConfig abi env
        (volume_argv prog entries type identifier) zeroed []
      = (Undefined, [])).
Proof.
  intros Hwf Htype Hid. split; [|split].
  - now apply parse_volumes.
  - now apply parse_volumes_overflow.
  - intros Hptr Hten. apply parse_volumes_overflow; [exact Hwf| |].
    + destruct entries; [simpl in Hten; lia|discriminate].
    + pose proof (cap_bound abi Hptr). lia.
Qed.

Lemma well_formed_a_b : well_formed ("a", "b", None).
Proof.
  repeat split; try discriminate; intros [H|[]]; discriminate H.
Qed.

Lemma well_formed_a_b_ro : well_formed ("a", "b", Some "ro").
Proof.
  repeat split; try discriminate; intros H; simpl in H;
    repeat (destruct H as [H|H]; [discriminate H|]); exact H.
Qed.

Lemma C5_witness :
  parse_SetupRootConfig LP64 trusted_env
    ["setupRoot"; "-v"; "a:b"; "docker"; "busybox:latest"] zeroed []
  = (Undefined, [])
  /\ parse_SetupRootConfig ILP32 trusted_env
       ["setupRoot"; "-v"; "a:b"; "-v"; "a:b:ro"; "docker"; "busybox:latest"]
       zeroed []
     = (Undefined, [])
  /\ exists config,
      parse_SetupRootConfig ILP32 trusted_env
        ["setupRoot"; "-v"; "a:b:ro"; "docker"; "busybox:latest"] zeroed []
      = (Returned (0, config), [])
      /\ volumeMap config = [("a", "b", Some "ro")].
Proof.
  split; [|split].
  - apply (proj1 (proj2 (C5_volume_map_capacity LP64 trusted_env "setupRoot"
                           [("a", "b", None)] "docker" "busybox:latest"
                           (Forall_cons _ well_formed_a_b (Forall_nil _))
                           eq_refl eq_refl))).
    + discriminate.
    + vm_compute. lia.
  - apply (proj1 (proj2 (C5_volume_map_capacity ILP32 trusted_env "setupRoot"
                           [("a", "b", None); ("a", "b", Some "ro")]
                           "docker" "busybox:latest"
                           (Forall_cons _ well_formed_a_b
                              (Forall_cons _ well_formed_a_b_ro (Forall_nil _)))
                           eq_refl eq_refl))).
    + discriminate.
    + vm_compute. lia.
  - apply (proj1 (C5_volume_map_capacity ILP32 trusted_env "setupRoot"
                    [("a", "b", Some "ro")] "docker" "busybox:latest"
                    (Forall_cons _ well_formed_a_b_ro (Forall_nil _))
                    eq_refl eq_refl)).
    vm_compute. lia.
Defined.

(** *** No entry without its two parts *)

Lemma update_Forall {A} (Q : A -> Prop) (l : list A) :
  forall i v, Forall Q l -> Q v -> Forall Q (update i v l).
Proof.
  induction l as [|x l IH]; intros i v Hl Hv; [simpl; constructor|].
  inversion Hl; subst. destruct i; simpl; constructor; auto.
Qed.

Lemma store_Forall (Q : option string -> Prop) base i v b :
  store base i v = Some b ->
  Forall Q (cells_of base) -> Q v -> Forall Q (cells b).
Proof.
  unfold store. destruct base as [b0|]; [|discriminate].
  destruct (_ && _); [|discriminate].
  intros [= <-] Hl Hv. simpl. now apply update_Forall.
Qed.

Lemma firstn_Forall {A} (Q : A -> Prop) (n : nat) :
  forall l, Forall Q l -> Forall Q (firstn n l).
Proof.
  induction n as [|n IH]; intros [|x l] H; simpl; try constructor;
    inversion H; subst; auto.
Qed.

Lemma realloc_Forall (Q : option string -> Prop) abi base bytes b :
  realloc abi base bytes = Some b ->
  Forall Q (cells_of base) -> Q None -> Forall Q (cells b).
Proof.
  unfold realloc. intros [= <-] Hl Hn. simpl.
  apply Forall_app. split.
  - destruct base as [b0|]; [|constructor]. now apply firstn_Forall.
  - apply Forall_forall. intros x Hx. apply repeat_spec in Hx. now subst.
Qed.

Lemma strtok_not_empty d saved tok :
  fst (strtok d saved) = Some tok -> tok <> "".
Proof.
  destruct (strtok_tokens d saved) as [-> _]. unfold tokens.
  destruct (filter nonempty (fields d (text saved))) as [|t l] eqn:Hf;
    [discriminate|].
  intros [= <-].
  assert (Hin : In t (filter nonempty (fields d (text saved))))
    by (rewrite Hf; now left).
  apply filter_In in Hin. destruct Hin as [_ Hn]. now destruct t.
Qed.

Lemma grow_sound abi cnt config w config' w' :
  grow abi cnt config w = (Returned config', w') ->
  sound config -> sound config'.
Proof.
  unfold grow. destruct (_ || _).
  - destruct (realloc abi (volumeMapFrom config) _) as [f|] eqn:Hf;
      [|discriminate].
    destruct (realloc abi (volumeMapTo config) _) as [t|] eqn:Ht;
      [|discriminate].
    destruct (realloc abi (volumeMapFlags config) _) as [fl|]; [|discriminate].
    intros [= <- _] [HF HT]. split; simpl.
    + eapply realloc_Forall; [exact Hf|exact HF|discriminate].
    + eapply realloc_Forall; [exact Ht|exact HT|discriminate].
  - now intros [= <- _].
Qed.

Lemma case_v_sound abi optarg config w config' w' :
  case_v abi optarg config w = (Returned config', w') ->
  sound config -> sound config'.
Proof.
  unfold case_v.
  pose proof (strtok_not_empty ":" optarg) as Hfrom.
  destruct (strtok ":" optarg) as [from saved1].
  pose proof (strtok_not_empty ":" saved1) as Hto.
  destruct (strtok ":" saved1) as [to saved2].
  destruct (strtok ":" saved2) as [flags saved3].
  destruct from as [from|]; [destruct to as [to|]|]; try discriminate.
  specialize (Hfrom from eq_refl). specialize (Hto to eq_refl).
  unfold bind at 1.
  destruct (grow abi (volumeMapFrom_ptr config) config w)
    as [[config1|n|] w1] eqn:Hg; try discriminate.
  intros Hres Hsound. apply (grow_sound _ _ _ _ _ _ Hg) in Hsound.
  destruct Hsound as [HF HT].
  unfold bind, store_cell, strdup, ret, undefined in Hres.
  repeat match type of Hres with
         | context [store ?b ?i ?v] =>
             let E := fresh "Hst" in
             destruct (store b i v) eqn:E; cbn beta iota in Hres;
             [|discriminate Hres]
         end.
  injection Hres as <- _. split; simpl.
  - eapply store_Forall; [eassumption| |discriminate].
    simpl. eapply store_Forall; [eassumption|exact HF|].
    intros [= ->]. now elim Hfrom.
  - eapply store_Forall; [eassumption| |discriminate].
    simpl. eapply store_Forall; [eassumption|exact HT|].
    intros [= ->]. now elim Hto.
Qed.

Lemma switch_sound abi c optarg config w config' w' :
  switch abi c optarg config w = (Returned config', w') ->
  sound config -> sound config'.
Proof.
  pose proof (case_v_sound abi optarg config w config' w') as Hv.
  destruct c as [[] [] [] [] [] [] [] []]; cbn [switch];
    try exact Hv;
    unfold with_optarg, bind, ret, undefined, fprintf_stderr, modify, _usage,
      exit;
    try discriminate;
    try (destruct optarg; [|discriminate]);
    now intros [= <- _].
Qed.

Lemma scan_sound abi posix prog g config written :
  forall config' g' w,
    scan abi posix prog g config written = (Returned (config', g'), w) ->
    sound config -> sound config'.
Proof.
  funelim (scan abi posix prog g config written); intros c0 g0 w0 Hres Hsound.
  - now injection Hres as <- _ _.
  - eapply H; [exact Hres|]. eapply switch_sound; [exact Heq|exact Hsound].
  - discriminate Hres.
  - discriminate Hres.
Qed.

Lemma walk_sound (from to flags : list (option string)) :
  Forall no_empty_string from -> Forall no_empty_string to ->
  Forall (fun e : entry => fst (fst e) <> "" /\ snd (fst e) <> "")
         (walk from to flags).
Proof.
  revert to flags.
  induction from as [|[f|] from IH]; intros to flags HF HT; simpl;
    try constructor.
  - destruct to as [|[t|] to]; try constructor.
    destruct flags as [|fl flags]; try constructor.
    + inversion HF; inversion HT; subst. unfold no_empty_string in *.
      simpl. split; congruence.
    + inversion HF; inversion HT; subst. now apply IH.
Qed.

Lemma parse_sound abi env argv rc config w :
  parse_SetupRootConfig abi env argv zeroed [] = (Returned (rc, config), w) ->
  Forall (fun e : entry => fst (fst e) <> "" /\ snd (fst e) <> "")
         (volumeMap config).
Proof.
  rewrite parse_unfold.
  destruct (scan _ _ _ _ _ _) as [[[c g]|n|] w0] eqn:Hs; try discriminate.
  destruct (Z.of_nat _ =? 2); [|discriminate].
  intros [= _ <- _].
  apply scan_sound in Hs; [|split; constructor].
  destruct Hs as [HF HT]. unfold volumeMap. simpl. now apply walk_sound.
Qed.

(** C6, measured on the code.  A [-v] whose argument has fewer than two
    non-empty fields between colons ends the process with status 1, and
    whenever the parser returns, every entry of the volume map has a from
    and a to that are not empty.  A well-formed [-v from:to[:flags]] alone
    gives the one entry with these parts where the 10 bytes hold two
    cells; where they hold fewer, the terminating NULL is stored outside
    the block. *)
Theorem C6_volume_option (abi : ABI) (env : environ) (prog : string) :
  (forall from to flags type identifier,
      well_formed (from, to, flags) ->
      Getopt.is_operand type = true -> Getopt.is_operand identifier = true ->
      ((2 <= cap abi)%nat ->
       exists config,
         parse_SetupRootConfig abi env
           [prog; "-v"; render (from, to, flags); type; identifier] zeroed []
         = (Returned (0, config), [])
         /\ volumeMap config = [(from, to, flags)])
      /\ ((cap abi < 2)%nat ->
          parse_SetupRootConfig abi env
            [prog; "-v"; render (from, to, flags); type; identifier] zeroed []
          = (Undefined, [])))
  /\ (forall optarg more,
         (List.length (components optarg) < 2)%nat ->
         parse_SetupRootConfig abi env (prog :: "-v" :: optarg :: more)
           zeroed []
         = (Exited 1, [msg_volume_format]))
  /\ (forall argv rc config w,
         parse_SetupRootConfig abi env argv zeroed []
         = (Returned (rc, config), w) ->
         Forall (fun e : entry => fst (fst e) <> "" /\ snd (fst e) <> "")
                (volumeMap config)).
Proof.
  split; [|split].
  - intros from to flags type identifier Hwf Htype Hid. split; intros Hcap.
    + apply (parse_volumes abi env prog [(from, to, flags)] type identifier);
        [exact (Forall_cons _ Hwf (Forall_nil _))|assumption..|simpl; lia].
    + apply (parse_volumes_overflow abi env prog [(from, to, flags)]
               type identifier);
        [exact (Forall_cons _ Hwf (Forall_nil _))|discriminate|simpl; lia].
  - intros optarg more Hlen. rewrite parse_unfold.
    unfold Getopt.start. cbn [hd tl].
    now rewrite scan_v, case_v_malformed.
  - intros argv rc config w. apply parse_sound.
Qed.

Lemma C6_witness :
  parse_SetupRootConfig LP64 trusted_env
    ["setupRoot"; "-v"; "a:b"; "docker"; "busybox:latest"] zeroed []
  = (Undefined, [])
  /\ (exists config,
         parse_SetupRootConfig ILP32 trusted_env
           ["setupRoot"; "-v"; "a:b"; "docker"; "busybox:latest"] zeroed []
         = (Returned (0, config), [])
         /\ volumeMap config = [("a", "b", None)])
  /\ parse_SetupRootConfig LP64 trusted_env
       ["setupRoot"; "-v"; "a"; "docker"; "busybox:latest"] zeroed []
     = (Exited 1, [msg_volume_format]).
Proof.
  split; [|split].
  - apply (proj2 (proj1 (C6_volume_option LP64 trusted_env "setupRoot")
                    "a" "b" None "docker" "busybox:latest"
                    well_formed_a_b eq_refl eq_refl)).
    vm_compute. lia.
  - apply (proj1 (proj1 (C6_volume_option ILP32 trusted_env "setupRoot")
                    "a" "b" None "docker" "busybox:latest"
                    well_formed_a_b eq_refl eq_refl)).
    vm_compute. lia.
  - apply (proj1 (proj2 (C6_volume_option LP64 trusted_env "setupRoot"))
             "a" ["docker"; "busybox:latest"]).
    vm_compute. lia.
Defined.

(** * Properties the code has beyond its specification *)

(** ** The filter and the length of what it returns *)

Lemma keep_permitted_app (a b : string) :
  keep_permitted (a ++ b) = keep_permitted a ++ keep_permitted b.
Proof.
  induction a as [|c a IH]; [reflexivity|].
  change (String c a ++ b) with (String c (a ++ b)).
  rewrite !keep_permitted_String, IH. now destruct (permitted c).
Qed.

Lemma keep_permitted_count (s : string) :
  strlen (keep_permitted s) + Z.of_nat (List.length (dropped s)) = strlen s.
Proof.
  unfold dropped. induction s as [|c s IH]; [reflexivity|].
  rewrite keep_permitted_String, strlen_String.
  cbn [list_ascii_of_string filter].
  destruct (permitted c); cbn [negb List.length]; [rewrite strlen_String|]; lia.
Qed.

Lemma dropped_none (s : string) : dropped s = [] <-> all_permitted s.
Proof.
  unfold dropped, all_permitted.
  induction (list_ascii_of_string s) as [|c l IH].
  - split; [constructor|reflexivity].
  - cbn [filter]. destruct (permitted c) eqn:Hc; cbn [negb].
    + rewrite IH. split; [now constructor|now inversion 1].
    + split; [discriminate|]. inversion 1; congruence.
Qed.

Lemma clean_iff (s : string) : clean s = true <-> all_permitted s.
Proof.
  unfold clean, all_permitted. rewrite forallb_forall, Forall_forall.
  reflexivity.
Qed.

(** X1.  The string [_filterString] returns is shorter than its input by
    the number of characters that fail the test of line 323: it is never
    longer, so the terminator of line 328 is stored inside the
    [strlen(input) + 1] bytes of line 317, and it is the input itself
    exactly when no character fails the test. *)
Theorem X1_filterString_length (input : string) :
  exists out,
    _filterString (Some input) = Some out
    /\ strlen out + Z.of_nat (List.length (dropped input)) = strlen input
    /\ strlen out < strlen input + 1
    /\ (out = input <-> dropped input = []).
Proof.
  exists (keep_permitted input). split; [apply filterString_keeps|].
  pose proof (keep_permitted_count input) as Hc.
  split; [exact Hc|]. split; [lia|]. split.
  - intros H. rewrite H in Hc.
    destruct (dropped input); [reflexivity|simpl in Hc; lia].
  - intros H. now apply keep_permitted_clean, dropped_none.
Qed.

(** X2.  The filter works character by character: what it returns for a
    concatenation is the concatenation of what it returns for the two
    parts. *)
Theorem X2_filterString_concatenation (a b : string) :
  exists fa fb,
    _filterString (Some a) = Some fa /\ _filterString (Some b) = Some fb
    /\ _filterString (Some (a ++ b)) = Some (fa ++ fb).
Proof.
  exists (keep_permitted a), (keep_permitted b).
  rewrite !filterString_keeps, keep_permitted_app. repeat split.
Qed.

(** ** An option that is not one of the six *)

Lemma lookup_unknown (c : ascii) :
  ~ In c (list_ascii_of_string "vsuUNV") ->
  (if Ascii.eqb c ":" then None else Getopt.lookup c Getopt.optstring) = None.
Proof.
  intros Hc. destruct (Ascii.eqb c ":") eqn:Hcolon; [reflexivity|].
  unfold Getopt.optstring. simpl in *.
  repeat match goal with
         | |- context [Ascii.eqb c ?x] =>
             destruct (Ascii.eqb_spec c x); [subst c|]
         end; try discriminate; try reflexivity; tauto.
Qed.

(** X3.  When the first argument starts with '-' and a character that is
    none of v, s, u, U, N and V (and is not "--"), the parser ends the
    process with status 1; stderr then holds the line of [getopt] about the
    invalid option and the line "Missing an argument!" of the case '?',
    which is the same for an unknown option as for a missing argument. *)
Theorem X3_unknown_option (abi : ABI) (env : environ) (prog : string)
    (c : ascii) (nc : string) (more : list string) :
  ~ In c (list_ascii_of_string "vsuUNV") ->
  String c nc <> "-" ->
  parse_SetupRootConfig abi env (prog :: String "-" (String c nc) :: more)
    zeroed []
  = (Exited 1, [Getopt.invalid_option prog c; msg_missing_argument]).
Proof.
  intros Hc Hdash. rewrite parse_unfold, scan_step.
  unfold Getopt.start, Getopt.getopt.
  cbn [tl hd Getopt.nextchar Getopt.rest Getopt.nonopts Getopt.skip_operands
       Getopt.is_operand].
  replace (if defines "POSIXLY_CORRECT" env then _ else _)
    with (String "-" (String c nc) :: more, @nil string)
    by (now destruct (defines _ _)).
  assert (Hd : String.eqb (String "-" (String c nc)) "--" = false).
  { apply String.eqb_neq. intros [= -> ->]. now elim Hdash. }
  rewrite Hd. unfold Getopt.short_option. rewrite (lookup_unknown c Hc).
  reflexivity.
Qed.

Lemma X3_witness :
  parse_SetupRootConfig LP64 [] ["setupRoot"; "-x"; "docker"; "busybox"]
    zeroed []
  = (Exited 1, ["setupRoot: invalid option -- 'x'" ++ newline;
                "Missing an argument!" ++ newline]).
Proof.
  apply (X3_unknown_option LP64 [] "setupRoot" "x" "" ["docker"; "busybox"]).
  - intros H. simpl in H. repeat (destruct H as [H|H]; [discriminate H|]).
    exact H.
  - discriminate.
Defined.

(** ** What the option loop keeps true *)

(** A property of the configuration that every case of the [switch]
    keeps is kept by the whole loop. *)
Lemma scan_invariant (Q : SetupRootConfig -> Prop) abi posix prog :
  (forall c optarg config w config' w',
      switch abi c optarg config w = (Returned config', w') ->
      Q config -> Q config') ->
  forall g config written config' g' w,
    scan abi posix prog g config written = (Returned (config', g'), w) ->
    Q config -> Q config'.
Proof.
  intros Hswitch g config written.
  funelim (scan abi posix prog g config written); intros c0 g0 w0 Hres HQ.
  - now injection Hres as <- _ _.
  - eapply H; [exact Hswitch|exact Hres|].
    eapply Hswitch; [exact Heq|exact HQ].
  - discriminate Hres.
  - discriminate Hres.
Qed.

Lemma cut_token_free d s : ~ In d (list_ascii_of_string (fst (cut_token d s))).
Proof.
  induction s as [|c s IH]; simpl; [tauto|].
  destruct (Ascii.eqb_spec c d) as [->|Hne]; [simpl; tauto|].
  destruct (cut_token d s) as [tok r]. simpl in *. intros [H|H]; auto.
Qed.

Lemma strtok_free d saved tok :
  fst (strtok d saved) = Some tok -> ~ In d (list_ascii_of_string tok).
Proof.
  unfold strtok. destruct saved as [s|]; [|discriminate].
  destruct (skip_delims d s) as [|c s1]; [discriminate|].
  pose proof (cut_token_free d (String c s1)) as H.
  destruct (cut_token d (String c s1)) as [t r]. simpl in *.
  now intros [= <-].
Qed.

(** A token of [strtok(_, ":")] is not empty and holds no colon. *)
Lemma strtok_word saved tok :
  fst (strtok ":" saved) = Some tok -> word tok.
Proof.
  intros H. split; [eapply strtok_not_empty; exact H|].
  unfold colon_free. eapply strtok_free; exact H.
Qed.

(** The case 'v' reads no more of its argument than the three tokens:
    it does with [optarg] what it does with the three tokens written
    [from:to[:flags]]. *)
Lemma case_v_normal abi optarg config w :
  match strtok ":" optarg with
  | (Some f, saved1) =>
      match strtok ":" saved1 with
      | (Some t, saved2) =>
          well_formed (f, t, fst (strtok ":" saved2))
          /\ case_v abi optarg config w
             = case_v abi (Some (render (f, t, fst (strtok ":" saved2))))
                 config w
      | (None, _) =>
          case_v abi optarg config w
          = (Exited 1, (w ++ [msg_volume_format])%list)
      end
  | (None, _) =>
      case_v abi optarg config w = (Exited 1, (w ++ [msg_volume_format])%list)
  end.
Proof.
  remember (case_v abi optarg config w) as r eqn:Hr. unfold case_v in Hr.
  pose proof (strtok_word optarg) as Hf.
  destruct (strtok ":" optarg) as [[f|] saved1].
  2:{ destruct (strtok ":" saved1) as [to saved2].
      destruct (strtok ":" saved2) as [flags saved3]. exact Hr. }
  pose proof (strtok_word saved1) as Ht.
  destruct (strtok ":" saved1) as [[t|] saved2].
  2:{ destruct (strtok ":" saved2) as [flags saved3]. exact Hr. }
  pose proof (strtok_word saved2) as Hfl.
  destruct (strtok ":" saved2) as [flags saved3]. cbn [fst] in *.
  subst r.
  assert (Hwf : well_formed (f, t, flags)).
  { split; [now apply Hf|]. split; [now apply Ht|].
    destruct flags as [fl|]; [now apply Hfl|exact I]. }
  split; [exact Hwf|].
  unfold case_v. pose proof (strtok_thrice (render (f, t, flags))) as Htok.
  rewrite (components_render _ Hwf) in Htok.
  destruct (strtok ":" (Some (render (f, t, flags)))) as [from' s1].
  destruct (strtok ":" s1) as [to' s2].
  destruct (strtok ":" s2) as [flags' s3].
  destruct Htok as (-> & -> & ->). cbn [nth_error fst snd].
  destruct flags; reflexivity.
Qed.

Lemma case_v_components abi optarg f t more config w :
  components optarg = f :: t :: more ->
  well_formed (f, t, hd_error more)
  /\ case_v abi (Some optarg) config w
     = case_v abi (Some (render (f, t, hd_error more))) config w.
Proof.
  intros Hc. pose proof (strtok_thrice optarg) as Htok.
  pose proof (case_v_normal abi (Some optarg) config w) as Hn.
  destruct (strtok ":" (Some optarg)) as [from saved1].
  destruct (strtok ":" saved1) as [to saved2].
  destruct (strtok ":" saved2) as [flags saved3].
  rewrite Hc in Htok. cbn [nth_error] in Htok.
  destruct Htok as (-> & -> & ->). cbn [fst] in Hn.
  replace (hd_error more) with (nth_error more 0) by (now destruct more).
  exact Hn.
Qed.

Lemma case_v_kept abi optarg config w config' w' :
  case_v abi optarg config w = (Returned config', w') ->
  kept abi config -> kept abi config'.
Proof.
  intros Hres (entries & Hholds & Hwf).
  pose proof (case_v_normal abi optarg config w) as Hn.
  destruct (strtok ":" optarg) as [[f|] saved1]; [|congruence].
  destruct (strtok ":" saved1) as [[t|] saved2]; [|congruence].
  destruct Hn as [He Hn]. rewrite Hn in Hres.
  destruct (Nat.le_gt_cases (List.length entries + 2) (cap abi))
    as [Hroom|Hroom].
  - destruct (case_v_stores abi entries _ config w Hholds He Hroom)
      as (c1 & Hc1 & Hh1).
    rewrite Hc1 in Hres. injection Hres as <- _.
    eexists. split; [exact Hh1|]. apply Forall_app. split; [exact Hwf|].
    exact (Forall_cons _ He (Forall_nil _)).
  - rewrite (case_v_overflows abi entries _ config w Hholds He) in Hres by lia.
    discriminate Hres.
Qed.

(** [holds] looks at the arrays, the pointers and the capacity only. *)
Lemma holds_fields abi entries c c' :
  volumeMap_capacity c' = volumeMap_capacity c ->
  volumeMapFrom_ptr c' = volumeMapFrom_ptr c ->
  volumeMapTo_ptr c' = volumeMapTo_ptr c ->
  volumeMapFlags_ptr c' = volumeMapFlags_ptr c ->
  volumeMapFrom c' = volumeMapFrom c ->
  volumeMapTo c' = volumeMapTo c ->
  volumeMapFlags c' = volumeMapFlags c ->
  holds abi entries c -> holds abi entries c'.
Proof.
  unfold holds. intros -> -> -> -> -> -> ->. exact (fun H => H).
Qed.

Lemma switch_kept abi c optarg config w config' w' :
  switch abi c optarg config w = (Returned config', w') ->
  kept abi config -> kept abi config'.
Proof.
  pose proof (case_v_kept abi optarg config w config' w') as Hv.
  destruct c as [[] [] [] [] [] [] [] []]; cbn [switch];
    try exact Hv;
    unfold with_optarg, bind, ret, undefined, fprintf_stderr, modify, _usage,
      exit;
    try discriminate;
    try (destruct optarg; [|discriminate]);
    intros [= <- _] (entries & Hh & Hwf);
    try (exists entries; split; assumption);
    exists entries; (split; [|exact Hwf]);
    revert Hh; apply holds_fields; reflexivity.
Qed.

Lemma parse_kept abi env argv rc config w :
  parse_SetupRootConfig abi env argv zeroed [] = (Returned (rc, config), w) ->
  holds abi (volumeMap config) config /\ Forall well_formed (volumeMap config).
Proof.
  rewrite parse_unfold.
  destruct (scan _ _ _ _ _ _) as [[[c g]|n|] w0] eqn:Hs; try discriminate.
  destruct (Z.of_nat _ =? 2); [|discriminate].
  intros [= _ Hc _].
  apply (scan_invariant (kept abi)) in Hs.
  - destruct Hs as (entries & Hh & Hwf).
    assert (Hh' : holds abi entries config)
      by (subst config; revert Hh; apply holds_fields; reflexivity).
    rewrite (holds_volumeMap abi entries _ Hh'). split; assumption.
  - intros ? ? ? ? ? ?. apply switch_kept.
  - exists []. split; [apply holds_zeroed|constructor].
Qed.

(** The fields the case 'v' leaves as they are. *)
Lemma grow_plain abi cnt config w config' w' :
  grow abi cnt config w = (Returned config', w') ->
  uid config' = uid config /\ verbose config' = verbose config.
Proof.
  unfold grow. destruct (_ || _).
  - destruct (realloc abi (volumeMapFrom config) _); [|discriminate].
    destruct (realloc abi (volumeMapTo config) _); [|discriminate].
    destruct (realloc abi (volumeMapFlags config) _); [|discriminate].
    intros [= <- _]. split; reflexivity.
  - intros [= <- _]. split; reflexivity.
Qed.

Lemma case_v_plain abi optarg config w config' w' :
  case_v abi optarg config w = (Returned config', w') ->
  uid config' = uid config /\ verbose config' = verbose config.
Proof.
  unfold case_v.
  destruct (strtok ":" optarg) as [from saved1].
  destruct (strtok ":" saved1) as [to saved2].
  destruct (strtok ":" saved2) as [flags saved3].
  destruct from as [from|]; [destruct to as [to|]|]; try discriminate.
  unfold bind at 1.
  destruct (grow abi (volumeMapFrom_ptr config) config w)
    as [[config1|n|] w1] eqn:Hg; try discriminate.
  intros Hres. apply grow_plain in Hg.
  unfold bind, store_cell, strdup, ret, undefined in Hres.
  repeat match type of Hres with
         | context [store ?b ?i ?v] =>
             destruct (store b i v); cbn beta iota in Hres;
             [|discriminate Hres]
         end.
  injection Hres as <- _. exact Hg.
Qed.

Lemma switch_in_range abi c optarg config w config' w' :
  switch abi c optarg config w = (Returned config', w') ->
  in_range config -> in_range config'.
Proof.
  assert (Hv : case_v abi optarg config w = (Returned config', w') ->
               in_range config -> in_range config').
  { intros H. apply case_v_plain in H. destruct H as [Hu Hvb].
    unfold in_range. now rewrite Hu, Hvb. }
  destruct c as [[] [] [] [] [] [] [] []]; cbn [switch];
    try exact Hv;
    unfold with_optarg, bind, ret, undefined, fprintf_stderr, modify, _usage,
      exit;
    try discriminate;
    try (destruct optarg; [|discriminate]);
    intros [= <- _] [Hu Hvb]; unfold in_range;
    cbn [uid verbose set_uid set_verbose set_user set_sshPubKey
         set_minNodeSpec];
    try (split; assumption).
  all: first [ split; [exact Hu|now right]
             | split; [|exact Hvb]; unfold to_uid_t;
               apply Z.mod_pos_bound; reflexivity ].
Qed.

(** The image fields of a returned configuration are what the filter
    made of two operands. *)
Lemma parse_in_range abi env argv rc config w :
  parse_SetupRootConfig abi env argv zeroed [] = (Returned (rc, config), w) ->
  in_range config
  /\ exists type identifier,
       imageType config = Some (keep_permitted type)
       /\ imageIdentifier config = Some (keep_permitted identifier).
Proof.
  rewrite parse_unfold.
  destruct (scan _ _ _ _ _ _) as [[[c g]|n|] w0] eqn:Hs; try discriminate.
  destruct (Z.eqb_spec (Z.of_nat (List.length (Getopt.nonopts g))) 2)
    as [Hlen|]; [|discriminate].
  intros [= _ <- _]. split.
  - assert (Hr : in_range c); [|exact Hr].
    eapply (scan_invariant in_range); [|exact Hs|].
    + intros ? ? ? ? ? ?. apply switch_in_range.
    + split; [split; [reflexivity|reflexivity]|now left].
  - destruct (Getopt.nonopts g) as [|a [|b [|? ?]]];
      cbn [List.length] in Hlen; try lia.
    exists a, b. cbn [nth_error imageType imageIdentifier set_image].
    now rewrite !filterString_keeps.
Qed.

(** X4.  Whatever the argument vector, a configuration the parser
    returns has both image fields set, each made of characters that pass
    the test of line 323 only; its uid is in the range of [uid_t] and its
    [verbose] is 0 or 1. *)
Theorem X4_returned_configuration (abi : ABI) (env : environ)
    (argv : list string) (rc : Z) (config : SetupRootConfig)
    (w : list string) :
  parse_SetupRootConfig abi env argv zeroed [] = (Returned (rc, config), w) ->
  (exists type identifier,
      imageType config = Some type /\ imageIdentifier config = Some identifier
      /\ clean type = true /\ clean identifier = true)
  /\ 0 <= uid config < 2 ^ 32
  /\ (verbose config = 0 \/ verbose config = 1).
Proof.
  intros Hp. destruct (parse_in_range _ _ _ _ _ _ Hp)
    as ([Hu Hv] & a & b & Ha & Hb).
  split; [|split; assumption].
  exists (keep_permitted a), (keep_permitted b).
  repeat split; try assumption; apply clean_iff, all_permitted_keep.
Qed.

Lemma X4_witness :
  exists type identifier,
    imageType
      (set_image (Some "docker") (Some "busyboxrm-rf")
         (set_uid 4294967295 (set_verbose 1 zeroed))) = Some type
    /\ imageIdentifier
         (set_image (Some "docker") (Some "busyboxrm-rf")
            (set_uid 4294967295 (set_verbose 1 zeroed))) = Some identifier
    /\ clean type = true /\ clean identifier = true.
Proof.
  apply (X4_returned_configuration LP64 []
           ["setupRoot"; "-VU"; "-1"; "docker"; "busybox;rm -rf /"] 0 _ []).
  vm_compute. reflexivity.
Defined.

(** X5.  Whatever the argument vector, in a configuration the parser
    returns [volumeMap_capacity] is still 0: no path through the parser
    assigns it.  The three pointers stand behind the last entry of the
    volume map, and every entry is made of tokens that are not empty and
    hold no colon. *)
Theorem X5_returned_arrays (abi : ABI) (env : environ) (argv : list string)
    (rc : Z) (config : SetupRootConfig) (w : list string) :
  parse_SetupRootConfig abi env argv zeroed [] = (Returned (rc, config), w) ->
  volumeMap_capacity config = 0
  /\ volumeMapFrom_ptr config = Z.of_nat (List.length (volumeMap config))
  /\ volumeMapTo_ptr config = Z.of_nat (List.length (volumeMap config))
  /\ volumeMapFlags_ptr config = Z.of_nat (List.length (volumeMap config))
  /\ Forall well_formed (volumeMap config).
Proof.
  intros Hp. destruct (parse_kept _ _ _ _ _ _ Hp) as [Hh Hwf].
  destruct Hh as (Hcap & HF & HT & HFl & _).
  repeat (split; [assumption|]). exact Hwf.
Qed.

Lemma X5_witness :
  exists config,
    parse_SetupRootConfig ILP32 []
      ["setupRoot"; "-u"; "alice"; "-v"; "/data:/mnt:ro"; "docker"; "busybox"]
      zeroed []
    = (Returned (0, config), [])
    /\ volumeMap config = [("/data", "/mnt", Some "ro")]
    /\ volumeMap_capacity config = 0
    /\ volumeMapFrom_ptr config = 1.
Proof.
  eexists. split; [vm_compute; reflexivity|]. split; [reflexivity|].
  split.
  - eapply (X5_returned_arrays ILP32 []
              ["setupRoot"; "-u"; "alice"; "-v"; "/data:/mnt:ro"; "docker";
               "busybox"]).
    vm_compute. reflexivity.
  - reflexivity.
Defined.

(** X6.  The argument of [-v] is read with [strtok]: empty fields are
    passed over and fields after the third are left out.  When the
    argument has at least two non-empty fields, and the 10 bytes hold two
    cells, the one entry recorded is made of the first two of them, with
    the third as flags if there is one. *)
Theorem X6_volume_tokens (abi : ABI) (env : environ)
    (prog optarg type identifier f t : string) (more : list string) :
  components optarg = f :: t :: more ->
  Getopt.is_operand type = true -> Getopt.is_operand identifier = true ->
  (2 <= cap abi)%nat ->
  exists config,
    parse_SetupRootConfig abi env [prog; "-v"; optarg; type; identifier]
      zeroed [] = (Returned (0, config), [])
    /\ volumeMap config = [(f, t, hd_error more)]
    /\ f <> "" /\ t <> "" /\ hd_error more <> Some "".
Proof.
  intros Hc Htype Hid Hcap.
  destruct (case_v_components abi optarg f t more zeroed [] Hc) as [Hwf Hv].
  destruct (case_v_stores abi [] (f, t, hd_error more) zeroed []
              (holds_zeroed abi) Hwf Hcap) as (config & Hs & Hh).
  rewrite parse_unfold. unfold Getopt.start. cbn [hd tl].
  rewrite scan_v, Hv, Hs.
  rewrite scan_operands by (repeat constructor; assumption).
  cbn [Getopt.nonopts app List.length nth_error]. simpl Z.eqb. cbv iota.
  eexists. split; [reflexivity|]. split.
  - apply (holds_volumeMap abi). revert Hh. apply holds_fields; reflexivity.
  - destruct Hwf as ([Hf _] & [Ht _] & Hfl). repeat split; try assumption.
    destruct (hd_error more) as [fl|]; [|discriminate].
    destruct Hfl as [Hfl _]. congruence.
Qed.

Lemma X6_witness :
  exists config,
    parse_SetupRootConfig ILP32 []
      ["setupRoot"; "-v"; ":/data:::/mnt:ro:rest"; "docker"; "busybox"]
      zeroed [] = (Returned (0, config), [])
    /\ volumeMap config = [("/data", "/mnt", Some "ro")].
Proof.
  destruct (X6_volume_tokens ILP32 [] "setupRoot" ":/data:::/mnt:ro:rest"
              "docker" "busybox" "/data" "/mnt" ["ro"; "rest"]
              eq_refl eq_refl eq_refl ltac:(vm_compute; lia))
    as (config & Hp & Hv & _).
  exists config. split; assumption.
Defined.

(** ** A uid written in decimal *)

Lemma digits_acc (d : Decimal.uint) :
  forall p, Strtoul.digits (NilEmpty.string_of_uint d) (Z.pos p)
            = Z.pos (Pos.of_uint_acc d p).
Proof.
  induction d; intros p; cbn [NilEmpty.string_of_uint Pos.of_uint_acc];
    [reflexivity|..];
    cbn [Strtoul.digits]; change (isdigit _) with true; cbv iota;
    rewrite <- IHd; f_equal;
    match goal with
    | |- context [code ?c - 48] =>
        let k := fresh "k" in
        set (k := code c - 48); vm_compute in k; subst k
    end; lia.
Qed.

Lemma digits_uint (d : Decimal.uint) :
  Strtoul.digits (NilEmpty.string_of_uint d) 0 = Z.of_N (Pos.of_uint d).
Proof.
  induction d; cbn [NilEmpty.string_of_uint Pos.of_uint];
    [reflexivity|..];
    cbn [Strtoul.digits]; change (isdigit _) with true; cbv iota;
    first [exact IHd | apply digits_acc].
Qed.

(** The digits [%d] writes for a number that is not negative are read
    back as that number. *)
Lemma digits_decimal (n : Z) : 0 <= n -> Strtoul.digits (decimal n) 0 = n.
Proof.
  intros Hn. unfold decimal. destruct n as [|p|p]; [reflexivity| |lia].
  cbn [Z.to_int NilZero.string_of_int NilZero.string_of_uint].
  pose proof (DecimalPos.Unsigned.of_to p) as Hp.
  destruct (Pos.to_uint p) eqn:E; [discriminate Hp|..];
    unfold NilZero.string_of_uint;
    rewrite digits_uint; unfold N.of_uint in Hp; rewrite Hp; reflexivity.
Qed.

Lemma decimal_head (n : Z) :
  0 <= n -> Strtoul.sign (Strtoul.skip_space (decimal n)) = (false, decimal n).
Proof.
  intros Hn. unfold decimal. destruct n as [|p|p]; [reflexivity| |lia].
  cbn [Z.to_int NilZero.string_of_int NilZero.string_of_uint].
  destruct (Pos.to_uint p); reflexivity.
Qed.

Lemma strtoul_decimal abi (n : Z) :
  0 <= n ->
  Strtoul.strtoul abi (decimal n) = Z.min n (ULONG_MAX abi).
Proof.
  intros Hn. unfold Strtoul.strtoul.
  rewrite (decimal_head n Hn), (digits_decimal n Hn).
  destruct (Z.ltb_spec (ULONG_MAX abi) n); lia.
Qed.

(** X7.  For a uid written in decimal after [-U], the parser records the
    number cut at [ULONG_MAX] and then reduced modulo 2^32, with no test
    of the range: a number below 2^32 is recorded as it is, and the dump
    shows a number below 2^31 with the digits it was given; 2^32 itself
    is recorded as 0 where an unsigned long has 64 bits. *)
Theorem X7_uid_decimal (abi : ABI) (env : environ)
    (prog type identifier : string) (n : Z) :
  Getopt.is_operand type = true -> Getopt.is_operand identifier = true ->
  0 <= n ->
  exists config,
    parse_SetupRootConfig abi env [prog; "-U"; decimal n; type; identifier]
      zeroed [] = (Returned (0, config), [])
    /\ uid config = Z.min n (ULONG_MAX abi) mod 2 ^ 32
    /\ (n < 2 ^ 32 -> n <= ULONG_MAX abi -> uid config = n)
    /\ (n < 2 ^ 31 -> n <= ULONG_MAX abi ->
        In ("uid: " ++ decimal n ++ newline) (dump_head config))
    /\ (n = 2 ^ 32 -> ULONG_MAX abi = 2 ^ 64 - 1 -> uid config = 0).
Proof.
  intros Ht Hi Hn. eexists. split; [now apply parse_uid_option|].
  cbn [uid set_image set_uid]. rewrite (strtoul_decimal abi n Hn).
  unfold to_uid_t, UID_MODULUS. split; [reflexivity|].
  assert (Hsmall : n < 2 ^ 32 -> n <= ULONG_MAX abi ->
                   Z.min n (ULONG_MAX abi) mod 2 ^ 32 = n).
  { intros H1 H2. rewrite Z.min_l by exact H2. apply Z.mod_small. lia. }
  split; [exact Hsmall|]. split.
  - intros H1 H2. unfold dump_head. cbn [uid set_image set_uid].
    rewrite Hsmall by lia. unfold as_int.
    destruct (Z.ltb_spec n (2 ^ 31)); [|lia]. simpl. tauto.
  - intros -> ->. reflexivity.
Qed.

Lemma X7_witness :
  exists config,
    parse_SetupRootConfig LP64 []
      ["setupRoot"; "-U"; "4294968296"; "docker"; "busybox"] zeroed []
    = (Returned (0, config), [])
    /\ uid config = 1000.
Proof.
  destruct (X7_uid_decimal LP64 [] "setupRoot" "docker" "busybox" 4294968296
              eq_refl eq_refl ltac:(lia)) as (config & Hp & Hu & _).
  exists config. split; [exact Hp|]. rewrite Hu. reflexivity.
Defined.

(** ** More about runs of the program *)

(** A log that is written out, in the order of [rank]. *)
Ltac sorted :=
  repeat first [ apply SSorted_nil | apply SSorted_cons
               | apply Forall_nil | apply Forall_cons ];
  simpl; lia.

Ltac distinct :=
  repeat (constructor; [simpl; intuition discriminate|]); constructor.

(** The tests [r =? 0] of the goal, settled by what is known of [r]. *)
Ltac settle :=
  repeat match goal with
         | H : ?r <> 0 |- context [?r =? 0] =>
             rewrite (proj2 (Z.eqb_neq r 0) H)
         | H : ?r = 0 |- context [?r =? 0] => rewrite H
         end.

(** Two runs side by side in [Hr]: the calls they share are taken
    together; [tac] brings a call of the one to the form it has in the
    other. *)
Ltac both_paths Hr tac :=
  repeat (tac; branch Hr; crack); tac; simpl in Hr.

Section FurtherRuns.

Variable Sys : Type.
Variable P : Collaborators Sys.

(** X8.  The parser returns nothing but 0, and nothing is written when it
    returns: the test of line 112 never holds.  Lines 113 and 114 are
    never reached: [main] does, from every state of the process, what it
    does without lines 112-115. *)
Theorem X8_parse_failure_branch_is_dead (abi : ABI) (argv : list string) :
  (forall env rc config written w,
      parse_SetupRootConfig abi env argv zeroed written
      = (Returned (rc, config), w) ->
      rc = 0 /\ w = written)
  /\ (forall p : Proc Sys,
         main Sys P abi argv p = main_without_parse_test P abi argv p).
Proof.
  split.
  - intros env rc config written w Hp. split.
    + eapply parse_returns_zero; exact Hp.
    + eapply parse_returned_written; exact Hp.
  - intros p. unfold main, main_without_parse_test. crack.
    destruct (parse_SetupRootConfig abi _ argv zeroed (stderr Sys p))
      as [[[rc config]|n|] w] eqn:Hp; crack; try reflexivity.
    pose proof (parse_returns_zero _ _ _ _ _ _ _ _ Hp). subst rc.
    reflexivity.
Qed.

(** X9.  In every run the calls into the collaborators follow the text
    of [main]: the first one is [parse_UdiRootConfig], each later one
    stands further down in [main] than the one before, and no collaborator
    is called twice. *)
Theorem X9_calls_in_program_order (abi : ABI) (argv : list string)
    (env : environ) (s : Sys) :
  let t := trace Sys (snd (run Sys P abi argv env s)) in
  StronglySorted
    (fun c c' => (rank (stage Sys c) < rank (stage Sys c'))%nat) t
  /\ NoDup (map (stage Sys) t)
  /\ (t <> [] -> exists c rest, t = c :: rest /\ stage Sys c = LoadSiteConfig).
Proof.
  cbv zeta. destruct (run Sys P abi argv env s) as [o p] eqn:Hr.
  paths Hr; injection Hr as <- <-; simpl;
    (split; [sorted|split; [distinct|]]).
  all: first [ intros H; now elim H
             | intros _; do 2 eexists; split; reflexivity ].
Qed.

(** X10.  A run that ends with status 0 has done everything: the parser
    returned, the site configuration was loaded, the image resolved and
    mounted and the user mounts applied, each call returning 0; the image
    was attached to a loop device if it asks for one, and the SSH steps
    were both taken if key, user and uid ask for them; nothing was
    written to stderr. *)
Theorem X10_status_zero_means_done (abi : ABI) (argv : list string)
    (env : environ) (s : Sys) :
  let r := run Sys P abi argv env s in
  let t := trace Sys (snd r) in
  exit_status (fst r) = Some 0 ->
  exists config,
    parse_SetupRootConfig abi trusted_env argv zeroed []
    = (Returned (0, config), [])
    /\ fst r = Returned 0
    /\ stderr Sys (snd r) = []
    /\ (forall c, In c t -> status Sys c = 0)
    /\ completed Sys LoadSiteConfig t /\ completed Sys ResolveImage t
    /\ completed Sys MountVFS t /\ completed Sys ApplyUserMounts t
    /\ (ssh_wanted config ->
        completed Sys SshSetup t /\ completed Sys SshdStart t)
    /\ (forall c, In c t -> stage Sys c = ResolveImage ->
          useLoopMount Sys P (after Sys c) <> 0 ->
          completed Sys LoopAttach t).
Proof.
  cbv zeta. destruct (run Sys P abi argv env s) as [o p] eqn:Hr.
  paths Hr; injection Hr as <- <-; simpl; try discriminate.
  all: try (apply parse_exited in Hp; destruct Hp as [-> _]; discriminate).
  all: intros _; eexists; split; [reflexivity|].
  all: split; [reflexivity|]. all: split; [reflexivity|].
  all: split; [intros c Hin; cases_in Hin; simpl; assumption|].
  all: do 4 (split; [find_call|]).
  all: split.
  all: try (intros _; split; find_call).
  all: try (intros Hw; apply ssh_requested_iff in Hw; congruence).
  all: intros c Hin Hst Hl; cases_in Hin; simpl in Hst, Hl;
    try discriminate Hst; first [contradiction|find_call].
Qed.

(** X11.  What the process prints on stdout is fixed by [verbose] and by
    the calls that returned 0: nothing without [-V]; with it, the two
    configurations once [parse_UdiRootConfig] has returned 0, and the
    image once [getImage] has returned 0.  A run without a call prints
    nothing. *)
Theorem X11_verbose_output (abi : ABI) (argv : list string) (env : environ)
    (s : Sys) :
  let p := snd (run Sys P abi argv env s) in
  (forall rc config w,
      parse_SetupRootConfig abi trusted_env argv zeroed []
      = (Returned (rc, config), w) ->
      stdout Sys p = dumps_after config (trace Sys p)
      /\ (verbose config = 0 -> stdout Sys p = []))
  /\ (trace Sys p = [] -> stdout Sys p = []).
Proof.
  cbv zeta. destruct (run Sys P abi argv env s) as [o p] eqn:Hr.
  paths Hr; injection Hr as <- <-; simpl.
  all: split; [|try reflexivity; try discriminate].
  all: try (intros ? ? ? [=]; fail).
  all: intros rc' config' w' [= <- <- <-]; split;
    [|intros Hv0; first [reflexivity|contradiction]].
  all: unfold dumps_after, nonzero; settle; simpl; settle;
    first [reflexivity|destruct (verbose _ =? 0); reflexivity].
Qed.

(** X13.  [getImage] hands [parse_ImageData] an identifier the filter
    has been through: a run does not change when [parse_ImageData] is
    replaced by a function that agrees with it on the identifiers made of
    characters that pass the test of line 323. *)
Theorem X13_resolver_gets_filtered_identifier
    (resolve : environ -> option string -> Sys -> Z * Sys)
    (abi : ABI) (argv : list string) (env : environ) (s : Sys) :
  (forall env' identifier s',
      clean identifier = true ->
      resolve env' (Some identifier) s'
      = parse_ImageData Sys P env' (Some identifier) s') ->
  run Sys (with_parse_ImageData P resolve) abi argv env s
  = run Sys P abi argv env s.
Proof.
  intros Hagree.
  remember (run Sys (with_parse_ImageData P resolve) abi argv env s) as ra
    eqn:Ha.
  remember (run Sys P abi argv env s) as rb eqn:Hb'.
  assert (Hr : (run Sys (with_parse_ImageData P resolve) abi argv env s,
                run Sys P abi argv env s) = (ra, rb)) by congruence.
  clear Ha Hb'.
  unfold run, main, boot in Hr; crack.
  change (setenv "PATH" TRUSTED_PATH 1 (clearenv env)) with trusted_env in Hr.
  destruct (parse_SetupRootConfig abi trusted_env argv zeroed [])
    as [[[rc config]|n|] w] eqn:Hp; crack;
    try (now injection Hr as <- <-).
  pose proof (parse_returns_zero _ _ _ _ _ _ _ _ Hp). subst rc.
  change (nonzero 0) with false in Hr. crack.
  destruct (parse_in_range _ _ _ _ _ _ Hp) as (_ & a & b & _ & Hb).
  assert (Hag : forall env' s',
             resolve env' (imageIdentifier config) s'
             = parse_ImageData Sys P env' (imageIdentifier config) s').
  { intros env' s'. rewrite Hb. apply Hagree, clean_iff, all_permitted_keep. }
  cbn [with_parse_ImageData UDIROOT_CONFIG_FILE useLoopMount
       parse_UdiRootConfig parse_ImageData mountImageLoop mountImageVFS
       setupImageSsh startSshd setupUserMounts] in Hr.
  both_paths Hr ltac:(try rewrite !Hag in Hr); now injection Hr as <- <-.
Qed.

(** X14.  [setupImageSsh] is called with a key and a user name that are
    not empty and with a uid from 1 to 2^32 - 1, and with nothing else:
    a run does not change when [setupImageSsh] is replaced by a function
    that agrees with it on such arguments. *)
Theorem X14_ssh_setup_arguments
    (ssh_setup : environ -> option string -> option string -> Z -> Sys
                 -> Z * Sys)
    (abi : ABI) (argv : list string) (env : environ) (s : Sys) :
  (forall env' key name u s',
      key <> "" -> name <> "" -> 0 < u < 2 ^ 32 ->
      ssh_setup env' (Some key) (Some name) u s'
      = setupImageSsh Sys P env' (Some key) (Some name) u s') ->
  run Sys (with_setupImageSsh P ssh_setup) abi argv env s
  = run Sys P abi argv env s.
Proof.
  intros Hagree.
  remember (run Sys (with_setupImageSsh P ssh_setup) abi argv env s) as ra
    eqn:Ha.
  remember (run Sys P abi argv env s) as rb eqn:Hb'.
  assert (Hr : (run Sys (with_setupImageSsh P ssh_setup) abi argv env s,
                run Sys P abi argv env s) = (ra, rb)) by congruence.
  clear Ha Hb'.
  unfold run, main, boot in Hr; crack.
  change (setenv "PATH" TRUSTED_PATH 1 (clearenv env)) with trusted_env in Hr.
  destruct (parse_SetupRootConfig abi trusted_env argv zeroed [])
    as [[[rc config]|n|] w] eqn:Hp; crack;
    try (now injection Hr as <- <-).
  pose proof (parse_returns_zero _ _ _ _ _ _ _ _ Hp). subst rc.
  change (nonzero 0) with false in Hr. crack.
  destruct (parse_in_range _ _ _ _ _ _ Hp) as ([Hu _] & _).
  cbn [with_setupImageSsh UDIROOT_CONFIG_FILE useLoopMount
       parse_UdiRootConfig parse_ImageData mountImageLoop mountImageVFS
       setupImageSsh startSshd setupUserMounts] in Hr.
  destruct (ssh_requested config) eqn:Hssh; crack.
  - assert (Hag : forall env' s',
               ssh_setup env' (sshPubKey config) (user config) (uid config) s'
               = setupImageSsh Sys P env' (sshPubKey config) (user config)
                   (uid config) s').
    { intros env' s'. apply ssh_requested_iff in Hssh.
      destruct Hssh as ((key & -> & Hk) & (name & -> & Hn) & Hne).
      apply Hagree; try assumption. unfold UID_MODULUS in Hu. lia. }
    both_paths Hr ltac:(try rewrite !Hag in Hr); now injection Hr as <- <-.
  - both_paths Hr idtac; now injection Hr as <- <-.
Qed.

(** X15.  The image type is filtered, kept and printed, and used for
    nothing else: [getImage] passes the identifier alone.  Two command
    lines whose configurations differ in [imageType] only give runs with
    the same outcome, the same calls with the same results and the same
    machine at the end. *)
Theorem X15_image_type_is_not_used (abi : ABI) (argv argv' : list string)
    (env : environ) (s : Sys) (rc rc' : Z) (w w' : list string)
    (config : SetupRootConfig) (type' : option string) :
  parse_SetupRootConfig abi trusted_env argv zeroed []
  = (Returned (rc, config), w) ->
  parse_SetupRootConfig abi trusted_env argv' zeroed []
  = (Returned (rc', set_image type' (imageIdentifier config) config), w') ->
  let r := run Sys P abi argv env s in
  let r' := run Sys P abi argv' env s in
  fst r = fst r'
  /\ trace Sys (snd r) = trace Sys (snd r')
  /\ sys Sys (snd r) = sys Sys (snd r').
Proof.
  intros Hp Hp'. cbv zeta.
  remember (run Sys P abi argv env s) as ra eqn:Ha.
  remember (run Sys P abi argv' env s) as rb eqn:Hb'.
  assert (Hr : (run Sys P abi argv env s, run Sys P abi argv' env s)
               = (ra, rb)) by congruence.
  clear Ha Hb'.
  unfold run, main, boot in Hr; crack.
  change (setenv "PATH" TRUSTED_PATH 1 (clearenv env)) with trusted_env in Hr.
  rewrite Hp, Hp' in Hr.
  pose proof (parse_returns_zero _ _ _ _ _ _ _ _ Hp).
  pose proof (parse_returns_zero _ _ _ _ _ _ _ _ Hp'). subst rc rc'.
  change (nonzero 0) with false in Hr. crack.
  change (ssh_requested (set_image type' (imageIdentifier config) config))
    with (ssh_requested config) in Hr.
  cbn [set_image verbose imageIdentifier user minNodeSpec sshPubKey uid
       volumeMapFrom volumeMapTo volumeMapFlags] in Hr.
  both_paths Hr idtac; injection Hr as <- <-; repeat split; reflexivity.
Qed.

End FurtherRuns.

(** ** These theorems at work on the scripted machine *)

Lemma X8_witness :
  run Machine (scripted all_fine 0) LP64 ["setupRoot"; "docker"; "busybox"]
    [] pristine
  = main_without_parse_test (scripted all_fine 0) LP64
      ["setupRoot"; "docker"; "busybox"] (boot Machine [] pristine).
Proof.
  apply (X8_parse_failure_branch_is_dead Machine (scripted all_fine 0) LP64
           ["setupRoot"; "docker"; "busybox"]).
Defined.

Lemma X9_witness :
  exists c rest,
    trace Machine
      (snd (run Machine (scripted (failing MountVFS 2) 1) LP64 ssh_argv []
              pristine)) = c :: rest
    /\ stage Machine c = LoadSiteConfig.
Proof.
  apply (X9_calls_in_program_order Machine (scripted (failing MountVFS 2) 1)
           LP64 ssh_argv [] pristine).
  vm_compute. discriminate.
Defined.

Lemma X10_witness :
  let t := trace Machine
             (snd (run Machine (scripted all_fine 1) LP64 ssh_argv []
                     pristine)) in
  completed Machine LoopAttach t /\ completed Machine SshdStart t
  /\ completed Machine ApplyUserMounts t.
Proof.
  cbv zeta.
  destruct (X10_status_zero_means_done Machine (scripted all_fine 1) LP64
              ssh_argv [] pristine)
    as (config & Hp & _ & _ & _ & _ & _ & _ & Hum & Hssh & Hloop).
  - vm_compute. reflexivity.
  - rewrite ssh_argv_parsed in Hp. injection Hp as <-.
    split; [|split; [|exact Hum]].
    + apply (Hloop {| stage := ResolveImage; status := 0;
                      env_at := trusted_env;
                      after := {| image_useLoopMount := 1;
                                  done := [LoadSiteConfig; ResolveImage] |} |}).
      * vm_compute. tauto.
      * reflexivity.
      * discriminate.
    + apply Hssh.
      repeat split; try discriminate;
        eexists; (split; [reflexivity|discriminate]).
Defined.

Lemma X11_witness :
  stdout Machine
    (snd (run Machine (scripted (failing ResolveImage 1) 0) LP64
            ["setupRoot"; "-V"; "docker"; "busybox"] [] pristine))
  = [Printed_SetupRootConfig Machine
       (set_image (Some "docker") (Some "busybox") (set_verbose 1 zeroed));
     Printed_UdiRootConfig Machine
       {| image_useLoopMount := 0; done := [LoadSiteConfig] |}].
Proof.
  destruct (X11_verbose_output Machine (scripted (failing ResolveImage 1) 0)
              LP64 ["setupRoot"; "-V"; "docker"; "busybox"] [] pristine)
    as [H _].
  destruct (H 0 (set_image (Some "docker") (Some "busybox")
                   (set_verbose 1 zeroed)) []) as [Hout _].
  - vm_compute. reflexivity.
  - rewrite Hout. vm_compute. reflexivity.
Defined.

Lemma X13_witness :
  run Machine
    (with_parse_ImageData (scripted all_fine 0)
       (fun env identifier m =>
          if clean (or_empty identifier)
          then parse_ImageData Machine (scripted all_fine 0) env identifier m
          else (1, m)))
    LP64 ["setupRoot"; "docker"; "busybox;rm -rf /"] [] pristine
  = run Machine (scripted all_fine 0) LP64
      ["setupRoot"; "docker"; "busybox;rm -rf /"] [] pristine.
Proof.
  apply (X13_resolver_gets_filtered_identifier Machine (scripted all_fine 0)).
  intros env' identifier s' Hc. cbn [or_empty]. now rewrite Hc.
Defined.

Lemma X14_witness :
  run Machine
    (with_setupImageSsh (scripted all_fine 0)
       (fun env key name u m =>
          if present key && present name && (0 <? u) && (u <? 2 ^ 32)
          then setupImageSsh Machine (scripted all_fine 0) env key name u m
          else (1, m)))
    LP64 ssh_argv [] pristine
  = run Machine (scripted all_fine 0) LP64 ssh_argv [] pristine.
Proof.
  apply (X14_ssh_setup_arguments Machine (scripted all_fine 0)).
  intros env' key name u s' Hk Hn Hu.
  assert (Hpk : present (Some key) = true) by (apply present_iff; eauto).
  assert (Hpn : present (Some name) = true) by (apply present_iff; eauto).
  rewrite Hpk, Hpn.
  destruct (Z.ltb_spec 0 u); [|lia]. destruct (Z.ltb_spec u (2 ^ 32)); [|lia].
  reflexivity.
Defined.

Lemma X15_witness :
  let r := run Machine (scripted all_fine 1) LP64
             ["setupRoot"; "docker"; "busybox"] [] pristine in
  let r' := run Machine (scripted all_fine 1) LP64
              ["setupRoot"; "no such type"; "busybox"] [] pristine in
  fst r = fst r'
  /\ trace Machine (snd r) = trace Machine (snd r')
  /\ sys Machine (snd r) = sys Machine (snd r').
Proof.
  apply (X15_image_type_is_not_used Machine (scripted all_fine 1) LP64
           ["setupRoot"; "docker"; "busybox"]
           ["setupRoot"; "no such type"; "busybox"] [] pristine 0 0 [] []
           (set_image (Some "docker") (Some "busybox") zeroed)
           (Some "nosuchtype")).
  - vm_compute. reflexivity.
  - vm_compute. reflexivity.
Defined.

(** ** The dump *)

Lemma print_maps_filled (entries : list entry)
    (pF pT pFl : list (option string)) :
  forall written,
    print_maps (map (fun e : entry => Some (fst (fst e))) entries ++ None :: pF)
      (map (fun e : entry => Some (snd (fst e))) entries ++ None :: pT)
      (map snd entries ++ None :: pFl) written
    = (Returned tt, (written ++ map entry_line entries)%list).
Proof.
  induction entries as [|[[f t] fl] entries IH]; intros written; simpl.
  - now rewrite app_nil_r.
  - unfold bind, fprintf, modify. rewrite IH, <- app_assoc. reflexivity.
Qed.

(** X16.  On a configuration as the option loop leaves it,
    [fprint_SetupRootConfig] reads no cell outside the arrays and writes,
    between the seven lines that open the dump and the closing line, the
    number of entries and then one line for each entry, in their order:
    the count it prints is the number of lines that follow. *)
Theorem X16_dump_lists_the_entries (abi : ABI) (entries : list entry)
    (config : SetupRootConfig) (fp : FILE) (written : list string) :
  holds abi entries config ->
  Z.of_nat (List.length entries) <= ULONG_MAX abi ->
  fprint_SetupRootConfig abi (Some fp) (Some config) written
  = (Returned tt,
     (written ++ dump_head config
      ++ [("volumeMap: " ++ decimal (Z.of_nat (List.length entries))
             ++ " maps" ++ newline)%string]
      ++ map entry_line entries ++ [dump_foot])%list).
Proof.
  intros (_ & HpF & _ & _ & Hnone & Hsome) Hmax.
  unfold fprint_SetupRootConfig, dump_head, dump_foot, as_unsigned_long.
  rewrite HpF, Z.mod_small by lia.
  unfold bind, fprintf, modify, when, ret. cbn beta iota.
  destruct entries as [|e entries].
  - destruct (Hnone eq_refl) as (-> & _). cbn [is_null negb map app].
    rewrite <- !app_assoc. reflexivity.
  - destruct Hsome as ((pF & -> & _) & (pT & -> & _) & (pFl & -> & _));
      [discriminate|].
    cbn [is_null negb cells_of cells]. rewrite print_maps_filled.
    rewrite <- !app_assoc. reflexivity.
Qed.

Lemma X16_witness :
  exists config,
    parse_SetupRootConfig ILP32 []
      ["setupRoot"; "-u"; "alice"; "-U"; "1000"; "-v"; "/data:/mnt"; "docker";
       "busybox"] zeroed []
    = (Returned (0, config), [])
    /\ fprint_SetupRootConfig ILP32 (Some STDOUT) (Some config) []
       = (Returned tt,
          ["***** SetupRootConfig *****" ++ newline;
           "imageType: docker" ++ newline;
           "imageIdentifier: busybox" ++ newline;
           "sshPubKey: " ++ newline;
           "user: alice" ++ newline;
           "uid: 1000" ++ newline;
           "minNodeSpec: " ++ newline;
           "volumeMap: 1 maps" ++ newline;
           "    FROM: /data, TO: /mnt, FLAGS: NONE" ++ newline;
           "***** END SetupRootConfig *****" ++ newline]).
Proof.
  eexists. split; [vm_compute; reflexivity|].
  rewrite (X16_dump_lists_the_entries ILP32 [("/data", "/mnt", None)]).
  - vm_compute. reflexivity.
  - refine (proj1 (parse_kept ILP32 []
                     ["setupRoot"; "-u"; "alice"; "-U"; "1000"; "-v";
                      "/data:/mnt"; "docker"; "busybox"] 0 _ [] _)).
    vm_compute. reflexivity.
  - vm_compute. discriminate.
Defined.

(** ** The release *)

Lemma free_string_run (p : option string) (released : list freed) :
  free_string p released
  = (Returned tt, (released ++ map Freed_string (strings_of p))%list).
Proof.
  destruct p; simpl; [reflexivity|]. now rewrite app_nil_r.
Qed.

Lemma free_array_run (b : option block) (released : list freed) :
  free_array b released
  = (Returned tt,
     (released ++ map Freed_array match b with
                                  | Some b => [b]
                                  | None => []
                                  end)%list).
Proof.
  destruct b; simpl; [reflexivity|]. now rewrite app_nil_r.
Qed.

Lemma free_cells_all (vals : list string) (pad : list (option string)) :
  forall released,
    free_cells (map Some vals ++ None :: pad) released
    = (Returned tt, (released ++ map Freed_string vals)%list).
Proof.
  induction vals as [|v vals IH]; intros released; simpl.
  - now rewrite app_nil_r.
  - unfold bind, free, modify. rewrite IH, <- app_assoc. reflexivity.
Qed.

(** The loop of line 268 stops at the first entry without flags. *)
Lemma free_cells_flags (entries : list entry) (pad : list (option string)) :
  forall released,
    free_cells (map snd entries ++ None :: pad) released
    = (Returned tt,
       (released ++ map Freed_string (leading_flags entries))%list).
Proof.
  induction entries as [|[[f t] [fl|]] entries IH]; intros released; simpl.
  - now rewrite app_nil_r.
  - unfold bind, free, modify. rewrite IH, <- app_assoc. reflexivity.
  - now rewrite app_nil_r.
Qed.

Lemma leading_flags_stop (pre : list entry) (f t : string)
    (post : list entry) :
  leading_flags (pre ++ (f, t, None) :: post) = leading_flags pre.
Proof.
  induction pre as [|[[f0 t0] [fl|]] pre IH]; simpl; [reflexivity| |reflexivity].
  now rewrite IH.
Qed.

Lemma leading_flags_le (entries : list entry) :
  (List.length (leading_flags entries) <= List.length (all_flags entries))%nat.
Proof.
  unfold all_flags.
  induction entries as [|[[f t] [fl|]] entries IH]; simpl; lia.
Qed.

(** The configurations the option loop leaves are among them. *)
Lemma holds_lists abi entries config :
  holds abi entries config -> lists entries config.
Proof.
  intros (_ & _ & _ & _ & Hnone & Hsome). destruct entries as [|e entries].
  - left. destruct (Hnone eq_refl) as (HF & HT & HFl). auto.
  - right.
    destruct Hsome as ((pF & HF & _) & (pT & HT & _) & (pFl & HFl & _));
      [discriminate|].
    rewrite HF, HT, HFl. repeat split; eexists _, _; reflexivity.
Qed.

(** X17.  On a configuration whose three arrays list its entries, each
    ending with a NULL, [free_SetupRootConfig] reads no cell outside the
    arrays and calls [free] once on every string of the plain fields, on
    the from and the to of every entry, on the three arrays and on the
    struct.  Of the flags it releases those of the entries before the
    first entry without flags, and no others: the loop of line 268 takes
    the NULL of an entry without flags for the end of the array, so the
    flags of the entries behind it are never released.  The
    configurations the option loop leaves are of this kind. *)
Theorem X17_release (entries : list entry) (config : SetupRootConfig) :
  lists entries config ->
  free_SetupRootConfig config []
  = (Returned tt,
     (map Freed_string (field_strings config)
      ++ map Freed_string (map (fun e : entry => fst (fst e)) entries)
      ++ map Freed_string (map (fun e : entry => snd (fst e)) entries)
      ++ map Freed_string (leading_flags entries)
      ++ map Freed_array (arrays_of config)
      ++ [Freed_config])%list)
  /\ (forall pre f t post,
         entries = (pre ++ (f, t, None) :: post)%list ->
         leading_flags entries = leading_flags pre
         /\ (List.length (leading_flags entries)
             + List.length (all_flags post)
             <= List.length (all_flags entries))%nat).
Proof.
  intros Hl.
  split.
  2:{ intros pre f t post ->. split; [apply leading_flags_stop|].
      rewrite leading_flags_stop. unfold all_flags at 2.
      rewrite flat_map_app. cbn [flat_map snd app]. rewrite length_app.
      pose proof (leading_flags_le pre). unfold all_flags in *. lia. }
  unfold free_SetupRootConfig, field_strings, arrays_of.
  unfold bind. rewrite !free_string_run. cbn [app].
  destruct Hl as [(-> & -> & -> & ->)|Hl].
  - simpl. unfold free, modify. rewrite !app_nil_r.
    destruct (sshPubKey config), (user config), (imageType config),
      (imageIdentifier config), (minNodeSpec config); reflexivity.
  - destruct Hl as ((bF & pF & ->) & (bT & pT & ->) & (bFl & pFl & ->)).
    cbn [free_elements cells].
    rewrite <- (map_map (fun e : entry => fst (fst e)) Some).
    rewrite <- (map_map (fun e : entry => snd (fst e)) Some).
    rewrite !free_cells_all, free_cells_flags, !free_array_run.
    unfold free, modify. cbn [flat_map map app].
    rewrite !map_app, <- !app_assoc. cbn [map app].
    destruct (sshPubKey config), (user config), (imageType config),
      (imageIdentifier config), (minNodeSpec config); reflexivity.
Qed.

Lemma X17_witness :
  let config :=
    set_ptrs 2 2 2
      (set_arrays
         (Some {| size := 24; cells := [Some "/a"; Some "/c"; None] |})
         (Some {| size := 24; cells := [Some "/b"; Some "/d"; None] |})
         (Some {| size := 24; cells := [None; Some "ro"; None] |})
         (set_image (Some "docker") (Some "busybox") zeroed)) in
  volumeMap config = [("/a", "/b", None); ("/c", "/d", Some "ro")]
  /\ exists released,
      free_SetupRootConfig config [] = (Returned tt, released)
      /\ In (Freed_string "/c") released
      /\ In (Freed_string "/d") released
      /\ ~ In (Freed_string "ro") released.
Proof.
  cbv zeta. split; [reflexivity|]. eexists. split.
  - refine (proj1 (X17_release [("/a", "/b", None); ("/c", "/d", Some "ro")]
                     _ _)).
    right. repeat split; exists 24, []; reflexivity.
  - split; [vm_compute; tauto|]. split; [vm_compute; tauto|].
    intros H. vm_compute in H.
    repeat (destruct H as [H|H]; [discriminate H|]). exact H.
Defined.

(** ** The option string and the cases of the [switch] *)

Lemma lookup_cases (c : ascii) :
  match (if Ascii.eqb c ":" then None
         else Getopt.lookup c Getopt.optstring) with
  | Some true => In c (list_ascii_of_string "vsuUN")
  | Some false => c = "V"%char
  | None => True
  end.
Proof.
  destruct (Ascii.eqb c ":") eqn:Hcolon; [exact I|].
  unfold Getopt.optstring. simpl.
  repeat match goal with
         | |- context [Ascii.eqb c ?x] =>
             destruct (Ascii.eqb_spec c x); [subst c|]
         end; try discriminate; simpl; tauto.
Qed.

Lemma short_option_served prog c nc rest nonopts :
  well_served (Getopt.short_option prog c nc rest nonopts).
Proof.
  unfold Getopt.short_option, well_served. pose proof (lookup_cases c) as Hl.
  destruct (if Ascii.eqb c ":" then None else _) as [[|]|].
  - destruct nc; [destruct rest|]; simpl; eauto 8.
  - simpl. auto.
  - simpl. eauto.
Qed.

Lemma getopt_served posix prog g : well_served (Getopt.getopt posix prog g).
Proof.
  unfold Getopt.getopt. destruct (Getopt.nextchar g) as [|c nc].
  - destruct (if posix then _ else _) as [rest1 nonopts1].
    destruct rest1 as [|a rest2]; [reflexivity|].
    destruct (String.eqb a "--"); [reflexivity|].
    destruct (Getopt.is_operand a); [reflexivity|].
    destruct a as [|c1 [|c2 a]]; try reflexivity. apply short_option_served.
  - apply short_option_served.
Qed.

(** X18.  The option string "v:s:u:U:N:V" and the [switch] agree.  What
    [getopt] returns is one of the six option characters or '?', so the
    [default] case is never taken; every case that reads [optarg] belongs
    to an option declared with a colon, so [optarg] is not NULL there;
    and the cases of [-s], [-u], [-U], [-N] and [-V] always return, with
    nothing written. *)
Theorem X18_options_and_their_arguments (abi : ABI) (posix : bool)
    (prog : string) (g : Getopt.state) (config : SetupRootConfig)
    (w : list string) (c : ascii) :
  let a := Getopt.getopt posix prog g in
  Getopt.opt a = Some c ->
  In c (list_ascii_of_string "vsuUNV?")
  /\ (In c (list_ascii_of_string "vsuUN") ->
      exists arg, Getopt.optarg a = Some arg)
  /\ (In c (list_ascii_of_string "suUNV") ->
      Getopt.diag a = []
      /\ exists config', switch abi c (Getopt.optarg a) config w
                         = (Returned config', w)).
Proof.
  cbv zeta. intros Hc. pose proof (getopt_served posix prog g) as Hs.
  unfold well_served in Hs. rewrite Hc in Hs.
  destruct Hs as [[-> _]|[[-> Hd]|(Hin & Hd & arg & Ha)]].
  - split; [simpl; tauto|]. split; intros H; simpl in H;
      repeat (destruct H as [H|H]; [discriminate H|]); contradiction.
  - split; [simpl; tauto|]. split.
    + intros H; simpl in H;
        repeat (destruct H as [H|H]; [discriminate H|]); contradiction.
    + intros _. split; [exact Hd|]. eexists. reflexivity.
  - split; [simpl in *; tauto|]. split; [eauto|].
    intros H3. split; [exact Hd|]. rewrite Ha. simpl in Hin.
    destruct Hin as [<-|[<-|[<-|[<-|[<-|[]]]]]]; cbn [switch];
      unfold with_optarg, ret; eauto.
    exfalso. simpl in H3.
    repeat (destruct H3 as [H3|H3]; [discriminate H3|]). exact H3.
Qed.

Lemma X18_witness :
  exists arg,
    Getopt.optarg
      (Getopt.getopt false "setupRoot"
         (Getopt.start ["setupRoot"; "docker"; "-ualice"; "busybox"]))
    = Some arg.
Proof.
  apply (X18_options_and_their_arguments LP64 false "setupRoot"
           (Getopt.start ["setupRoot"; "docker"; "-ualice"; "busybox"])
           zeroed [] "u" eq_refl).
  simpl. tauto.
Defined.

(** ** An option given twice *)

Lemma scan_plain abi posix prog c (a : string) rest nonopts config w config' :
  Getopt.lookup c Getopt.optstring = Some true -> Ascii.eqb c ":" = false ->
  switch abi c (Some a) config w = (Returned config', w) ->
  scan abi posix prog
    {| Getopt.nextchar := "";
       Getopt.rest := String "-" (String c "") :: a :: rest;
       Getopt.nonopts := nonopts |} config w
  = scan abi posix prog
      {| Getopt.nextchar := ""; Getopt.rest := rest;
         Getopt.nonopts := nonopts |} config' w.
Proof.
  intros Hl Hc Hs. rewrite scan_step, getopt_separate by assumption.
  cbn [Getopt.opt Getopt.optarg Getopt.diag Getopt.next].
  now rewrite app_nil_r, Hs.
Qed.

(** X19.  Each of [-s], [-u], [-U] and [-N] assigns its field anew: when
    the option is given twice in a row, the parser does what it does with
    the second one alone, whatever follows on the command line. *)
Theorem X19_last_one_wins (abi : ABI) (env : environ) (prog a b : string)
    (rest : list string) :
  parse_SetupRootConfig abi env (prog :: "-s" :: a :: "-s" :: b :: rest)
    zeroed []
  = parse_SetupRootConfig abi env (prog :: "-s" :: b :: rest) zeroed []
  /\ parse_SetupRootConfig abi env (prog :: "-u" :: a :: "-u" :: b :: rest)
       zeroed []
     = parse_SetupRootConfig abi env (prog :: "-u" :: b :: rest) zeroed []
  /\ parse_SetupRootConfig abi env (prog :: "-U" :: a :: "-U" :: b :: rest)
       zeroed []
     = parse_SetupRootConfig abi env (prog :: "-U" :: b :: rest) zeroed []
  /\ parse_SetupRootConfig abi env (prog :: "-N" :: a :: "-N" :: b :: rest)
       zeroed []
     = parse_SetupRootConfig abi env (prog :: "-N" :: b :: rest) zeroed [].
Proof.
  repeat split; rewrite !parse_unfold; unfold Getopt.start; cbn [hd tl];
    repeat (erewrite scan_plain; [|reflexivity|reflexivity|reflexivity]);
    reflexivity.
Qed.

(** ** The line about an image that cannot be resolved *)

Section ImageDiagnostic.

Variable Sys : Type.
Variable P : Collaborators Sys.

(** X20.  When [getImage] returns non-zero, the one line on stderr names
    the identifier and the type as the filter left them: both are
    strings, never the NULL pointer, and each of their characters passes
    the test of line 323. *)
Theorem X20_image_diagnostic (abi : ABI) (argv : list string) (env : environ)
    (s : Sys) :
  let p := snd (run Sys P abi argv env s) in
  forall c, In c (trace Sys p) -> stage Sys c = ResolveImage ->
    status Sys c <> 0 ->
    exists type identifier,
      clean type = true /\ clean identifier = true
      /\ stderr Sys p
         = ["FAILED to get image " ++ identifier ++ " of type " ++ type
              ++ newline].
Proof.
  cbv zeta. destruct (run Sys P abi argv env s) as [o p] eqn:Hr.
  paths Hr; injection Hr as <- <-; cbn [snd trace stderr];
    intros c Hin Hst Hne; cases_in Hin; simpl in Hst, Hne;
    try discriminate Hst; try contradiction.
  all: destruct (parse_in_range _ _ _ _ _ _ Hp) as (_ & a & b & Ha & Hb);
    exists (keep_permitted a), (keep_permitted b);
    (split; [apply clean_iff, all_permitted_keep|]);
    (split; [apply clean_iff, all_permitted_keep|]);
    unfold msg_image; rewrite Ha, Hb; reflexivity.
Qed.

End ImageDiagnostic.

Lemma X20_witness :
  exists type identifier,
    clean type = true /\ clean identifier = true
    /\ stderr Machine
         (snd (run Machine (scripted (failing ResolveImage 5) 0) LP64
                 ["setupRoot"; "dock er"; "busybox;rm -rf /"] [] pristine))
       = ["FAILED to get image " ++ identifier ++ " of type " ++ type
            ++ newline].
Proof.
  apply (X20_image_diagnostic Machine (scripted (failing ResolveImage 5) 0)
           LP64 ["setupRoot"; "dock er"; "busybox;rm -rf /"] [] pristine
           {| stage := ResolveImage; status := 5; env_at := trusted_env;
              after := {| image_useLoopMount := 0;
                          done := [LoadSiteConfig; ResolveImage] |} |}).
  - vm_compute. tauto.
  - reflexivity.
  - discriminate.
Defined.

(** ** A uid written with a minus sign *)

Lemma decimal_neg_head (p : positive) :
  Strtoul.sign (Strtoul.skip_space (decimal (Z.neg p)))
  = (true, decimal (Z.pos p)).
Proof.
  unfold decimal.
  cbn [Z.to_int NilZero.string_of_int NilZero.string_of_uint].
  destruct (Pos.to_uint p); reflexivity.
Qed.

(** X21.  A negative number after [-U] is not refused: [strtoul] negates
    in unsigned arithmetic and the assignment keeps the low 32 bits, so
    that [-U -n] records the uid 2^32 - n (modulo 2^32). *)
Theorem X21_uid_negative (abi : ABI) (env : environ)
    (prog type identifier : string) (n : Z) :
  Getopt.is_operand type = true -> Getopt.is_operand identifier = true ->
  0 < n <= ULONG_MAX abi -> (ULONG_MAX abi + 1) mod 2 ^ 32 = 0 ->
  exists config,
    parse_SetupRootConfig abi env [prog; "-U"; decimal (- n); type; identifier]
      zeroed [] = (Returned (0, config), [])
    /\ uid config = (- n) mod 2 ^ 32.
Proof.
  intros Ht Hi Hn Hmod. eexists. split; [now apply parse_uid_option|].
  cbn [uid set_image set_uid]. unfold to_uid_t, UID_MODULUS, Strtoul.strtoul.
  destruct n as [|p|p]; try lia. change (- Z.pos p) with (Z.neg p).
  rewrite decimal_neg_head, digits_decimal by lia.
  destruct (Z.ltb_spec (ULONG_MAX abi) (Z.pos p)); [lia|].
  apply Z.mod_mod_divide. apply Z.mod_divide; [lia|exact Hmod].
Qed.

Lemma X21_witness :
  exists config,
    parse_SetupRootConfig LP64 [] ["setupRoot"; "-U"; "-1"; "docker"; "busybox"]
      zeroed [] = (Returned (0, config), [])
    /\ uid config = 4294967295.
Proof.
  destruct (X21_uid_negative LP64 [] "setupRoot" "docker" "busybox" 1
              eq_refl eq_refl) as (config & Hp & Hu).
  - vm_compute. split; [reflexivity|discriminate].
  - reflexivity.
  - exists config. split; [exact Hp|]. rewrite Hu. reflexivity.
Defined.
